(** * VHDL documentation parser (vhdl_parser.py): model and properties

    The development follows the layout of the Python module:
    - [Re]: the fragment of Python's [re] that the patterns of
      [vhdl_tokens] use (backtracking, greedy, first alternative first);
    - [vhdl_tokens]: the grammar table, state by state, rule by rule;
    - [MiniLexer]: the table-driven engine with its stack of states;
    - [parse_vhdl]: the action interpreter with its transient build state;
    - [VhdlExtractor]: the array-type registry. *)

From Stdlib Require Import Strings.String Strings.Ascii Lists.List.
From Stdlib Require Import Arith.PeanoNat Arith.Arith Bool.Bool micromega.Lia.
From Stdlib Require Import ZArith.BinInt.
Import ListNotations.
Open Scope string_scope.
Open Scope list_scope.
Open Scope nat_scope.

(* ------------------------------------------------------------------ *)
(** ** Characters and strings as Python 2 byte strings *)

Definition nl : ascii := ascii_of_nat 10.

(** [\s] without the LOCALE and UNICODE flags: space, \t, \n, \v, \f, \r. *)
Definition is_space (c : ascii) : bool :=
  let n := nat_of_ascii c in
  (n =? 32) || ((9 <=? n) && (n <=? 13)).

(** [\w] without the LOCALE and UNICODE flags: [a-zA-Z0-9_]. *)
Definition is_word (c : ascii) : bool :=
  let n := nat_of_ascii c in
  ((48 <=? n) && (n <=? 57)) || ((65 <=? n) && (n <=? 90))
  || ((97 <=? n) && (n <=? 122)) || (n =? 95).

(** [.] without DOTALL: anything but a newline. *)
Definition is_dot (c : ascii) : bool := negb (Ascii.eqb c nl).

Definition is_chr (a c : ascii) : bool := Ascii.eqb a c.

(** [str.lower()] on one character. *)
Definition lower_ascii (c : ascii) : ascii :=
  let n := nat_of_ascii c in
  if (65 <=? n) && (n <=? 90) then ascii_of_nat (n + 32) else c.

Fixpoint lower (s : string) : string :=
  match s with
  | EmptyString => EmptyString
  | String c s' => String (lower_ascii c) (lower s')
  end.

Fixpoint lstrip (s : string) : string :=
  match s with
  | String c s' => if is_space c then lstrip s' else s
  | EmptyString => EmptyString
  end.

Fixpoint rstrip (s : string) : string :=
  match s with
  | EmptyString => EmptyString
  | String c s' =>
      match rstrip s' with
      | EmptyString => if is_space c then EmptyString else String c EmptyString
      | r => String c r
      end
  end.

(** [str.strip()]. *)
Definition strip (s : string) : string := rstrip (lstrip s).

(** [text[a:b]] for offsets that are not negative. *)
Definition slice (text : string) (a b : nat) : string :=
  substring a (b - a) text.

(** The first [n] characters of [s]. *)
Fixpoint take_str (n : nat) (s : string) : string :=
  match n, s with
  | S n', String c s' => String c (take_str n' s')
  | _, _ => EmptyString
  end.

Fixpoint drop_str (n : nat) (s : string) : string :=
  match n, s with
  | S n', String _ s' => drop_str n' s'
  | _, _ => s
  end.

(* ------------------------------------------------------------------ *)
(** ** The regular expressions of the grammar table *)

Module Re.

(** Every repetition in [vhdl_tokens] ([*], [+]) is over a single
    character class, so [Star] takes a class. Groups are numbered from 0,
    as [m.groups()] lists them. *)
Inductive regex : Type :=
| Eps
| Lit (s : string)
| Chr (p : ascii -> bool)
| Seq (r1 r2 : regex)
| Alt (r1 r2 : regex)
| Star (p : ascii -> bool)
| Grp (i : nat) (r : regex).

Definition groups := list (option string).
Definition cont := string -> groups -> option (string * groups).

Fixpoint set_group (i : nat) (v : string) (g : groups) : groups :=
  match i, g with
  | O, _ :: g' => Some v :: g'
  | S i', x :: g' => x :: set_group i' v g'
  | _, [] => []
  end.

(** [s] minus the literal [l] in front of it. *)
Fixpoint lit (l s : string) : option string :=
  match l, s with
  | EmptyString, _ => Some s
  | String a l', String c s' => if Ascii.eqb a c then lit l' s' else None
  | String _ _, EmptyString => None
  end.

(** Greedy repetition: take the class as long as it goes, give back one
    character at a time when what follows fails. *)
Fixpoint star (p : ascii -> bool) (s : string) (g : groups) (k : cont)
  : option (string * groups) :=
  match s with
  | String c s' =>
      if p c then
        match star p s' g k with
        | Some r => Some r
        | None => k s g
        end
      else k s g
  | EmptyString => k s g
  end.

(** Backtracking matcher anchored at the head of [s]; the continuation
    [k] receives what is left of the text and the groups set so far. *)
Fixpoint rmatch (r : regex) (s : string) (g : groups) (k : cont)
  : option (string * groups) :=
  match r with
  | Eps => k s g
  | Lit l => match lit l s with Some s' => k s' g | None => None end
  | Chr p =>
      match s with
      | String c s' => if p c then k s' g else None
      | EmptyString => None
      end
  | Seq a b => rmatch a s g (fun s' g' => rmatch b s' g' k)
  | Alt a b =>
      match rmatch a s g k with
      | Some x => Some x
      | None => rmatch b s g k
      end
  | Star p => star p s g k
  | Grp i a =>
      rmatch a s g
        (fun s' g' =>
           k s' (set_group i
                   (take_str (String.length s - String.length s') s) g'))
  end.

(** [pat.match(text, pos)] with [s] the text from [pos] on and [n] the
    number of groups of the pattern: the rest of the text after the match
    and [m.groups()]. *)
Definition match_at (r : regex) (n : nat) (s : string)
  : option (string * groups) :=
  rmatch r s (repeat None n) (fun s' g' => Some (s', g')).

Definition plus (p : ascii -> bool) : regex := Seq (Chr p) (Star p).
Definition opt (r : regex) : regex := Alt r Eps.

Fixpoint seqs (l : list regex) : regex :=
  match l with
  | [] => Eps
  | [r] => r
  | r :: l' => Seq r (seqs l')
  end.

Fixpoint alts (l : list string) : regex :=
  match l with
  | [] => Eps
  | [s] => Lit s
  | s :: l' => Alt (Lit s) (alts l')
  end.

(** No match of the pattern is empty (a syntactic criterion). *)
Fixpoint consumes (r : regex) : bool :=
  match r with
  | Eps => false
  | Lit l => negb (String.eqb l EmptyString)
  | Chr _ => true
  | Seq a b => consumes a || consumes b
  | Alt a b => consumes a && consumes b
  | Star _ => false
  | Grp _ a => consumes a
  end.

End Re.
Import Re.

(** Shorthands for the classes the patterns use. *)
Definition ws0 : regex := Star is_space.            (* \s*  *)
Definition ws1 : regex := plus is_space.            (* \s+  *)
Definition word : regex := plus is_word.            (* \w+  *)
Definition any0 : regex := Star is_dot.             (* .*   *)
Definition lnl : regex := Chr (is_chr nl).          (* \n   *)


(* ------------------------------------------------------------------ *)
(** ** The grammar table [vhdl_tokens] *)

(** The keys of [vhdl_tokens]. *)
Inductive lstate : Set :=
| root | package | type_decl | param_list | param_type | simple_func
| component | generic_list | generic_param_type | port_list
| port_param_type | array_range | nested_parens.

Definition state_name (s : lstate) : string :=
  match s with
  | root => "root" | package => "package" | type_decl => "type_decl"
  | param_list => "param_list" | param_type => "param_type"
  | simple_func => "simple_func" | component => "component"
  | generic_list => "generic_list"
  | generic_param_type => "generic_param_type"
  | port_list => "port_list" | port_param_type => "port_param_type"
  | array_range => "array_range" | nested_parens => "nested_parens"
  end.

(** The action tags of the table (second component of a rule). *)
Inductive action : Set :=
| a_package | a_function | a_procedure | a_component | a_subtype
| a_constant | a_type | a_metacomment
| a_array_type | a_file_type | a_access_type | a_record_type
| a_range_type | a_enum_type | a_incomplete_type
| a_param | a_param_type | a_param_default | a_end_subprogram
| a_end_component
| a_generic_param | a_generic_param_type | a_generic_param_default
| a_end_generic
| a_port_param | a_port_param_type | a_port_param_default | a_end_port
| a_section_meta | a_port_array_param_type
| a_open_paren | a_array_range_end | a_close_paren.

(** Third component of a rule: absent, a state to enter, or ['#pop'] /
    ['#pop:n']. *)
Inductive directive : Set :=
| Stay
| Push (s : lstate)
| Pop (n : nat).

Record rule : Type := Rule {
  r_pat : regex;
  r_groups : nat;          (* number of capturing groups of the pattern *)
  r_action : option action;
  r_next : directive
}.

Definition quote : ascii := ascii_of_nat 34.
Definition not_quote (c : ascii) : bool := negb (Ascii.eqb c quote).
(** [[^\s;)]] *)
Definition default_chr (c : ascii) : bool :=
  negb (is_space c || Ascii.eqb c ";" || Ascii.eqb c ")").
(** [[\w']] *)
Definition word_or_tick (c : ascii) : bool := is_word c || Ascii.eqb c "'".

(** The plain comment pattern: [--], the rest of the line, newline. *)
Definition re_comment : regex := seqs [Lit "--"; any0; lnl].
(** The metacomment pattern: [--], one or more [#], group 0 = the rest of
    the line, newline. *)
Definition re_metacomment : regex :=
  seqs [Lit "--"; plus (is_chr "#"); Grp 0 any0; lnl].
(** [function], white space, group 0 = a word or an operator symbol between
    double quotes (quotes included), optional white space, opening
    parenthesis. *)
Definition re_function_params : regex :=
  seqs [Lit "function"; ws1;
        Grp 0 (Alt word (seqs [Chr (is_chr quote); plus not_quote;
                               Chr (is_chr quote)]));
        ws0; Lit "("].
(** [procedure \s+ (\w+) \s* \(] *)
Definition re_procedure : regex :=
  seqs [Lit "procedure"; ws1; Grp 0 word; ws0; Lit "("].
(** [function \s+ (\w+)] *)
Definition re_function_simple : regex :=
  seqs [Lit "function"; ws1; Grp 0 word].
(** [component \s+ (\w+) \s* is] *)
Definition re_component : regex :=
  seqs [Lit "component"; ws1; Grp 0 word; ws0; Lit "is"].
(** [(in|out|inout|buffer)] *)
Definition re_mode : regex := alts ["in"; "out"; "inout"; "buffer"].

Definition comment_rule : rule := Rule re_comment 0 None Stay.
Definition metacomment_rule : rule :=
  Rule re_metacomment 1 (Some a_metacomment) Stay.

Definition vhdl_tokens (s : lstate) : list rule :=
  match s with
  | root =>
    [ Rule (seqs [Lit "package"; ws1; Grp 0 word; ws1; Lit "is"]) 1
        (Some a_package) (Push package);
      Rule re_function_params 1 (Some a_function) (Push param_list);
      Rule re_procedure 1 (Some a_procedure) (Push param_list);
      Rule re_function_simple 1 (Some a_function) (Push simple_func);
      Rule re_component 1 (Some a_component) (Push component);
      comment_rule ]
  | package =>
    [ Rule re_function_params 1 (Some a_function) (Push param_list);
      Rule re_procedure 1 (Some a_procedure) (Push param_list);
      Rule re_function_simple 1 (Some a_function) (Push simple_func);
      Rule re_component 1 (Some a_component) (Push component);
      Rule (seqs [Lit "subtype"; ws1; Grp 0 word; ws1; Lit "is"; ws1;
                  Grp 1 word]) 2 (Some a_subtype) Stay;
      Rule (seqs [Lit "constant"; ws1; Grp 0 word; ws1; Lit ":"; ws1;
                  Grp 1 word]) 2 (Some a_constant) Stay;
      Rule (seqs [Lit "type"; ws1; Grp 0 word; ws0; Lit "is"]) 1
        (Some a_type) (Push type_decl);
      Rule (seqs [Lit "end"; ws1; Lit "package"]) 0 None (Pop 1);
      metacomment_rule;
      comment_rule ]
  | type_decl =>
    [ Rule (Lit "array") 0 (Some a_array_type) (Pop 1);
      Rule (Lit "file") 0 (Some a_file_type) (Pop 1);
      Rule (Lit "access") 0 (Some a_access_type) (Pop 1);
      Rule (Lit "record") 0 (Some a_record_type) (Pop 1);
      Rule (Lit "range") 0 (Some a_range_type) (Pop 1);
      Rule (Lit "(") 0 (Some a_enum_type) (Pop 1);
      Rule (Lit ";") 0 (Some a_incomplete_type) (Pop 1);
      comment_rule ]
  | param_list =>
    [ Rule (seqs [ws0;
                  opt (Grp 0 (Seq (alts ["variable"; "signal"; "constant";
                                         "file"]) ws1));
                  Grp 1 word; ws0]) 2 (Some a_param) Stay;
      Rule (seqs [ws0; Lit ","; ws0]) 0 None Stay;
      Rule (seqs [ws0; Lit ":"; ws0]) 0 None (Push param_type);
      comment_rule ]
  | param_type =>
    [ Rule (seqs [ws0; opt (Grp 0 (Seq re_mode ws1)); Grp 1 word; ws0]) 2
        (Some a_param_type) Stay;
      Rule (seqs [ws0; Lit ";"; ws0]) 0 None (Pop 1);
      Rule (seqs [ws0; Lit ":="; ws0;
                  Grp 0 (Alt (seqs [Lit "'"; Chr is_dot; Lit "'"])
                             (plus default_chr))]) 1
        (Some a_param_default) Stay;
      Rule (seqs [Lit ")"; ws0;
                  opt (seqs [Lit "return"; ws1; Grp 0 word; ws0]);
                  Lit ";"]) 1 (Some a_end_subprogram) (Pop 2);
      Rule (seqs [Lit ")"; ws0;
                  opt (seqs [Lit "return"; ws1; Grp 0 word; ws0]);
                  Lit "is"]) 1 None (Pop 2);
      comment_rule ]
  | simple_func =>
    [ Rule (seqs [ws1; Lit "return"; ws1; Grp 0 word; ws0; Lit ";"]) 1
        (Some a_end_subprogram) (Pop 1);
      Rule (seqs [ws1; Lit "return"; ws1; Grp 0 word; ws1; Lit "is"]) 1
        None (Pop 1);
      comment_rule ]
  | component =>
    [ Rule (seqs [Lit "generic"; ws0; Lit "("]) 0 None (Push generic_list);
      Rule (seqs [Lit "port"; ws0; Lit "("]) 0 None (Push port_list);
      Rule (seqs [Lit "end"; ws1; Lit "component"; ws0; Lit ";"]) 0
        (Some a_end_component) (Pop 1);
      comment_rule ]
  | generic_list =>
    [ Rule (seqs [ws0; Grp 0 word; ws0]) 1 (Some a_generic_param) Stay;
      Rule (seqs [ws0; Lit ","; ws0]) 0 None Stay;
      Rule (seqs [ws0; Lit ":"; ws0]) 0 None (Push generic_param_type);
      metacomment_rule;
      comment_rule ]
  | generic_param_type =>
    [ Rule (seqs [ws0; Grp 0 word; ws0]) 1 (Some a_generic_param_type) Stay;
      Rule (seqs [ws0; Lit ";"; ws0]) 0 None (Pop 1);
      Rule (seqs [ws0; Lit ":="; ws0; Grp 0 (plus word_or_tick)]) 1
        (Some a_generic_param_default) Stay;
      Rule (seqs [Lit ")"; ws0; Lit ";"]) 0 (Some a_end_generic) (Pop 2);
      metacomment_rule;
      comment_rule ]
  | port_list =>
    [ Rule (seqs [ws0; Grp 0 word; ws0]) 1 (Some a_port_param) Stay;
      Rule (seqs [ws0; Lit ","; ws0]) 0 None Stay;
      Rule (seqs [ws0; Lit ":"; ws0]) 0 None (Push port_param_type);
      Rule (seqs [Lit "--#"; ws0; Lit "{{"; Grp 0 any0; Lit "}}"; lnl]) 1
        (Some a_section_meta) Stay;
      metacomment_rule;
      comment_rule ]
  | port_param_type =>
    [ Rule (seqs [ws0; Grp 0 re_mode; ws1; Grp 1 word; ws0; Lit "("]) 2
        (Some a_port_array_param_type) (Push array_range);
      Rule (seqs [ws0; Grp 0 re_mode; ws1; Grp 1 word; ws0]) 2
        (Some a_port_param_type) Stay;
      Rule (seqs [ws0; Lit ";"; ws0]) 0 None (Pop 1);
      Rule (seqs [ws0; Lit ":="; ws0; Grp 0 (plus word_or_tick)]) 1
        (Some a_port_param_default) Stay;
      Rule (seqs [Lit ")"; ws0; Lit ";"]) 0 (Some a_end_port) (Pop 2);
      metacomment_rule;
      comment_rule ]
  | array_range =>
    [ Rule (Lit "(") 0 (Some a_open_paren) (Push nested_parens);
      Rule (Lit ")") 0 (Some a_array_range_end) (Pop 1) ]
  | nested_parens =>
    [ Rule (Lit "(") 0 (Some a_open_paren) (Push nested_parens);
      Rule (Lit ")") 0 (Some a_close_paren) (Pop 1) ]
  end.


(* ------------------------------------------------------------------ *)
(** ** The lexer engine ([MiniLexer], imported from module [minilexer]) *)

(** The errors of the engine ([LexicalError] with the offset and the
    active state, [StackUnderflow]) and what Python raises in the
    interpreter and in the facade, as far as they can meet it. *)
Inductive exn : Set :=
| LexicalError (offset : nat) (state : lstate)
| StackUnderflow
| IndexError
| ValueError
| TypeError
| AttributeError
| UnboundLocalError
| SyntaxError.

(** What [lex.run(text)] yields: [((start, end), action, groups)].
    [parse_vhdl] takes [pos[1]] of the token [port_array_param_type],
    whose match ends with the opening parenthesis, as the offset where the
    range begins (section 4.3 of the spec) and slices
    [text[pos[1] : pos[0]+1]] up to the closing one: [ev_end] is the offset
    of the last character of the match. *)
Record event : Type := Event {
  ev_start : nat;
  ev_end : nat;
  ev_action : action;
  ev_groups : groups
}.

(** How a run ends. [OutOfFuel] is not a behaviour of the program: it
    marks a run cut short by the bound on the number of iterations. *)
Inductive ending : Set :=
| EndOfInput
| Failed (e : exn)
| OutOfFuel.

(** What the engine does at an offset where no rule of the active state
    matches. The spec's section 4.1 says [FailLoudly]. The table itself is
    written for an engine that passes over such a character: [array_range]
    and [nested_parens] have rules for parentheses only, and [component]
    has none for white space. Both are modelled; the properties below say
    which one they are about. *)
Inductive no_match : Set :=
| FailLoudly
| SkipChar.

Module MiniLexer.
Section Engine.

Variable tokens : lstate -> list rule.
Variable policy : no_match.

(** The first rule, in table order, that matches at the head of [s]. *)
Fixpoint first_match (rules : list rule) (s : string)
  : option (rule * string * groups) :=
  match rules with
  | [] => None
  | r :: rules' =>
      match match_at (r_pat r) (r_groups r) s with
      | Some (s', g) => Some (r, s', g)
      | None => first_match rules' s
      end
  end.

(** The stack has its top at the head. *)
Definition apply_directive (d : directive) (stack : list lstate)
  : list lstate :=
  match d with
  | Stay => stack
  | Push st => st :: stack
  | Pop n => skipn n stack
  end.

Definition emit (pos e : nat) (r : rule) (g : groups) (evs : list event)
  : list event :=
  match r_action r with
  | Some a => Event pos (e - 1) a g :: evs
  | None => evs
  end.

(** Modelled from the spec: the engine [MiniLexer.run] is imported from
    module [minilexer], which is not among the sources. Section 4.1: a
    stack of states starting as [[root]], a cursor starting at 0; at each
    round the rules of the state on top are tried in table order, anchored
    at the cursor; the first that matches advances the cursor to the end of
    the match, emits an event when its tag is not none, and applies its
    directive; the run ends when the cursor reaches the end of the input,
    whatever the depth of the stack. [s] is the text from offset [pos] on.
    An empty stack after a pop is an error (section 9). *)
Fixpoint run_from (fuel : nat) (stack : list lstate) (pos : nat) (s : string)
  : list event * ending :=
  match fuel with
  | O => ([], OutOfFuel)
  | S fuel' =>
      match s with
      | EmptyString => ([], EndOfInput)
      | String _ s1 =>
          match stack with
          | [] => ([], Failed StackUnderflow)
          | top :: _ =>
              match first_match (tokens top) s with
              | Some (r, s', g) =>
                  let e := pos + (String.length s - String.length s') in
                  let stack' := apply_directive (r_next r) stack in
                  let (evs, fin) :=
                    match stack' with
                    | [] => ([], Failed StackUnderflow)
                    | _ => run_from fuel' stack' e s'
                    end in
                  (emit pos e r g evs, fin)
              | None =>
                  match policy with
                  | FailLoudly => ([], Failed (LexicalError pos top))
                  | SkipChar => run_from fuel' stack (S pos) s1
                  end
              end
          end
      end
  end.

(** [lex.run(text)]. Every rule of [vhdl_tokens] consumes at least one
    character, so one round per character is enough
    ([LexFacts.run_from_fuel], [LexFacts.lex_ends]). *)
Definition run (text : string) : list event * ending :=
  run_from (S (String.length text)) [root] 0 text.

End Engine.
End MiniLexer.

Definition VhdlLexer := MiniLexer.run vhdl_tokens.

(* ------------------------------------------------------------------ *)
(** ** The object model *)

Inductive res (A : Type) : Type :=
| Ok (a : A)
| Raise (e : exn).
Arguments Ok {A} a.
Arguments Raise {A} e.

Definition bind {A B : Type} (m : res A) (f : A -> res B) : res B :=
  match m with
  | Ok a => f a
  | Raise e => Raise e
  end.

Notation "x <- m ;; f" := (bind m (fun x => f))
  (at level 61, m at next level, right associativity).

(** An element of [param_items]: a captured name (a group, possibly
    [None]) in generic and port lists, a [VhdlParameter] object (its
    address in the store) in subprogram parameter lists. *)
Inductive item : Set :=
| IStr (s : option string)
| IObj (addr : nat).

(** [class VhdlParameter]. [None] is [None]. *)
Record VhdlParameter : Set := mkParameter {
  name : item;
  mode : option string;
  data_type : option string;
  default_value : option string;
  desc : option string
}.

(** [VhdlParameter(name)], the other arguments left to their defaults. *)
Definition new_parameter (n : item) : VhdlParameter :=
  mkParameter n None None None None.

(** The dictionary [dict(sections)]: one entry per key, the last pair
    with a key gives its value. *)
Fixpoint dict_set {V : Type} (k : nat) (v : V) (d : list (nat * V))
  : list (nat * V) :=
  match d with
  | [] => [(k, v)]
  | (k', v') :: d' =>
      if k =? k' then (k, v) :: d' else (k', v') :: dict_set k v d'
  end.

Definition dict {V : Type} (pairs : list (nat * V)) : list (nat * V) :=
  fold_left (fun d kv => dict_set (fst kv) (snd kv) d) pairs [].

Fixpoint dict_get {V : Type} (k : nat) (d : list (nat * V)) : option V :=
  match d with
  | [] => None
  | (k', v) :: d' => if k =? k' then Some v else dict_get k d'
  end.

(** The classes derived from [VhdlObject]. [P] is what a list of
    parameters is for the holder: while the parse runs, a reference into
    the stores (the objects are shared and mutated); for the caller, the
    parameters themselves. *)
Inductive VhdlObject (P : Type) : Type :=
| VhdlPackage (name : option string)
| VhdlType (name : option string) (type_of : action)
    (desc : list (option string))
| VhdlSubtype (name base_type : option string) (desc : list (option string))
| VhdlConstant (name base_type : option string) (desc : list (option string))
| VhdlFunction (name : option string) (parameters : P)
    (return_type : option string) (desc : list (option string))
| VhdlProcedure (name : option string) (parameters : P)
    (desc : list (option string))
| VhdlComponent (name : option string) (ports : P) (generics : P)
    (sections : list (nat * option string)) (desc : list (option string)).
Arguments VhdlPackage {P}.
Arguments VhdlType {P}.
Arguments VhdlSubtype {P}.
Arguments VhdlConstant {P}.
Arguments VhdlFunction {P}.
Arguments VhdlProcedure {P}.
Arguments VhdlComponent {P}.

(** A list of parameters during the parse: the list [parameters] is
    rebound after each use, so it is held by value ([Items]); the lists
    [generics] and [ports] stay bound after [VhdlComponent] took them, so
    they are held by reference into the store of lists ([ListRef]); these
    two only ever hold [VhdlParameter] objects. *)
Inductive plist : Set :=
| Items (l : list item)
| ListRef (id : nat).

Inductive kind_t : Set := k_function | k_procedure | k_component.

(** The local variables of [parse_vhdl] and the two stores. *)
Record pstate : Type := mkState {
  cur_name : option string;  (* [name] *)
  cur_kind : option kind_t;  (* [kind] *)
  saved_type : option string;
  metacomments : list (option string);
  parameters : list item;
  param_items : list item;
  generics : nat;  (* [generics]: a list in [lists] *)
  ports : nat;  (* [ports]: a list in [lists] *)
  sections : list (nat * option string);
  port_param_index : nat;
  last_item : option nat;  (* an address in [heap] *)
  array_range_start_pos : nat;
  cur_mode : option (option string);  (* [mode]; [None] while unbound *)
  cur_ptype : option (option string);  (* [ptype]; [None] while unbound *)
  objects : list (VhdlObject plist);
  heap : list VhdlParameter;  (* the [VhdlParameter] objects, by address *)
  lists : list (list nat)  (* the lists bound to [generics] and [ports] *)
}.

Definition set_cur_name (v : option string) (s : pstate) : pstate :=
  mkState v (cur_kind s) (saved_type s) (metacomments s) (parameters s)
    (param_items s) (generics s) (ports s) (sections s) (port_param_index s)
    (last_item s) (array_range_start_pos s) (cur_mode s) (cur_ptype s)
    (objects s) (heap s) (lists s).
Definition set_cur_kind (v : option kind_t) (s : pstate) : pstate :=
  mkState (cur_name s) v (saved_type s) (metacomments s) (parameters s)
    (param_items s) (generics s) (ports s) (sections s) (port_param_index s)
    (last_item s) (array_range_start_pos s) (cur_mode s) (cur_ptype s)
    (objects s) (heap s) (lists s).
Definition set_saved_type (v : option string) (s : pstate) : pstate :=
  mkState (cur_name s) (cur_kind s) v (metacomments s) (parameters s)
    (param_items s) (generics s) (ports s) (sections s) (port_param_index s)
    (last_item s) (array_range_start_pos s) (cur_mode s) (cur_ptype s)
    (objects s) (heap s) (lists s).
Definition set_metacomments (v : list (option string)) (s : pstate) : pstate :=
  mkState (cur_name s) (cur_kind s) (saved_type s) v (parameters s)
    (param_items s) (generics s) (ports s) (sections s) (port_param_index s)
    (last_item s) (array_range_start_pos s) (cur_mode s) (cur_ptype s)
    (objects s) (heap s) (lists s).
Definition set_parameters (v : list item) (s : pstate) : pstate :=
  mkState (cur_name s) (cur_kind s) (saved_type s) (metacomments s) v
    (param_items s) (generics s) (ports s) (sections s) (port_param_index s)
    (last_item s) (array_range_start_pos s) (cur_mode s) (cur_ptype s)
    (objects s) (heap s) (lists s).
Definition set_param_items (v : list item) (s : pstate) : pstate :=
  mkState (cur_name s) (cur_kind s) (saved_type s) (metacomments s)
    (parameters s) v (generics s) (ports s) (sections s)
    (port_param_index s) (last_item s) (array_range_start_pos s)
    (cur_mode s) (cur_ptype s) (objects s) (heap s) (lists s).
Definition set_generics (v : nat) (s : pstate) : pstate :=
  mkState (cur_name s) (cur_kind s) (saved_type s) (metacomments s)
    (parameters s) (param_items s) v (ports s) (sections s)
    (port_param_index s) (last_item s) (array_range_start_pos s)
    (cur_mode s) (cur_ptype s) (objects s) (heap s) (lists s).
Definition set_ports (v : nat) (s : pstate) : pstate :=
  mkState (cur_name s) (cur_kind s) (saved_type s) (metacomments s)
    (parameters s) (param_items s) (generics s) v (sections s)
    (port_param_index s) (last_item s) (array_range_start_pos s)
    (cur_mode s) (cur_ptype s) (objects s) (heap s) (lists s).
Definition set_sections (v : list (nat * option string)) (s : pstate)
  : pstate :=
  mkState (cur_name s) (cur_kind s) (saved_type s) (metacomments s)
    (parameters s) (param_items s) (generics s) (ports s) v
    (port_param_index s) (last_item s) (array_range_start_pos s)
    (cur_mode s) (cur_ptype s) (objects s) (heap s) (lists s).
Definition set_port_param_index (v : nat) (s : pstate) : pstate :=
  mkState (cur_name s) (cur_kind s) (saved_type s) (metacomments s)
    (parameters s) (param_items s) (generics s) (ports s) (sections s) v
    (last_item s) (array_range_start_pos s) (cur_mode s) (cur_ptype s)
    (objects s) (heap s) (lists s).
Definition set_last_item (v : option nat) (s : pstate) : pstate :=
  mkState (cur_name s) (cur_kind s) (saved_type s) (metacomments s)
    (parameters s) (param_items s) (generics s) (ports s) (sections s)
    (port_param_index s) v (array_range_start_pos s) (cur_mode s)
    (cur_ptype s) (objects s) (heap s) (lists s).
Definition set_array_range_start_pos (v : nat) (s : pstate) : pstate :=
  mkState (cur_name s) (cur_kind s) (saved_type s) (metacomments s)
    (parameters s) (param_items s) (generics s) (ports s) (sections s)
    (port_param_index s) (last_item s) v (cur_mode s) (cur_ptype s)
    (objects s) (heap s) (lists s).
Definition set_cur_mode (v : option (option string)) (s : pstate) : pstate :=
  mkState (cur_name s) (cur_kind s) (saved_type s) (metacomments s)
    (parameters s) (param_items s) (generics s) (ports s) (sections s)
    (port_param_index s) (last_item s) (array_range_start_pos s) v
    (cur_ptype s) (objects s) (heap s) (lists s).
Definition set_cur_ptype (v : option (option string)) (s : pstate) : pstate :=
  mkState (cur_name s) (cur_kind s) (saved_type s) (metacomments s)
    (parameters s) (param_items s) (generics s) (ports s) (sections s)
    (port_param_index s) (last_item s) (array_range_start_pos s)
    (cur_mode s) v (objects s) (heap s) (lists s).
Definition set_objects (v : list (VhdlObject plist)) (s : pstate) : pstate :=
  mkState (cur_name s) (cur_kind s) (saved_type s) (metacomments s)
    (parameters s) (param_items s) (generics s) (ports s) (sections s)
    (port_param_index s) (last_item s) (array_range_start_pos s)
    (cur_mode s) (cur_ptype s) v (heap s) (lists s).
Definition set_heap (v : list VhdlParameter) (s : pstate) : pstate :=
  mkState (cur_name s) (cur_kind s) (saved_type s) (metacomments s)
    (parameters s) (param_items s) (generics s) (ports s) (sections s)
    (port_param_index s) (last_item s) (array_range_start_pos s)
    (cur_mode s) (cur_ptype s) (objects s) v (lists s).
Definition set_lists (v : list (list nat)) (s : pstate) : pstate :=
  mkState (cur_name s) (cur_kind s) (saved_type s) (metacomments s)
    (parameters s) (param_items s) (generics s) (ports s) (sections s)
    (port_param_index s) (last_item s) (array_range_start_pos s)
    (cur_mode s) (cur_ptype s) (objects s) (heap s) v.

(* ------------------------------------------------------------------ *)
(** ** The action interpreter [parse_vhdl] *)

(** [groups[i]] *)
Definition group (i : nat) (g : groups) : res (option string) :=
  match nth_error g i with
  | Some v => Ok v
  | None => Raise IndexError
  end.

(** [mode, ptype = groups] *)
Definition unpack2 (g : groups) : res (option string * option string) :=
  match g with
  | [a; b] => Ok (a, b)
  | _ => Raise ValueError
  end.

Fixpoint update_nth {A : Type} (n : nat) (f : A -> A) (l : list A) : list A :=
  match n, l with
  | O, x :: l' => f x :: l'
  | S n', x :: l' => x :: update_nth n' f l'
  | _, [] => []
  end.

(** [for i in param_items: i.attr = v]: an item that is a string (or
    [None]) has no such attribute. *)
Fixpoint set_attrs (f : VhdlParameter -> VhdlParameter) (items : list item)
  (h : list VhdlParameter) : res (list VhdlParameter) :=
  match items with
  | [] => Ok h
  | IObj a :: items' => set_attrs f items' (update_nth a f h)
  | IStr _ :: _ => Raise AttributeError
  end.

Definition with_mode_type (m t : option string) (p : VhdlParameter)
  : VhdlParameter :=
  mkParameter (name p) m t (default_value p) (desc p).
Definition with_default (d : option string) (p : VhdlParameter)
  : VhdlParameter :=
  mkParameter (name p) (mode p) (data_type p) d (desc p).
Definition with_desc (d : option string) (p : VhdlParameter)
  : VhdlParameter :=
  mkParameter (name p) (mode p) (data_type p) (default_value p) d.

(** [VhdlParameter(i, mode, ptype)] for every [i] of [names], each a new
    object: the new store and the addresses, in order. *)
Fixpoint alloc_params (names : list item) (m t : option string)
  (h : list VhdlParameter) : list VhdlParameter * list nat :=
  match names with
  | [] => (h, [])
  | i :: names' =>
      let (h', addrs) :=
        alloc_params names' m t (h ++ [mkParameter i m t None None]) in
      (h', List.length h :: addrs)
  end.

(** [lst.extend(xs)] on the list [id] of the store. *)
Definition list_extend (id : nat) (xs : list nat) (ls : list (list nat))
  : list (list nat) :=
  update_nth id (fun l => l ++ xs) ls.

Definition list_get (id : nat) (ls : list (list nat)) : list nat :=
  nth id ls [].

(** [lst[-1]] *)
Definition last_addr (l : list nat) : res nat :=
  match l with
  | [] => Raise IndexError
  | _ => Ok (last l 0)
  end.

Definition mode_strip (m : option string) : option string :=
  match m with
  | Some s => Some (strip s)
  | None => None
  end.

(** [ptype + arange] *)
Definition str_add (a : option string) (b : string) : res (option string) :=
  match a with
  | Some s => Ok (Some (String.append s b))
  | None => Raise TypeError
  end.

Definition bound {A : Type} (v : option A) : res A :=
  match v with
  | Some x => Ok x
  | None => Raise UnboundLocalError
  end.

(** Appends the new ports (or generics) to the list [id] and makes the
    last element of that list the target of metacomments. *)
Definition add_params (is_port : bool) (m t : option string) (s : pstate)
  : res pstate :=
  let id := if is_port then ports s else generics s in
  let (h, addrs) := alloc_params (param_items s) m t (heap s) in
  let ls := list_extend id addrs (lists s) in
  a <- last_addr (list_get id ls) ;;
  Ok (set_last_item (Some a)
       (set_param_items [] (set_lists ls (set_heap h s)))).

(** After an object was appended: [kind = None; name = None;
    metacomments = []]. *)
Definition emitted (o : VhdlObject plist) (s : pstate) : pstate :=
  set_metacomments []
    (set_cur_name None (set_cur_kind None (set_objects (objects s ++ [o]) s))).

(** The body of the loop [for pos, action, groups in lex.run(text)], one
    branch per tag, in the order of the source. *)
Definition interp (text : string) (s : pstate) (e : event) : res pstate :=
  let g := ev_groups e in
  match ev_action e with
  | a_metacomment =>
      g0 <- group 0 g ;;
      match last_item s with
      | None => Ok (set_metacomments (metacomments s ++ [g0]) s)
      | Some a => Ok (set_heap (update_nth a (with_desc g0) (heap s)) s)
      end
  | a_section_meta =>
      g0 <- group 0 g ;;
      Ok (set_sections (sections s ++ [(port_param_index s, g0)]) s)
  | a_function =>
      g0 <- group 0 g ;;
      Ok (set_parameters [] (set_param_items []
           (set_cur_name g0 (set_cur_kind (Some k_function) s))))
  | a_procedure =>
      g0 <- group 0 g ;;
      Ok (set_parameters [] (set_param_items []
           (set_cur_name g0 (set_cur_kind (Some k_procedure) s))))
  | a_param =>
      g1 <- group 1 g ;;
      Ok (set_param_items [IObj (List.length (heap s))]
           (set_heap (heap s ++ [new_parameter (IStr g1)])
             (set_parameters (parameters s ++ param_items s) s)))
  | a_param_type =>
      mt <- unpack2 g ;;
      let m := mode_strip (fst mt) in
      h <- set_attrs (with_mode_type m (snd mt)) (param_items s) (heap s) ;;
      Ok (set_heap h (set_cur_ptype (Some (snd mt))
           (set_cur_mode (Some m) s)))
  | a_param_default =>
      match param_items s with
      | [] => Ok s
      | _ =>
          g0 <- group 0 g ;;
          h <- set_attrs (with_default g0) (param_items s) (heap s) ;;
          Ok (set_heap h s)
      end
  | a_end_subprogram =>
      let ps := parameters s ++ param_items s in
      o <- match cur_kind s with
           | Some k_function =>
               g0 <- group 0 g ;;
               Ok (VhdlFunction (cur_name s) (Items ps) g0 (metacomments s))
           | _ => Ok (VhdlProcedure (cur_name s) (Items ps) (metacomments s))
           end ;;
      Ok (set_param_items [] (set_parameters [] (emitted o s)))
  | a_component =>
      g0 <- group 0 g ;;
      let n := List.length (lists s) in
      Ok (set_port_param_index 0 (set_sections [] (set_param_items []
           (set_ports (S n) (set_generics n (set_lists (lists s ++ [[]; []])
             (set_cur_name g0 (set_cur_kind (Some k_component) s))))))))
  | a_generic_param =>
      g0 <- group 0 g ;;
      Ok (set_param_items (param_items s ++ [IStr g0]) s)
  | a_generic_param_type =>
      g0 <- group 0 g ;;
      add_params false (Some "in") g0 (set_cur_ptype (Some g0) s)
  | a_port_param =>
      g0 <- group 0 g ;;
      Ok (set_port_param_index (S (port_param_index s))
           (set_param_items (param_items s ++ [IStr g0]) s))
  | a_port_param_type =>
      mt <- unpack2 g ;;
      add_params true (fst mt) (snd mt)
        (set_cur_ptype (Some (snd mt)) (set_cur_mode (Some (fst mt)) s))
  | a_port_array_param_type =>
      mt <- unpack2 g ;;
      Ok (set_array_range_start_pos (ev_end e)
           (set_cur_ptype (Some (snd mt)) (set_cur_mode (Some (fst mt)) s)))
  | a_array_range_end =>
      let arange := slice text (array_range_start_pos s) (ev_start e + 1) in
      match param_items s with
      | [] => add_params true None None s
      | _ =>
          m <- bound (cur_mode s) ;;
          t <- bound (cur_ptype s) ;;
          t' <- str_add t arange ;;
          add_params true m t' s
      end
  | a_end_component =>
      let o := VhdlComponent (cur_name s) (ListRef (ports s))
                 (ListRef (generics s)) (dict (sections s))
                 (metacomments s) in
      Ok (set_metacomments [] (set_last_item None
           (set_objects (objects s ++ [o]) s)))
  | a_package =>
      g0 <- group 0 g ;;
      Ok (set_cur_name None (set_cur_kind None
           (set_objects (objects s ++ [VhdlPackage g0]) s)))
  | a_type =>
      g0 <- group 0 g ;;
      Ok (set_saved_type g0 s)
  | a_array_type | a_file_type | a_access_type | a_record_type
  | a_range_type | a_enum_type | a_incomplete_type =>
      Ok (emitted (VhdlType (saved_type s) (ev_action e) (metacomments s)) s)
  | a_subtype =>
      g0 <- group 0 g ;;
      g1 <- group 1 g ;;
      Ok (emitted (VhdlSubtype g0 g1 (metacomments s)) s)
  | a_constant =>
      g0 <- group 0 g ;;
      g1 <- group 1 g ;;
      Ok (emitted (VhdlConstant g0 g1 (metacomments s)) s)
  | a_generic_param_default | a_end_generic | a_port_param_default
  | a_end_port | a_open_paren | a_close_paren => Ok s
  end.

(** The locals as [parse_vhdl] sets them before the loop; the lists bound
    to [generics] and [ports] are the lists 0 and 1 of the store. *)
Definition init_state : pstate :=
  mkState None None None [] [] [] 0 1 [] 0 None 0 None None [] [] [[]; []].

(** The loop over the events the lexer yields. The lexer is a generator:
    an exception of the interpreter at an event comes before whatever the
    lexer does after that event. *)
Fixpoint interp_all (text : string) (s : pstate) (evs : list event)
  : res pstate :=
  match evs with
  | [] => Ok s
  | e :: evs' => s' <- interp text s e ;; interp_all text s' evs'
  end.

(** An element of a list of parameters as the caller sees it. *)
Inductive pelem : Set :=
| Param (p : VhdlParameter)
| Str (s : option string)
| Dangling.   (* no object at the address: does not occur *)

Definition view_item (h : list VhdlParameter) (i : item) : pelem :=
  match i with
  | IStr s => Str s
  | IObj a => match nth_error h a with Some p => Param p | None => Dangling end
  end.

Definition view_plist (s : pstate) (l : plist) : list pelem :=
  match l with
  | Items items => map (view_item (heap s)) items
  | ListRef id => map (fun a => view_item (heap s) (IObj a))
                      (list_get id (lists s))
  end.

Definition view_object (s : pstate) (o : VhdlObject plist)
  : VhdlObject (list pelem) :=
  match o with
  | VhdlPackage n => VhdlPackage n
  | VhdlType n t d => VhdlType n t d
  | VhdlSubtype n b d => VhdlSubtype n b d
  | VhdlConstant n b d => VhdlConstant n b d
  | VhdlFunction n ps r d => VhdlFunction n (view_plist s ps) r d
  | VhdlProcedure n ps d => VhdlProcedure n (view_plist s ps) d
  | VhdlComponent n ps gs secs d =>
      VhdlComponent n (view_plist s ps) (view_plist s gs) secs d
  end.

(** What the caller reads in [objects] once [parse_vhdl] has returned. *)
Definition view (s : pstate) : list (VhdlObject (list pelem)) :=
  map (view_object s) (objects s).

(** The outcome of a call. [Timeout] is only the bound of the model on the
    rounds of the lexer; [parse_vhdl_returns] shows it does not occur. *)
Inductive outcome (A : Type) : Type :=
| Returns (a : A)
| Raises (e : exn)
| Timeout.
Arguments Returns {A} a.
Arguments Raises {A} e.
Arguments Timeout {A}.

Definition finish (text : string) (s : pstate) (r : list event * ending)
  : outcome pstate :=
  match interp_all text s (fst r) with
  | Raise e => Raises e
  | Ok s' =>
      match snd r with
      | EndOfInput => Returns s'
      | Failed e => Raises e
      | OutOfFuel => Timeout
      end
  end.

Definition map_outcome {A B : Type} (f : A -> B) (o : outcome A) : outcome B :=
  match o with
  | Returns a => Returns (f a)
  | Raises e => Raises e
  | Timeout => Timeout
  end.

(** [parse_vhdl(text)], for an engine with the given behaviour where no
    rule matches. *)
Definition parse_vhdl (policy : no_match) (text : string)
  : outcome (list (VhdlObject (list pelem))) :=
  map_outcome view (finish text init_state (VhdlLexer policy text)).

(* ------------------------------------------------------------------ *)
(** ** The extraction facade [VhdlExtractor]: the array-type registry *)

(** The values [ast.literal_eval] can return, as far as the registry can
    tell them apart (no floats, complex numbers or byte strings). *)
#[warnings="-register-all"]
Inductive pylit : Set :=
| PyNone
| PyBool (b : bool)
| PyInt (z : Z)
| PyStr (s : string)
| PyTuple (l : list pylit)
| PyList (l : list pylit)
| PyDict (kv : list (pylit * pylit)).

(** [v == s] for a string [s]. *)
Definition is_str (s : string) (v : pylit) : bool :=
  match v with
  | PyStr t => String.eqb s t
  | _ => false
  end.

Fixpoint hashable (v : pylit) : bool :=
  match v with
  | PyList _ | PyDict _ => false
  | PyTuple l => forallb hashable l
  | _ => true
  end.

(** [s in t] for two strings. *)
Fixpoint str_contains (s t : string) : bool :=
  if String.prefix s t then true
  else match t with
       | EmptyString => false
       | String _ t' => str_contains s t'
       end.

Fixpoint chars (s : string) : list pylit :=
  match s with
  | EmptyString => []
  | String c s' => PyStr (String c EmptyString) :: chars s'
  end.

(** The registry [self.array_types], a set: only membership is observed. *)
Definition registry := list pylit.

Definition lit_of_name (n : option string) : pylit :=
  match n with
  | Some s => PyStr s
  | None => PyNone
  end.

(** [v == n] for a name [n], a string or [None]. *)
Definition is_name (n : option string) (v : pylit) : bool :=
  match n, v with
  | Some s, _ => is_str s v
  | None, PyNone => true
  | None, _ => false
  end.

(** [set((...))] in [__init__]. *)
Definition seed_types : registry :=
  [PyStr "std_ulogic_vector"; PyStr "std_logic_vector"; PyStr "signed";
   PyStr "unsigned"; PyStr "bit_vector"].

(** [VhdlExtractor(array_types)] *)
Definition new_extractor (array_types : registry) : registry :=
  seed_types ++ array_types.

(** [is_array(data_type)]: [data_type.lower() in self.array_types]. *)
Definition is_array (reg : registry) (data_type : string) : bool :=
  existsb (is_str (lower data_type)) reg.

(** ['arrays' in type_defs] *)
Definition has_arrays (v : pylit) : res bool :=
  match v with
  | PyDict kv => Ok (existsb (fun e => is_str "arrays" (fst e)) kv)
  | PyList l | PyTuple l => Ok (existsb (is_str "arrays") l)
  | PyStr s => Ok (str_contains "arrays" s)
  | PyNone | PyBool _ | PyInt _ => Raise TypeError
  end.

(** [type_defs['arrays']], known to hold ['arrays']: the value of the key
    in a mapping (the last one given for it); a sequence or a string is
    not indexed by a string. *)
Definition get_arrays (v : pylit) : res pylit :=
  match v with
  | PyDict kv =>
      match filter (fun e => is_str "arrays" (fst e)) kv with
      | [] => Raise IndexError
      | e :: es => Ok (snd (last es e))
      end
  | _ => Raise TypeError
  end.

(** [set(x)] *)
Definition to_set (x : pylit) : res (list pylit) :=
  match x with
  | PyList l | PyTuple l =>
      if forallb hashable l then Ok l else Raise TypeError
  | PyStr s => Ok (chars s)
  | PyDict kv => Ok (map fst kv)
  | PyNone | PyBool _ | PyInt _ => Raise TypeError
  end.

(** [add_array_types(type_defs)] *)
Definition add_array_types (type_defs : pylit) (reg : registry)
  : res registry :=
  b <- has_arrays type_defs ;;
  if (b : bool) then
    x <- get_arrays type_defs ;;
    new <- to_set x ;;
    Ok (reg ++ new)
  else Ok reg.

Section Load.

(** [ast.literal_eval], a function of the Python library: the value of a
    literal, [SyntaxError] for a text that is no expression, [ValueError]
    for an expression that is no literal. *)
Variable literal_eval : string -> res pylit.

(** [load_array_types(fname)] once the content of the file has been
    read: [except SyntaxError] is the only handler. *)
Definition load_array_types (content : string) (reg : registry)
  : res registry :=
  match literal_eval content with
  | Ok type_defs => add_array_types type_defs reg
  | Raise SyntaxError => add_array_types (PyDict []) reg
  | Raise e => Raise e
  end.

End Load.

(** [isinstance(v, dict)]: the literal is a mapping. *)
Definition is_mapping (v : pylit) : bool :=
  match v with
  | PyDict _ => true
  | _ => false
  end.

(** The dictionary [subtypes]: name to base type, the last entry for a
    name wins. *)
Definition name_eqb (a b : option string) : bool :=
  match a, b with
  | Some x, Some y => String.eqb x y
  | None, None => true
  | _, _ => false
  end.

Definition sdict := list (option string * option string).

Fixpoint sdict_get (k : option string) (d : sdict) : option (option string) :=
  match d with
  | [] => None
  | (k', v) :: d' => if name_eqb k k' then Some v else sdict_get k d'
  end.

Fixpoint sdict_set (k v : option string) (d : sdict) : sdict :=
  match d with
  | [] => [(k, v)]
  | (k', v') :: d' =>
      if name_eqb k k' then (k, v) :: d' else (k', v') :: sdict_set k v d'
  end.

Section Register.

Variable P : Type.

(** [[o for o in objects if isinstance(o, VhdlType) and o.type_of ==
    'array_type']], as the names. *)
Fixpoint array_type_names (objs : list (VhdlObject P)) : list pylit :=
  match objs with
  | [] => []
  | VhdlType n a_array_type _ :: objs' =>
      lit_of_name n :: array_type_names objs'
  | _ :: objs' => array_type_names objs'
  end.

(** [{o.name: o.base_type for o in objects if isinstance(o, VhdlSubtype)}] *)
Definition subtypes_of (objs : list (VhdlObject P)) : sdict :=
  fold_left
    (fun d o => match o with
                | VhdlSubtype n b _ => sdict_set n b d
                | _ => d
                end)
    objs [].

(** [while v in subtypes: v = subtypes[v]], at most [fuel] rounds: [None]
    when the condition still holds after them. *)
Fixpoint follow (subtypes : sdict) (fuel : nat) (v : option string)
  : option (option string) :=
  match sdict_get v subtypes with
  | None => Some v
  | Some v' =>
      match fuel with
      | O => None
      | S fuel' => follow subtypes fuel' v'
      end
  end.

(** [for k, v in subtypes.iteritems(): ...]. The order of the iteration
    does not change the outcome: what ends a chain is not a key, and only
    keys are added. *)
Fixpoint register_subtypes (subtypes : sdict) (fuel : nat) (todo : sdict)
  (reg : registry) : outcome registry :=
  match todo with
  | [] => Returns reg
  | (k, v) :: todo' =>
      match follow subtypes fuel v with
      | None => Timeout
      | Some r =>
          register_subtypes subtypes fuel todo'
            (if existsb (is_name r) reg then reg ++ [lit_of_name k]
             else reg)
      end
  end.

(** [register_array_types(objects)], each [while] loop cut at [fuel]
    rounds. *)
Definition register_array_types (fuel : nat) (objs : list (VhdlObject P))
  (reg : registry) : outcome registry :=
  let reg1 := reg ++ array_type_names objs in
  let subtypes := subtypes_of objs in
  register_subtypes subtypes fuel subtypes reg1.

End Register.
Arguments array_type_names {P}.
Arguments subtypes_of {P}.
Arguments register_array_types {P}.

(** [extract_components(text)]: the components and the new registry. *)
Definition extract_components (policy : no_match) (fuel : nat)
  (text : string) (reg : registry)
  : outcome (list (VhdlObject (list pelem)) * registry) :=
  match parse_vhdl policy text with
  | Returns objs =>
      match register_array_types fuel objs reg with
      | Returns reg' =>
          Returns (filter (fun o => match o with
                                    | VhdlComponent _ _ _ _ _ => true
                                    | _ => false
                                    end) objs, reg')
      | Raises e => Raises e
      | Timeout => Timeout
      end
  | Raises e => Raises e
  | Timeout => Timeout
  end.

(* ------------------------------------------------------------------ *)
(** ** The run from a configuration *)

(** The lexer started in the middle of a run: stack [stack], cursor at
    [pos], [s] the text from [pos] on. One round per character left is
    enough for the table [vhdl_tokens]. *)
Definition lex (policy : no_match) (stack : list lstate) (pos : nat)
  (s : string) : list event * ending :=
  MiniLexer.run_from vhdl_tokens policy (S (String.length s)) stack pos s.

(** [parse_vhdl] from a configuration of the lexer and a state of the
    interpreter. *)
Definition parse_from (policy : no_match) (text : string)
  (stack : list lstate) (pos : nat) (s : string) (pst : pstate)
  : outcome pstate :=
  finish text pst (lex policy stack pos s).

(** What the interpreter does with the token of a match, none for a
    silent rule. *)
Definition on_match (text : string) (pst : pstate) (pos e : nat) (r : rule)
  (g : groups) : res pstate :=
  match r_action r with
  | Some a => interp text pst (Event pos (e - 1) a g)
  | None => Ok pst
  end.

(** The configurations a parse of [text] goes through: the stack of the
    lexer, the cursor, the text from the cursor on and the state of the
    interpreter. A step is the match of a rule with its token interpreted
    or, for an engine that passes over what no rule matches, one character
    skipped. *)
Inductive scan (policy : no_match) (text : string)
  : list lstate -> nat -> string -> pstate -> Prop :=
| scan_start : scan policy text [root] 0 text init_state
| scan_match top stack pos s pst r s' g pst' :
    scan policy text (top :: stack) pos s pst ->
    s <> EmptyString ->
    MiniLexer.first_match (vhdl_tokens top) s = Some (r, s', g) ->
    on_match text pst pos (pos + (String.length s - String.length s')) r g
      = Ok pst' ->
    MiniLexer.apply_directive (r_next r) (top :: stack) <> [] ->
    scan policy text (MiniLexer.apply_directive (r_next r) (top :: stack))
      (pos + (String.length s - String.length s')) s' pst'
| scan_skip top stack pos c s pst :
    policy = SkipChar ->
    scan policy text (top :: stack) pos (String c s) pst ->
    MiniLexer.first_match (vhdl_tokens top) (String c s) = None ->
    scan policy text (top :: stack) (S pos) s pst.

(* ------------------------------------------------------------------ *)
(** ** Example sources *)

Definition dq (s : string) : string :=
  String quote (String.append s (String quote EmptyString)).

(** The declaration of the operator "+" of the spec's section 8. *)
Definition plus_text : string :=
  String.append "function "
    (String.append (dq "+") " (l : integer; r : integer) return integer;").

(** The component of the spec's section 8. *)
Definition adder_text : string :=
"component adder is
  generic ( WIDTH : integer := 8 );
  port ( a : in std_logic_vector(WIDTH-1 downto 0);
         b : in std_logic_vector(WIDTH-1 downto 0);
         sum : out std_logic_vector(WIDTH-1 downto 0) );
end component;".

(** [VhdlParameter(name, mode, data_type)] as the caller sees it. *)
Definition port (n m t : string) : pelem :=
  Param (mkParameter (IStr (Some n)) (Some m) (Some t) None None).

(** A comment line, then a character no rule of [root] knows. *)
Definition stray_text : string :=
"--x
@".

(* ------------------------------------------------------------------ *)
(** ** Parentheses *)

(** The depth of nesting after [s], entered at depth [d]; [None] when a
    closing parenthesis of [s] closes more than was opened. *)
Fixpoint paren_depth (d : nat) (s : string) : option nat :=
  match s with
  | EmptyString => Some d
  | String c s' =>
      if Ascii.eqb "(" c then paren_depth (S d) s'
      else if Ascii.eqb ")" c then
        match d with
        | O => None
        | S d' => paren_depth d' s'
        end
      else paren_depth d s'
  end.

(** Every parenthesis of [s] has its match in [s]. *)
Definition balanced (s : string) : Prop := paren_depth 0 s = Some 0.

(** The deepest nesting inside [s], entered at depth [d]. *)
Fixpoint max_depth (d : nat) (s : string) : nat :=
  match s with
  | EmptyString => d
  | String c s' =>
      if Ascii.eqb "(" c then Nat.max d (max_depth (S d) s')
      else if Ascii.eqb ")" c then Nat.max d (max_depth (pred d) s')
      else max_depth d s'
  end.

(** The literal a pattern ends with, when it is a sequence that ends with
    one. *)
Fixpoint last_lit (r : regex) : option string :=
  match r with
  | Lit l => Some l
  | Seq _ b => last_lit b
  | _ => None
  end.

(** The state of the lexer at depth [d] inside a range. *)
Definition top_of (d : nat) : lstate :=
  match d with O => array_range | S _ => nested_parens end.

(** The stack with [d] levels of [nested_parens] above [array_range]. *)
Definition range_stack (d : nat) (stack : list lstate) : list lstate :=
  repeat nested_parens d ++ array_range :: stack.

(** The state of the interpreter after the token [port_array_param_type]
    whose match ends at offset [open] (the opening parenthesis). *)
Definition range_opened (open : nat) (m t : option string) (pst : pstate)
  : pstate :=
  set_array_range_start_pos open
    (set_cur_ptype (Some t) (set_cur_mode (Some m) pst)).

(** The parameters at the addresses [addrs]. *)
Definition deref (pst : pstate) (addrs : list nat)
  : list (option VhdlParameter) :=
  map (nth_error (heap pst)) addrs.

(** The list bound to [ports]. *)
Definition ports_list (pst : pstate) : list nat :=
  list_get (ports pst) (lists pst).

(** The list bound to [generics]. *)
Definition generics_list (pst : pstate) : list nat :=
  list_get (generics pst) (lists pst).

(* ------------------------------------------------------------------ *)
(** ** Running the configurations *)

Definition config : Type := list lstate * nat * string * pstate.

(** One step of [scan], computed: [None] when the parse ends, raises or
    has an empty stack. *)
Definition step (policy : no_match) (text : string) (c : config)
  : option config :=
  let '(stack, pos, s, pst) := c in
  match s, stack with
  | String _ s1, top :: _ =>
      match MiniLexer.first_match (vhdl_tokens top) s with
      | Some (r, s', g) =>
          let e := pos + (String.length s - String.length s') in
          match on_match text pst pos e r g,
                MiniLexer.apply_directive (r_next r) stack with
          | Ok pst', t :: st => Some (t :: st, e, s', pst')
          | _, _ => None
          end
      | None =>
          match policy with
          | SkipChar => Some (stack, S pos, s1, pst)
          | FailLoudly => None
          end
      end
  | _, _ => None
  end.

Fixpoint steps (policy : no_match) (text : string) (n : nat) (c : config)
  : option config :=
  match n with
  | O => Some c
  | S n' =>
      match step policy text c with
      | Some c' => steps policy text n' c'
      | None => None
      end
  end.

Definition start (text : string) : config := ([root], 0, text, init_state).

(** A port with a range nested three deep, and where the parse of it
    goes. *)
Definition range_text : string :=
  "component c is port ( d : in bus(f(g(1)) downto (0)) ); end component;".

(* ------------------------------------------------------------------ *)
(** ** Chains of subtypes *)

(** [k] comes to [w] by one or more links from a subtype to its base
    type. *)
Inductive reaches (d : sdict) : option string -> option string -> Prop :=
| reach_one k v : sdict_get k d = Some v -> reaches d k v
| reach_more k v w :
    sdict_get k d = Some v -> reaches d v w -> reaches d k w.

(** No subtype is, through its base types, a subtype of itself. *)
Definition acyclic (d : sdict) : Prop := forall k, ~ reaches d k k.

(** The dictionary of [subtype a is b; subtype b is a]. *)
Definition cycle_dict : sdict := [(Some "a", Some "b"); (Some "b", Some "a")].

(** [subtype a is b] together with [subtype b is a]. *)
Definition cycle_objects : list (VhdlObject (list pelem)) :=
  [VhdlSubtype (Some "a") (Some "b") [];
   VhdlSubtype (Some "b") (Some "a") []].

(** The same in a package; the comments keep the declarations apart for
    an engine that has no rule for white space there. *)
Definition cycle_text : string :=
"package p is--
subtype a is b--
subtype b is a--
".

(** An array type and two subtypes in a chain, in upper case. *)
Definition chain_text : string :=
"package p is
  type A is array (natural range <>) of bit;
  subtype B is A;
  subtype C is B;
end package;
".

(** The same in lower case. *)
Definition chain_text_lower : string :=
"package p is
  type a is array (natural range <>) of bit;
  subtype b is a;
  subtype c is b;
end package;
".

(** [ast.literal_eval] on the contents used in the examples, as Python
    evaluates them: a mapping, the integer 5, the name [foo] (an
    expression that is no literal) and, for the rest, a text cut in the
    middle of a mapping. *)
Definition literal_eval_sample (content : string) : res pylit :=
  if String.eqb content "{'arrays': ['My_Vec']}" then
    Ok (PyDict [(PyStr "arrays", PyList [PyStr "My_Vec"])])
  else if String.eqb content "5" then Ok (PyInt 5)
  else if String.eqb content "foo" then Raise ValueError
  else Raise SyntaxError.

(** [type A is array ...; subtype B is A; subtype C is B] as objects. *)
Definition chain_objects : list (VhdlObject (list pelem)) :=
  [VhdlType (Some "A") a_array_type [];
   VhdlSubtype (Some "B") (Some "A") [];
   VhdlSubtype (Some "C") (Some "B") []].

(* ------------------------------------------------------------------ *)
(** ** Reading the stream of tokens *)

Definition is_component (e : event) : bool :=
  match ev_action e with a_component => true | _ => false end.

Definition is_port_param (e : event) : bool :=
  match ev_action e with a_port_param => true | _ => false end.

(** The tokens after the last [component], all of them when there is
    none. *)
Definition after_last_component (evs : list event) : list event :=
  fold_left (fun acc e => if is_component e then [] else acc ++ [e]) evs [].

(** The number of port names declared so far in the component being
    read. *)
Definition declared_ports (evs : list event) : nat :=
  List.length (filter is_port_param (after_last_component evs)).

(** The tags at which an object is appended to [objects]. *)
Definition creates (a : action) : bool :=
  match a with
  | a_end_subprogram | a_end_component | a_package
  | a_array_type | a_file_type | a_access_type | a_record_type
  | a_range_type | a_enum_type | a_incomplete_type
  | a_subtype | a_constant => true
  | _ => false
  end.

(** The tags at which [last_item] is assigned. *)
Definition retargets (a : action) : bool :=
  match a with
  | a_generic_param_type | a_port_param_type | a_array_range_end
  | a_end_component => true
  | _ => false
  end.

(** [o.desc]: [None] for a package. *)
Definition description {P : Type} (o : VhdlObject P)
  : option (list (option string)) :=
  match o with
  | VhdlPackage _ => None
  | VhdlType _ _ d | VhdlSubtype _ _ d | VhdlConstant _ _ d
  | VhdlFunction _ _ _ d | VhdlProcedure _ _ d
  | VhdlComponent _ _ _ _ d => Some d
  end.


(** A metacomment in one package, then a second package and a function. *)
Definition package_comment_text : string :=
"package a is--# about what follows
end package--
package b is--
function f return x;".

(** A metacomment line after a parameter of a function. *)
Definition param_comment_text : string :=
"function f (a : integer--# about a
) return integer;".

(** Metacomment lines after a generic and after a port. *)
Definition port_comment_text : string :=
"component c is--
generic ( n : integer--# size
);port ( a : in bit--# input
);end component;".

(** A section marker with the label [label] was seen in the component
    being read when [k] port names had been declared in it. *)
Definition marker_seen (evs : list event) (k : nat) (label : option string)
  : Prop :=
  exists evs1 e evs2,
    evs = evs1 ++ e :: evs2 /\
    ev_action e = a_section_meta /\
    nth_error (ev_groups e) 0 = Some label /\
    k = declared_ports evs1 /\
    forallb (fun x => negb (is_component x)) evs2 = true.

(** The component objects of a state, each closed by an [end_component]
    before which its markers were seen. *)
Definition sections_sound (evs : list event) (s : pstate) : Prop :=
  port_param_index s = declared_ports evs /\
  (forall k l, In (k, l) (sections s) -> marker_seen evs k l) /\
  (forall n ps gs secs d,
     In (VhdlComponent n ps gs secs d) (objects s) ->
     exists evs_a e_end evs_b,
       evs = evs_a ++ e_end :: evs_b /\
       ev_action e_end = a_end_component /\
       forall k l, dict_get k secs = Some l -> marker_seen evs_a k l).

(** Every address held by a list of generics or ports is an object of the
    store. *)
Definition lists_valid (s : pstate) : Prop :=
  forall id a, In a (nth id (lists s) []) -> a < List.length (heap s).

(** The list whose last element a token with tag [a] makes the target of
    metacomments. *)
Definition target_list (a : action) (s : pstate) : list nat :=
  match a with
  | a_generic_param_type => generics_list s
  | _ => ports_list s
  end.

(** The parameter objects still in [param_items] (those of a subprogram)
    are objects of the store and are in no list of generics or ports. *)
Definition items_apart (s : pstate) : Prop :=
  forall a, In (IObj a) (param_items s) ->
    a < List.length (heap s) /\
    forall id, ~ In a (nth id (lists s) []).

(** [p'] is [p] but for its description. *)
Definition same_but_desc (p p' : VhdlParameter) : Prop :=
  name p' = name p /\ mode p' = mode p /\ data_type p' = data_type p /\
  default_value p' = default_value p.

(** The generics and ports of [s] are still there in [s'], in the same
    lists, changed in their description at most. *)
Definition ports_kept (s s' : pstate) : Prop :=
  forall id a p,
    In a (nth id (lists s) []) -> nth_error (heap s) a = Some p ->
    In a (nth id (lists s') []) /\
    exists p', nth_error (heap s') a = Some p' /\ same_but_desc p p'.

(* ------------------------------------------------------------------ *)
(** ** What a registration adds *)

(** The subtype [k] of [d] has a chain of base types that ends, within
    [fuel] rounds, in a name of [known]. *)
Definition chain_ends_in (d : sdict) (fuel : nat) (known : registry)
  (k : option string) : Prop :=
  exists v r,
    In (k, v) d /\ follow d fuel v = Some r /\ In (lit_of_name r) known.

(** [todo] has the items of the dictionary [d], in some order. *)
Definition same_items (todo d : sdict) : Prop :=
  forall e, In e todo <-> In e d.

(* ------------------------------------------------------------------ *)
(** ** The extractor and the files *)

(** The files: the content at a path, [None] where there is no file. The
    extractor reads them as latin-1, one character per byte. *)
Definition files : Type := string -> option string.

(** The outcome of an operation that reads or writes a file: as
    [outcome], and [IOError] for a file that cannot be opened. *)
Inductive io_outcome (A : Type) : Type :=
| Done (a : A)
| Fails (e : exn)
| IOError
| Unfinished.
Arguments Done {A} a.
Arguments Fails {A} e.
Arguments IOError {A}.
Arguments Unfinished {A}.

Definition parsed : Type := list (VhdlObject (list pelem)).

(** [class VhdlExtractor]: [self.array_types] and [self.object_cache], a
    dictionary from paths to parsed objects. *)
Record VhdlExtractor : Type := mkExtractor {
  array_types : registry;
  object_cache : list (string * parsed)
}.

(** [VhdlExtractor(array_types)] *)
Definition new_VhdlExtractor (given : registry) : VhdlExtractor :=
  mkExtractor (new_extractor given) [].

(** [self.object_cache[fname]], [None] when [fname] is not a key. *)
Fixpoint cache_get (fname : string) (cache : list (string * parsed))
  : option parsed :=
  match cache with
  | [] => None
  | (f, objs) :: cache' =>
      if String.eqb fname f then Some objs else cache_get fname cache'
  end.

(** [extract_file_objects(fname)]: the outcome and the extractor after
    the call. The objects are put in the cache before they are
    registered. *)
Definition extract_file_objects (policy : no_match) (fuel : nat)
  (fs : files) (fname : string) (x : VhdlExtractor)
  : io_outcome parsed * VhdlExtractor :=
  match cache_get fname (object_cache x) with
  | Some objs => (Done objs, x)
  | None =>
      match fs fname with
      | None => (IOError, x)
      | Some text =>
          match parse_vhdl policy text with
          | Raises e => (Fails e, x)
          | Timeout => (Unfinished, x)
          | Returns objs =>
              let cache' := object_cache x ++ [(fname, objs)] in
              match register_array_types fuel objs (array_types x) with
              | Returns reg' => (Done objs, mkExtractor reg' cache')
              | Raises e => (Fails e, mkExtractor (array_types x) cache')
              | Timeout => (Unfinished, mkExtractor (array_types x) cache')
              end
          end
      end
  end.

Definition is_VhdlComponent {P : Type} (o : VhdlObject P) : bool :=
  match o with
  | VhdlComponent _ _ _ _ _ => true
  | _ => false
  end.

(** [extract_file_components(fname)] *)
Definition extract_file_components (policy : no_match) (fuel : nat)
  (fs : files) (fname : string) (x : VhdlExtractor)
  : io_outcome parsed * VhdlExtractor :=
  match extract_file_objects policy fuel fs fname x with
  | (Done objs, x') => (Done (filter is_VhdlComponent objs), x')
  | r => r
  end.

(** Calls of [extract_file_objects] one after the other, each on the
    files as they are at the time of the call; the outcomes are dropped. *)
Fixpoint extract_many (policy : no_match) (fuel : nat)
  (calls : list (files * string)) (x : VhdlExtractor) : VhdlExtractor :=
  match calls with
  | [] => x
  | (fs, fname) :: calls' =>
      extract_many policy fuel calls'
        (snd (extract_file_objects policy fuel fs fname x))
  end.

(** [fs] with the content [c] at [fname]. *)
Definition write_file (fname c : string) (fs : files) : files :=
  fun f => if String.eqb f fname then Some c else fs f.

(** [save_array_types(fname)]. The dictionary [type_defs] is built first
    (sorting the names of the registry raises nothing for the values of
    [pylit]) and is never used. [open(fname, 'wt')] raises [IOError] for a
    path that cannot be written ([writable] tells which can) and leaves
    the files as they are; otherwise it creates or empties the file. Then
    [pprint(type_defs, stream=fh)] calls the module [pprint] (the file has
    [import pprint], not [from pprint import pprint]): a module cannot be
    called, and [with] closes the file on the way out. *)
Definition save_array_types (writable : string -> bool)
  (fname : string) (x : VhdlExtractor) (fs : files)
  : io_outcome unit * files :=
  if writable fname
  then (Fails TypeError, write_file fname EmptyString fs)
  else (IOError, fs).

(** Calls of [save_array_types] one after the other, by any extractors:
    the outcomes and the files they leave. *)
Fixpoint save_many (writable : string -> bool)
  (calls : list (string * VhdlExtractor)) (fs : files)
  : list (io_outcome unit) * files :=
  match calls with
  | [] => ([], fs)
  | (fname, x) :: calls' =>
      let r := save_array_types writable fname x fs in
      let rest := save_many writable calls' (snd r) in
      (fst r :: fst rest, snd rest)
  end.

Section LoadFile.
Variable literal_eval : string -> res pylit.

(** [load_array_types(fname)] from the files. *)
Definition load_array_types_file (fs : files) (fname : string)
  (x : VhdlExtractor) : io_outcome unit * VhdlExtractor :=
  match fs fname with
  | None => (IOError, x)
  | Some content =>
      match load_array_types literal_eval content (array_types x) with
      | Ok reg' => (Done tt, mkExtractor reg' (object_cache x))
      | Raise e => (Fails e, x)
      end
  end.

End LoadFile.

(* ------------------------------------------------------------------ *)
(** ** Tokens *)

(** [e] is a token with the tag [a] and the groups [g], wherever it is in
    the text. *)
Definition token (a : action) (g : groups) (e : event) : Prop :=
  ev_action e = a /\ ev_groups e = g.

(** [evs] are the tokens [param] of the names [xs], each with or without
    one of the words [variable], [signal], [constant], [file] before it. *)
Definition param_tokens (evs : list event) (xs : list (option string))
  : Prop :=
  Forall2 (fun e x => exists k, token a_param [k; x] e) evs xs.

(** [evs] are the tokens with the tag [a] and one group, for the texts
    [xs]. *)
Definition tokens_of (a : action) (evs : list event)
  (xs : list (option string)) : Prop :=
  Forall2 (fun e x => token a [x] e) evs xs.


(** ** Signatures *)

(** What [format] puts for a value that is a string or [None]. *)
Definition fmt (x : option string) : string :=
  match x with Some s => s | None => "None" end.

(** [sep.join(l)]: an item that is not a string is a [TypeError]. *)
Fixpoint join (sep : string) (l : list (option string)) : res string :=
  match l with
  | [] => Ok EmptyString
  | None :: _ => Raise TypeError
  | Some x :: l' =>
      match l' with
      | [] => Ok x
      | _ => r <- join sep l' ;; Ok (String.append x (String.append sep r))
      end
  end.

(** [p.data_type for p in vo.parameters], run to its end before [join]
    looks at an item: a member that is no [VhdlParameter] has no such
    attribute. *)
Fixpoint data_types (ps : list pelem) : res (list (option string)) :=
  match ps with
  | [] => Ok []
  | Param p :: ps' => ts <- data_types ps' ;; Ok (data_type p :: ts)
  | _ :: _ => Raise AttributeError
  end.

(** [subprogram_signature(vo, fullname)]; the outer [None] of [fullname]
    is the default of the argument. An object that is neither a function
    nor a procedure has no attribute [parameters]. *)
Definition subprogram_signature (vo : VhdlObject (list pelem))
  (fullname : option (option string)) : res string :=
  match vo with
  | VhdlFunction n ps r _ =>
      let fullname := match fullname with Some f => f | None => n end in
      ts <- data_types ps ;;
      plist <- join "," ts ;;
      Ok (String.append (fmt fullname)
            (String.append "["
               (String.append plist
                  (String.append " return "
                     (String.append (fmt r) "]")))))
  | VhdlProcedure n ps _ =>
      let fullname := match fullname with Some f => f | None => n end in
      ts <- data_types ps ;;
      plist <- join "," ts ;;
      Ok (String.append (fmt fullname)
            (String.append "[" (String.append plist "]")))
  | _ => Raise AttributeError
  end.


(** ** Invariants and examples of the later sections *)

(** [generics] and [ports] are bound to lists of the store. *)
Definition ids_valid (s : pstate) : Prop :=
  generics s < List.length (lists s) /\ ports s < List.length (lists s).

(** The state of the interpreter when the lexer comes to the type of the
    port of [range_text]. *)
Definition range_state : pstate :=
  mkState (Some "c") (Some k_component) None [] [] [IStr (Some "d")] 2 3 []
    1 None 0 None None [] [] [[]; []; []; []].

Definition is_section_meta (e : event) : bool :=
  match ev_action e with a_section_meta => true | _ => false end.

(** No section marker comes before the first port name of [evs]. *)
Fixpoint markers_after_a_port (evs : list event) : bool :=
  match evs with
  | [] => true
  | e :: evs' =>
      if is_port_param e then true
      else negb (is_section_meta e) && markers_after_a_port evs'
  end.

(** Two section markers before the first port. *)
Definition marker_text : string :=
"component c is--
port (--# {{a}}
--# {{b}}
 d : in bit );end component;".

(** A range of parentheses only, which an engine that fails where no rule
    matches reads to the end as well. *)
Definition paren_text : string :=
"component c is--
port (d : in bus(()));end component;".

(* ------------------------------------------------------------------ *)
(** * Properties *)

Set Implicit Arguments.

(** ** The matcher *)

Example re_word_backtrack :
  match_at (seqs [word; Lit "is"]) 0 "thisis x" = Some (" x", []).
Proof. reflexivity. Qed.

Example re_function_op :
  match_at re_function_params 1
    (String.append "function " (String quote (String "+"%char
       (String quote " (l : integer; r"))))
  = Some ("l : integer; r",
          [Some (String quote (String "+"%char (String quote EmptyString)))]).
Proof. reflexivity. Qed.

(** The matcher consumes a prefix of the text. *)

Module ReFacts.

Lemma append_assoc (a b c : string) :
  String.append (String.append a b) c = String.append a (String.append b c).
Proof. induction a as [|x a IH]; simpl; [reflexivity | now rewrite IH]. Qed.

Lemma append_nil_r (a : string) : String.append a EmptyString = a.
Proof. induction a as [|x a IH]; simpl; [reflexivity | now rewrite IH]. Qed.

Lemma length_append (a b : string) :
  String.length (String.append a b) = String.length a + String.length b.
Proof. induction a as [|x a IH]; simpl; [reflexivity | now rewrite IH]. Qed.

Lemma lit_split (l s s' : string) :
  lit l s = Some s' -> s = String.append l s'.
Proof.
  revert s; induction l as [|a l IH]; intros s H; simpl in *.
  - now inversion H.
  - destruct s as [|c s]; [discriminate|].
    destruct (Ascii.eqb a c) eqn:E; [|discriminate].
    apply Ascii.eqb_eq in E; subst. f_equal. now apply IH.
Qed.

Lemma star_inv (p : ascii -> bool) (s : string) (g : groups) (k : cont) res :
  star p s g k = Some res ->
  exists pre s1, s = String.append pre s1 /\ k s1 g = Some res.
Proof.
  revert res; induction s as [|c s IH]; intros res H; simpl in H.
  - exists EmptyString, EmptyString. now split.
  - destruct (p c).
    + destruct (star p s g k) as [r|] eqn:E.
      * inversion H; subst.
        destruct (IH _ eq_refl) as (pre & s1 & -> & Hk).
        exists (String c pre), s1. now split.
      * exists EmptyString, (String c s). now split.
    + exists EmptyString, (String c s). now split.
Qed.

(** A successful match is a call of the continuation on a suffix of the
    text; the prefix it took is not empty when the pattern consumes. *)
Lemma rmatch_inv (r : regex) : forall s g k res,
  rmatch r s g k = Some res ->
  exists pre s1 g1,
    s = String.append pre s1 /\ k s1 g1 = Some res /\
    (consumes r = true -> pre <> EmptyString).
Proof.
  induction r as [|l|p|a IHa b IHb|a IHa b IHb|p|i a IHa];
    intros s g k res H; simpl in H.
  - exists EmptyString, s, g. repeat split; auto. discriminate.
  - destruct (lit l s) as [s'|] eqn:E; [|discriminate].
    apply lit_split in E. exists l, s', g. repeat split; auto.
    simpl. destruct l; simpl; congruence.
  - destruct s as [|c s]; [discriminate|].
    destruct (p c); [|discriminate].
    exists (String c EmptyString), s, g. repeat split; auto. discriminate.
  - apply IHa in H. destruct H as (pre1 & s1 & g1 & -> & H & Ca).
    apply IHb in H. destruct H as (pre2 & s2 & g2 & -> & H & Cb).
    exists (String.append pre1 pre2), s2, g2. repeat split; auto.
    + now rewrite append_assoc.
    + simpl. intros C. apply orb_true_iff in C.
      destruct C as [C|C].
      * specialize (Ca C). destruct pre1; simpl; congruence.
      * specialize (Cb C). destruct pre1; simpl; [assumption | discriminate].
  - destruct (rmatch a s g k) as [x|] eqn:E.
    + inversion H; subst. apply IHa in E.
      destruct E as (pre & s1 & g1 & -> & Hk & C).
      exists pre, s1, g1. repeat split; auto.
      simpl. intros C'. apply andb_true_iff in C'. tauto.
    + apply IHb in H. destruct H as (pre & s1 & g1 & -> & Hk & C).
      exists pre, s1, g1. repeat split; auto.
      simpl. intros C'. apply andb_true_iff in C'. tauto.
  - apply star_inv in H. destruct H as (pre & s1 & -> & Hk).
    exists pre, s1, g. repeat split; auto. discriminate.
  - apply IHa in H. destruct H as (pre & s1 & g1 & -> & Hk & C).
    eexists pre, s1, _. repeat split; eauto.
Qed.

Lemma match_at_inv (r : regex) (n : nat) (s s' : string) (g : groups) :
  match_at r n s = Some (s', g) ->
  exists pre, s = String.append pre s' /\
              (consumes r = true -> pre <> EmptyString).
Proof.
  unfold match_at. intros H. apply rmatch_inv in H.
  destruct H as (pre & s1 & g1 & -> & Hk & C).
  inversion Hk; subst. now exists pre.
Qed.

End ReFacts.

(* ------------------------------------------------------------------ *)
(** ** The lexer on [vhdl_tokens] *)

Module LexFacts.
Import ReFacts MiniLexer.

(** Every pattern of the table takes at least one character. *)
Lemma vhdl_tokens_consume (st : lstate) :
  forallb (fun r => consumes (r_pat r)) (vhdl_tokens st) = true.
Proof. destruct st; reflexivity. Qed.

Lemma first_match_rule (rules : list rule) (s s' : string) r g :
  first_match rules s = Some (r, s', g) ->
  In r rules /\ match_at (r_pat r) (r_groups r) s = Some (s', g).
Proof.
  induction rules as [|r0 rules IH]; simpl; [discriminate|].
  destruct (match_at (r_pat r0) (r_groups r0) s) as [[s0 g0]|] eqn:E.
  - intros H; inversion H; subst. split; [now left | assumption].
  - intros H. destruct (IH H) as [Hin Hp]. split; [now right | exact Hp].
Qed.

Lemma first_match_inv (rules : list rule) (s s' : string) r g :
  first_match rules s = Some (r, s', g) ->
  In r rules /\
  exists pre, s = String.append pre s' /\
              (consumes (r_pat r) = true -> pre <> EmptyString).
Proof.
  intros H. apply first_match_rule in H. destruct H as [Hin Hm].
  split; [assumption|]. eapply match_at_inv; eauto.
Qed.

(** A match of a rule of the table leaves strictly less text. *)
Lemma first_match_shorter (st : lstate) (s s' : string) r g :
  first_match (vhdl_tokens st) s = Some (r, s', g) ->
  String.length s' < String.length s.
Proof.
  intros H. apply first_match_inv in H. destruct H as [Hin (pre & -> & C)].
  pose proof (vhdl_tokens_consume st) as Hall.
  rewrite forallb_forall in Hall. specialize (C (Hall _ Hin)).
  rewrite length_append. destruct pre; [congruence | simpl; lia].
Qed.

Lemma first_match_length (st : lstate) (s s' : string) r g :
  first_match (vhdl_tokens st) s = Some (r, s', g) ->
  exists pre, s = String.append pre s' /\
    String.length s - String.length s' = String.length pre.
Proof.
  intros H. apply first_match_inv in H. destruct H as [_ (pre & -> & _)].
  exists pre. split; [reflexivity|]. rewrite length_append. lia.
Qed.

(** Rounds beyond one per character left change nothing. *)
Lemma run_from_fuel (policy : no_match) : forall f1 f2 stack pos s,
  String.length s < f1 -> String.length s < f2 ->
  run_from vhdl_tokens policy f1 stack pos s
  = run_from vhdl_tokens policy f2 stack pos s.
Proof.
  induction f1 as [|f1 IH]; intros f2 stack pos s H1 H2; [lia|].
  destruct f2 as [|f2]; [lia|]. simpl.
  destruct s as [|c s]; [reflexivity|].
  destruct stack as [|top stack]; [reflexivity|].
  destruct (first_match (vhdl_tokens top) (String c s))
    as [[[r s'] g]|] eqn:E.
  - pose proof (first_match_shorter _ _ E) as Hs. simpl in Hs.
    destruct (apply_directive (r_next r) (top :: stack)); [reflexivity|].
    rewrite (IH f2); [reflexivity | simpl in *; lia | simpl in *; lia].
  - destruct policy; [reflexivity|].
    apply IH; simpl in *; lia.
Qed.

(** The equations of [lex]. *)
Lemma lex_nil policy stack pos :
  lex policy stack pos EmptyString = ([], EndOfInput).
Proof. reflexivity. Qed.

Lemma lex_match policy top stack pos s r s' g :
  s <> EmptyString ->
  first_match (vhdl_tokens top) s = Some (r, s', g) ->
  apply_directive (r_next r) (top :: stack) <> [] ->
  lex policy (top :: stack) pos s =
  (emit pos (pos + (String.length s - String.length s')) r g
     (fst (lex policy (apply_directive (r_next r) (top :: stack))
             (pos + (String.length s - String.length s')) s')),
   snd (lex policy (apply_directive (r_next r) (top :: stack))
          (pos + (String.length s - String.length s')) s')).
Proof.
  intros Hs E Hd. unfold lex at 1. simpl.
  destruct s as [|c s]; [congruence|]. rewrite E.
  pose proof (first_match_shorter _ _ E) as Hl. simpl in Hl.
  destruct (apply_directive (r_next r) (top :: stack)) as [|t st] eqn:Ed;
    [congruence|].
  unfold lex.
  rewrite (run_from_fuel policy (f1 := String.length (String c s))
             (f2 := S (String.length s'))); [|simpl; lia | lia].
  now destruct (run_from vhdl_tokens policy (S (String.length s')) (t :: st)
                  (pos + (String.length (String c s) - String.length s')) s').
Qed.

Lemma lex_stuck top stack pos c s :
  first_match (vhdl_tokens top) (String c s) = None ->
  lex FailLoudly (top :: stack) pos (String c s)
  = ([], Failed (LexicalError pos top)).
Proof. intros E. unfold lex. simpl. now rewrite E. Qed.

Lemma lex_skip top stack pos c s :
  first_match (vhdl_tokens top) (String c s) = None ->
  lex SkipChar (top :: stack) pos (String c s)
  = lex SkipChar (top :: stack) (S pos) s.
Proof.
  intros E. unfold lex. simpl. rewrite E.
  destruct s as [|c' s]; reflexivity.
Qed.

(** The bound on the rounds is never what ends a run. *)
Lemma lex_ends policy : forall n stack pos s,
  String.length s < n -> snd (lex policy stack pos s) <> OutOfFuel.
Proof.
  induction n as [|n IH]; intros stack pos s Hn; [lia|].
  destruct s as [|c s]; [discriminate|].
  destruct stack as [|top stack]; [discriminate|].
  destruct (first_match (vhdl_tokens top) (String c s))
    as [[[r s'] g]|] eqn:E.
  - destruct (apply_directive (r_next r) (top :: stack)) as [|t st] eqn:Ed.
    + unfold lex. simpl. rewrite E, Ed. discriminate.
    + assert (Hne : String c s <> EmptyString) by discriminate.
      rewrite (lex_match policy top stack pos Hne E);
        [|rewrite Ed; discriminate].
      simpl. rewrite Ed. apply IH.
      pose proof (first_match_shorter _ _ E). simpl in *. lia.
  - destruct policy.
    + rewrite lex_stuck by assumption. discriminate.
    + rewrite lex_skip by assumption. apply IH. simpl in Hn. lia.
Qed.

End LexFacts.

(* ------------------------------------------------------------------ *)
(** ** The parse, one step at a time *)

Module ParseFacts.
Import ReFacts MiniLexer LexFacts.

Lemma parse_vhdl_from policy text :
  parse_vhdl policy text
  = map_outcome view (parse_from policy text [root] 0 text init_state).
Proof. reflexivity. Qed.

Lemma finish_emit text pst pos e r g evs fin :
  finish text pst (emit pos e r g evs, fin)
  = match on_match text pst pos e r g with
    | Ok pst' => finish text pst' (evs, fin)
    | Raise x => Raises x
    end.
Proof.
  unfold finish, emit, on_match. simpl.
  destruct (r_action r) as [a|]; simpl; [|reflexivity].
  destruct (interp text pst (Event pos (e - 1) a g)); reflexivity.
Qed.

(** A rule matches: its token is interpreted, then the parse goes on
    after the match. *)
Lemma parse_from_match policy text top stack pos s pst r s' g :
  s <> EmptyString ->
  first_match (vhdl_tokens top) s = Some (r, s', g) ->
  apply_directive (r_next r) (top :: stack) <> [] ->
  parse_from policy text (top :: stack) pos s pst
  = match on_match text pst pos (pos + (String.length s - String.length s'))
            r g with
    | Ok pst' =>
        parse_from policy text (apply_directive (r_next r) (top :: stack))
          (pos + (String.length s - String.length s')) s' pst'
    | Raise x => Raises x
    end.
Proof.
  intros Hs E Hd. unfold parse_from.
  rewrite (lex_match policy top stack pos Hs E Hd), finish_emit.
  destruct (on_match text pst pos _ r g); [|reflexivity].
  now destruct (lex policy _ _ s').
Qed.

Lemma parse_from_stuck text top stack pos c s pst :
  first_match (vhdl_tokens top) (String c s) = None ->
  parse_from FailLoudly text (top :: stack) pos (String c s) pst
  = Raises (LexicalError pos top).
Proof. intros E. unfold parse_from. now rewrite lex_stuck. Qed.

Lemma parse_from_skip text top stack pos c s pst :
  first_match (vhdl_tokens top) (String c s) = None ->
  parse_from SkipChar text (top :: stack) pos (String c s) pst
  = parse_from SkipChar text (top :: stack) (S pos) s pst.
Proof. intros E. unfold parse_from. now rewrite lex_skip. Qed.

Lemma parse_from_end policy text stack pos pst :
  parse_from policy text stack pos EmptyString pst = Returns pst.
Proof. reflexivity. Qed.

(** The parse from a configuration it goes through is the parse. *)
Lemma scan_parse_from policy text stack pos s pst :
  scan policy text stack pos s pst ->
  parse_from policy text stack pos s pst
  = parse_from policy text [root] 0 text init_state.
Proof.
  induction 1 as [|top stack pos s pst r s' g pst' _ IH Hs E Hm Hd
                  |top stack pos c s pst Hp _ IH E].
  - reflexivity.
  - rewrite <- IH, (parse_from_match policy text top stack pos pst Hs E Hd).
    now rewrite Hm.
  - subst policy. rewrite <- IH. symmetry. now apply parse_from_skip.
Qed.

(** A call of [parse_vhdl] returns or raises: the bound on the rounds of
    the lexer is never met. *)
Lemma parse_vhdl_returns policy text : parse_vhdl policy text <> Timeout.
Proof.
  unfold parse_vhdl, VhdlLexer, run. fold (lex policy [root] 0 text).
  pose proof (@lex_ends policy (S (String.length text)) [root] 0 text
                (Nat.lt_succ_diag_r _)) as H.
  unfold finish.
  destruct (lex policy [root] 0 text) as [evs fin]. simpl in *.
  destruct (interp_all text init_state evs); simpl; [|discriminate].
  destruct fin; simpl; congruence.
Qed.

End ParseFacts.

(* ------------------------------------------------------------------ *)
(** ** End-to-end examples *)

(** C1: the declaration [function "+" (l : integer; r : integer) return
    integer;] parses to exactly one Function named ["+"], quotes
    included, with return type [integer] and the two parameters [l] and
    [r] in this order, each of type [integer], without default value and
    with mode [None]. No position of this text is without a matching
    rule, so this holds for either behaviour of the engine there. *)
Theorem C1_operator_plus_function (policy : no_match) :
  parse_vhdl policy plus_text
  = Returns
      [VhdlFunction (Some (dq "+"))
         [Param (mkParameter (IStr (Some "l")) None (Some "integer")
                   None None);
          Param (mkParameter (IStr (Some "r")) None (Some "integer")
                   None None)]
         (Some "integer") []].
Proof. destruct policy; vm_compute; reflexivity. Qed.

(** The token of the default value of a generic, or of a port, changes
    nothing, whatever the state; the one of a subprogram parameter sets
    the default value of the pending parameters. *)
Lemma default_of_generic_is_dropped text s e :
  ev_action e = a_generic_param_default \/
  ev_action e = a_port_param_default ->
  interp text s e = Ok s.
Proof. unfold interp. now intros [-> | ->]. Qed.

Lemma default_of_parameter_is_kept text s e a d :
  ev_action e = a_param_default -> param_items s = [IObj a] ->
  group 0 (ev_groups e) = Ok d ->
  interp text s e = Ok (set_heap (update_nth a (with_default d) (heap s)) s).
Proof. unfold interp. intros -> -> ->. reflexivity. Qed.

(** C2: on the adder example the parser, with an engine that passes over
    the white space between the clauses, returns one Component [adder]
    with the generic [WIDTH] (mode [in], type [integer]) and the three
    ports [a], [b], [sum] with the range kept in the type, but the default
    value of the generic is [None], not [8]: the token
    [generic_param_default] has no branch in the interpreter. With an
    engine that fails where no rule matches, the parse stops at the end
    of the first line. *)
Theorem C2_adder_generic_default_dropped :
  parse_vhdl SkipChar adder_text
  = Returns
      [VhdlComponent (Some "adder")
         [port "a" "in" "std_logic_vector(WIDTH-1 downto 0)";
          port "b" "in" "std_logic_vector(WIDTH-1 downto 0)";
          port "sum" "out" "std_logic_vector(WIDTH-1 downto 0)"]
         [Param (mkParameter (IStr (Some "WIDTH")) (Some "in")
                   (Some "integer") None None)]
         [] []]
  /\ parse_vhdl FailLoudly adder_text = Raises (LexicalError 18 component).
Proof. split; vm_compute; reflexivity. Qed.

(* ------------------------------------------------------------------ *)
(** ** Lexical errors *)

(** C3: with the engine of the spec's section 4.1, if the parse of a text
    comes to a position before the end of the input where no rule of the
    state on top of the stack matches, [parse_vhdl] raises the lexical
    error with this offset and this state: no character is passed over and
    the caller gets no objects. *)
Theorem C3_no_rule_is_a_lexical_error text top stack pos c s pst :
  scan FailLoudly text (top :: stack) pos (String c s) pst ->
  MiniLexer.first_match (vhdl_tokens top) (String c s) = None ->
  parse_vhdl FailLoudly text = Raises (LexicalError pos top).
Proof.
  intros Hscan Hnone.
  rewrite ParseFacts.parse_vhdl_from.
  rewrite <- (ParseFacts.scan_parse_from Hscan).
  now rewrite ParseFacts.parse_from_stuck.
Qed.

Lemma C3_witness :
  parse_vhdl FailLoudly stray_text = Raises (LexicalError 4 root).
Proof.
  apply (@C3_no_rule_is_a_lexical_error stray_text root [] 4 "@"%char
           EmptyString init_state).
  - change (scan FailLoudly stray_text
              (MiniLexer.apply_directive (r_next comment_rule) [root])
              (0 + (String.length stray_text - String.length "@")) "@"
              init_state).
    eapply scan_match with (g := []).
    + apply scan_start.
    + discriminate.
    + reflexivity.
    + reflexivity.
    + discriminate.
  - reflexivity.
Defined.

(* ------------------------------------------------------------------ *)
(** ** Array ranges *)

Module RangeFacts.
Import ReFacts MiniLexer LexFacts ParseFacts.

Lemma rmatch_last_lit (r : regex) : forall l s g k res,
  last_lit r = Some l ->
  rmatch r s g k = Some res ->
  exists pre s1 g1,
    s = String.append pre (String.append l s1) /\ k s1 g1 = Some res.
Proof.
  induction r as [|l0|p|a IHa b IHb|a IHa b IHb|p|i a IHa];
    intros l s g k res Hl H; simpl in Hl; try discriminate.
  - inversion Hl; subst. simpl in H.
    destruct (lit l s) as [s'|] eqn:E; [|discriminate].
    apply lit_split in E. exists EmptyString, s', g. now split.
  - simpl in H. apply rmatch_inv in H.
    destruct H as (pre1 & s1 & g1 & -> & H & _).
    destruct (IHb _ _ _ _ _ Hl H) as (pre2 & s2 & g2 & -> & Hk).
    exists (String.append pre1 pre2), s2, g2. split; [|assumption].
    now rewrite append_assoc.
Qed.

(** The text of a configuration is the text from its cursor on. *)
Lemma scan_text policy text stack pos s pst :
  scan policy text stack pos s pst ->
  exists pre, text = String.append pre s /\ String.length pre = pos.
Proof.
  induction 1 as [|top stack pos s pst r s' g pst' _ IH Hs E Hm Hd
                  |top stack pos c s pst Hp _ IH E].
  - exists EmptyString. now split.
  - destruct IH as (pre & -> & <-).
    destruct (first_match_length _ _ E) as (m & -> & ->).
    exists (String.append pre m). split.
    + now rewrite append_assoc.
    + apply length_append.
  - destruct IH as (pre & -> & <-).
    exists (String.append pre (String c EmptyString)). split.
    + now rewrite append_assoc.
    + rewrite length_append. simpl. lia.
Qed.

Lemma scan_stuck text top stack pos c s pst :
  scan FailLoudly text (top :: stack) pos (String c s) pst ->
  first_match (vhdl_tokens top) (String c s) = None ->
  parse_vhdl FailLoudly text = Raises (LexicalError pos top).
Proof.
  intros Hscan Hnone. rewrite parse_vhdl_from.
  rewrite <- (scan_parse_from Hscan). now rewrite parse_from_stuck.
Qed.

Lemma range_stack_top d stack :
  exists tl, range_stack d stack = top_of d :: tl.
Proof. destruct d; unfold range_stack; simpl; eauto. Qed.

(** The two states of a range know the parentheses and nothing else. *)
Lemma fm_open d s :
  first_match (vhdl_tokens (top_of d)) (String "(" s)
  = Some (Rule (Lit "(") 0 (Some a_open_paren) (Push nested_parens), s, []).
Proof. destruct d; reflexivity. Qed.

Lemma fm_close_nested d s :
  first_match (vhdl_tokens (top_of (S d))) (String ")" s)
  = Some (Rule (Lit ")") 0 (Some a_close_paren) (Pop 1), s, []).
Proof. reflexivity. Qed.

Lemma fm_close_range s :
  first_match (vhdl_tokens array_range) (String ")" s)
  = Some (Rule (Lit ")") 0 (Some a_array_range_end) (Pop 1), s, []).
Proof. reflexivity. Qed.

Lemma fm_other d c s :
  Ascii.eqb "(" c = false -> Ascii.eqb ")" c = false ->
  first_match (vhdl_tokens (top_of d)) (String c s) = None.
Proof.
  intros H1 H2.
  destruct d; unfold first_match, match_at; cbn -[Ascii.eqb];
    now rewrite H1, H2.
Qed.

Lemma length_tail c s : String.length (String c s) - String.length s = 1.
Proof. cbn [String.length]. lia. Qed.

(** Inside a range the lexer balances the parentheses: from depth [d] it
    is back in [array_range] after a text that closes what it opens, the
    interpreter untouched; an engine that fails where no rule matches
    raises at the first character that is no parenthesis. *)
Lemma scan_range policy text stack : forall body d pos tail pst,
  scan policy text (range_stack d stack) pos (String.append body tail) pst ->
  paren_depth d body = Some 0 ->
  scan policy text (array_range :: stack) (pos + String.length body) tail pst
  \/ (policy = FailLoudly /\
      exists off st, parse_vhdl policy text = Raises (LexicalError off st)).
Proof.
  induction body as [|c body IH]; intros d pos tail pst Hscan Hd;
    cbn [String.append String.length paren_depth] in *.
  - inversion Hd; subst. left. now rewrite Nat.add_0_r.
  - replace (pos + S (String.length body))
      with (S pos + String.length body) by lia.
    destruct (Ascii.eqb "(" c) eqn:Eo; [|destruct (Ascii.eqb ")" c) eqn:Ec].
    + apply Ascii.eqb_eq in Eo; subst c.
      apply (IH (S d)); [|assumption].
      destruct (range_stack_top d stack) as (tl & Htl).
      rewrite Htl in Hscan.
      assert (Hn : scan policy text
                     (apply_directive (Push nested_parens) (top_of d :: tl))
                     (pos + (String.length
                               (String "(" (String.append body tail))
                             - String.length (String.append body tail)))
                     (String.append body tail) pst).
      { eapply scan_match
          with (r := Rule (Lit "(") 0 (Some a_open_paren)
                       (Push nested_parens)) (g := []);
          [exact Hscan | discriminate | apply fm_open | reflexivity
          | discriminate]. }
      rewrite length_tail, Nat.add_1_r in Hn.
      simpl in Hn. rewrite <- Htl in Hn. exact Hn.
    + apply Ascii.eqb_eq in Ec; subst c.
      destruct d as [|d]; [discriminate|].
      apply (IH d); [|assumption].
      assert (Hn : scan policy text
                     (apply_directive (Pop 1)
                        (nested_parens :: range_stack d stack))
                     (pos + (String.length
                               (String ")" (String.append body tail))
                             - String.length (String.append body tail)))
                     (String.append body tail) pst).
      { eapply scan_match
          with (r := Rule (Lit ")") 0 (Some a_close_paren) (Pop 1))
               (g := []);
          [exact Hscan | discriminate | apply (fm_close_nested d)
          | reflexivity | destruct d; discriminate]. }
      rewrite length_tail, Nat.add_1_r in Hn. exact Hn.
    + destruct (range_stack_top d stack) as (tl & Htl).
      rewrite Htl in Hscan.
      pose proof (@fm_other d c (String.append body tail) Eo Ec) as Hnone.
      destruct policy.
      * right. split; [reflexivity|]. eauto using scan_stuck.
      * apply (IH d); [|assumption]. rewrite Htl.
        now apply scan_skip with (c := c).
Qed.

End RangeFacts.

Module StoreFacts.
Import ReFacts.

Lemma update_nth_length {A} (f : A -> A) : forall n l,
  List.length (update_nth n f l) = List.length l.
Proof.
  induction n as [|n IH]; destruct l as [|x l]; simpl; auto.
Qed.

Lemma update_nth_same {A} (f : A -> A) (d : A) : forall n l,
  n < List.length l -> nth n (update_nth n f l) d = f (nth n l d).
Proof.
  induction n as [|n IH]; destruct l as [|x l]; simpl; intros H;
    try lia; auto. apply IH. lia.
Qed.

Lemma update_nth_other {A} (f : A -> A) (d : A) : forall n m l,
  n <> m -> nth m (update_nth n f l) d = nth m l d.
Proof.
  induction n as [|n IH]; destruct m as [|m]; destruct l as [|x l]; simpl;
    intros H; try congruence; auto.
Qed.

Lemma update_nth_beyond {A} (f : A -> A) : forall n l,
  List.length l <= n -> update_nth n f l = l.
Proof.
  induction n as [|n IH]; destruct l as [|x l]; simpl; intros H;
    try lia; auto. f_equal. apply IH. lia.
Qed.

(** The new parameters sit at the end of the store, in the order of the
    names. *)
Lemma alloc_params_spec m t : forall names h,
  alloc_params names m t h
  = (h ++ map (fun n => mkParameter n m t None None) names,
     seq (List.length h) (List.length names)).
Proof.
  induction names as [|n names IH]; intros h; simpl.
  - now rewrite app_nil_r.
  - rewrite IH, <- app_assoc, length_app. simpl.
    now rewrite Nat.add_1_r.
Qed.

Lemma nth_error_new {A} (h new : list A) :
  map (nth_error (h ++ new)) (seq (List.length h) (List.length new))
  = map Some new.
Proof.
  revert h. induction new as [|x new IH]; intros h; simpl; [reflexivity|].
  f_equal.
  - rewrite nth_error_app2 by lia. now rewrite Nat.sub_diag.
  - specialize (IH (h ++ [x])). rewrite <- app_assoc, length_app in IH.
    simpl in IH. now rewrite Nat.add_1_r in IH.
Qed.

(** What [add_params] does when it does not raise: the list grows by the
    new parameters, one per pending name, with the given mode and type. *)
Lemma add_params_ports m t pst pst' :
  add_params true m t pst = Ok pst' ->
  exists addrs,
    ports_list pst' = ports_list pst ++ addrs /\
    deref pst' addrs
    = map (fun n => Some (mkParameter n m t None None)) (param_items pst) /\
    param_items pst' = [] /\
    objects pst' = objects pst.
Proof.
  unfold add_params. rewrite alloc_params_spec.
  set (new := map _ (param_items pst)).
  set (addrs := seq _ _). set (ls := list_extend _ _ _).
  destruct (last_addr (list_get (ports pst) ls)) as [a|] eqn:E;
    simpl; [|discriminate].
  intros H; inversion H; subst pst'; clear H.
  exists addrs. unfold ports_list, deref. simpl.
  destruct (Nat.lt_ge_cases (ports pst) (List.length (lists pst))) as [Hv|Hv].
  - repeat split.
    + subst ls. unfold list_get, list_extend.
      now rewrite update_nth_same.
    + subst addrs new. rewrite <- (length_map
        (fun n => mkParameter n m t None None) (param_items pst)).
      rewrite nth_error_new. now rewrite map_map.
  - exfalso. subst ls. unfold list_extend in E.
    rewrite update_nth_beyond in E by assumption.
    unfold list_get in E. rewrite nth_overflow in E by assumption.
    discriminate.
Qed.

Lemma deref_new pst addrs (f : item -> VhdlParameter) names :
  deref pst addrs = map (fun n => Some (f n)) names ->
  forall a, In a addrs ->
  exists n, nth_error (heap pst) a = Some (f n).
Proof.
  unfold deref. revert names.
  induction addrs as [|x addrs IH]; intros names H a Hin; [contradiction|].
  destruct names as [|n names]; [discriminate|]. simpl in H.
  inversion H as [[Hx Hrest]]. destruct Hin as [<-|Hin]; eauto.
Qed.

Lemma add_params_no_names b m t m' t' pst :
  param_items pst = [] ->
  add_params b m t pst = add_params b m' t' pst.
Proof. unfold add_params. now intros ->. Qed.

(** [text[a:b]] is the middle of a text cut in three at [a] and [b]. *)
Lemma substring_middle (p m r : string) :
  substring (String.length p) (String.length m)
    (String.append p (String.append m r)) = m.
Proof.
  induction p as [|c p IH]; simpl.
  - induction m as [|c m IH]; simpl.
    + now destruct r.
    + now rewrite IH.
  - exact IH.
Qed.

Lemma slice_middle (p m r : string) (a b : nat) :
  a = String.length p -> b = a + String.length m ->
  slice (String.append p (String.append m r)) a b = m.
Proof.
  intros -> ->. unfold slice.
  replace (String.length p + String.length m - String.length p)
    with (String.length m) by lia.
  apply substring_middle.
Qed.

End StoreFacts.

Module C5Facts.
Import ReFacts MiniLexer LexFacts ParseFacts RangeFacts StoreFacts.

(** The rule of [port_param_type] that emits [port_array_param_type]. *)
Lemma port_array_rule r :
  In r (vhdl_tokens port_param_type) ->
  r_action r = Some a_port_array_param_type ->
  r_next r = Push array_range /\ last_lit (r_pat r) = Some "(".
Proof.
  simpl. intros H Ha.
  repeat (destruct H as [<-|H]; [try discriminate Ha; now split|]).
  contradiction.
Qed.

(** The token [array_range_end] at offset [close], after the range was
    opened at offset [open]. *)
Lemma interp_array_range_end text open close m t pst arange :
  slice text open (close + 1) = arange ->
  interp text (range_opened open m (Some t) pst)
    (Event close (close + 1 - 1) a_array_range_end [])
  = add_params true m (Some (String.append t arange))
      (range_opened open m (Some t) pst).
Proof.
  intros Hs. unfold interp. cbn [ev_action ev_start]. 
  change (array_range_start_pos (range_opened open m (Some t) pst))
    with open.
  rewrite Hs.
  change (param_items (range_opened open m (Some t) pst))
    with (param_items pst).
  destruct (param_items pst) eqn:Ei.
  - apply add_params_no_names. exact Ei.
  - reflexivity.
Qed.

End C5Facts.

(* ------------------------------------------------------------------ *)
(** ** The array-type registry *)

Module RegistryFacts.

Lemma name_eqb_eq a b : name_eqb a b = true <-> a = b.
Proof.
  destruct a as [x|], b as [y|]; simpl; split; intros H;
    try discriminate; try reflexivity.
  - apply String.eqb_eq in H. now subst.
  - inversion H. apply String.eqb_refl.
Qed.

Lemma sdict_get_in k v (d : sdict) :
  sdict_get k d = Some v -> In (k, v) d.
Proof.
  induction d as [|[k' v'] d IH]; simpl; [discriminate|].
  destruct (name_eqb k k') eqn:E.
  - apply name_eqb_eq in E. subst. intros H; inversion H. now left.
  - intros H. right. now apply IH.
Qed.

Lemma lower_ascii_idem c : lower_ascii (lower_ascii c) = lower_ascii c.
Proof.
  destruct c as [[] [] [] [] [] [] [] []]; reflexivity.
Qed.

Lemma lower_idem s : lower (lower s) = lower s.
Proof.
  induction s as [|c s IH]; simpl; [reflexivity|].
  now rewrite lower_ascii_idem, IH.
Qed.

(** The test sees the query through [lower] only: two spellings of a name
    that differ in case get the same answer. *)
Lemma is_array_casing reg s s' :
  lower s = lower s' -> is_array reg s = is_array reg s'.
Proof. unfold is_array. now intros ->. Qed.

(** The answer is yes exactly when the lower-case spelling is in the
    registry. *)
Lemma is_array_iff reg s :
  is_array reg s = true <-> In (PyStr (lower s)) reg.
Proof.
  unfold is_array. rewrite existsb_exists. split.
  - intros (x & Hin & Hx). destruct x; simpl in Hx; try discriminate.
    apply String.eqb_eq in Hx. now subst.
  - intros H. exists (PyStr (lower s)). split; [assumption|].
    simpl. apply String.eqb_refl.
Qed.

Lemma is_name_iff n x : is_name n x = true <-> x = lit_of_name n.
Proof.
  destruct n as [s|]; destruct x; simpl; split; intros H;
    try discriminate; try reflexivity.
  - apply String.eqb_eq in H. now subst.
  - inversion H. apply String.eqb_refl.
Qed.

Section Subtypes.
Variable P : Type.
Variable d : sdict.

Lemma follow_more : forall fuel v r,
  follow d fuel v = Some r -> follow d (S fuel) v = Some r.
Proof.
  induction fuel as [|fuel IH]; intros v r; simpl.
  - destruct (sdict_get v d); [discriminate | auto].
  - destruct (sdict_get v d) as [v'|] eqn:E; [|auto].
    intros H. apply IH in H. simpl in H. exact H.
Qed.

(** More rounds allowed do not change a call that returns. *)
Lemma register_subtypes_more fuel : forall todo reg reg',
  register_subtypes d fuel todo reg = Returns reg' ->
  register_subtypes d (S fuel) todo reg = Returns reg'.
Proof.
  induction todo as [|[k v] todo IH]; intros reg reg' H;
    cbn [register_subtypes] in *; [assumption|].
  destruct (follow d fuel v) as [r|] eqn:E; [|discriminate].
  rewrite (follow_more _ _ E). now apply IH.
Qed.

(** The registry only grows, and a subtype whose chain ends in the
    registry is added. *)
Lemma register_subtypes_grows fuel : forall todo reg reg' x,
  register_subtypes d fuel todo reg = Returns reg' ->
  In x reg -> In x reg'.
Proof.
  induction todo as [|[k v] todo IH]; intros reg reg' x; simpl.
  - intros H; inversion H; auto.
  - destruct (follow d fuel v) as [r|]; [|discriminate].
    intros H Hin. eapply IH; [exact H|].
    destruct (existsb (is_name r) reg); [apply in_or_app; now left | auto].
Qed.

Lemma register_subtypes_adds fuel : forall todo reg reg' k v r,
  register_subtypes d fuel todo reg = Returns reg' ->
  In (k, v) todo ->
  follow d fuel v = Some r ->
  In (lit_of_name r) reg ->
  In (lit_of_name k) reg'.
Proof.
  induction todo as [|[k0 v0] todo IH]; intros reg reg' k v r; simpl;
    [contradiction|].
  destruct (follow d fuel v0) as [r0|] eqn:E0; [|discriminate].
  intros H [Heq|Hin] Hf Hr.
  - inversion Heq; subst k0 v0. rewrite Hf in E0. inversion E0; subst r0.
    assert (Hex : existsb (is_name r) reg = true).
    { apply existsb_exists. exists (lit_of_name r). split; [assumption|].
      now apply is_name_iff. }
    rewrite Hex in H.
    eapply register_subtypes_grows; [exact H|].
    apply in_or_app. right. now left.
  - eapply IH; eauto.
    destruct (existsb (is_name r0) reg); [apply in_or_app; now left | auto].
Qed.

End Subtypes.

(** Transitivity, for a name written in lower case: a subtype [c] of a
    subtype [b] of [a], where [a] is in the registry or an array type of
    the same objects, is an array type after the registration. *)
Lemma chain_lower_case (P : Type) (objs : list (VhdlObject P)) reg reg'
  fuel c b a :
  sdict_get (Some c) (subtypes_of objs) = Some (Some b) ->
  sdict_get (Some b) (subtypes_of objs) = Some (Some a) ->
  sdict_get (Some a) (subtypes_of objs) = None ->
  In (PyStr a) (reg ++ array_type_names objs) ->
  register_array_types (S fuel) objs reg = Returns reg' ->
  lower c = c ->
  is_array reg' c = true /\ (lower b = b -> is_array reg' b = true).
Proof.
  intros Hc Hb Ha Hin Hreg Hl. unfold register_array_types in Hreg. split.
  - apply is_array_iff. rewrite Hl.
    change (PyStr c) with (lit_of_name (Some c)).
    eapply register_subtypes_adds
      with (v := Some b) (r := Some a); [exact Hreg | | | exact Hin].
    + now apply sdict_get_in.
    + simpl. rewrite Hb. destruct fuel; simpl; now rewrite Ha.
  - intros E. apply is_array_iff. rewrite E.
    change (PyStr b) with (lit_of_name (Some b)).
    eapply register_subtypes_adds
      with (v := Some a) (r := Some a); [exact Hreg | | | exact Hin].
    + now apply sdict_get_in.
    + simpl. now rewrite Ha.
Qed.

End RegistryFacts.

(** C6: the chain of base types is followed to its end, so the names [C]
    and [B] do enter the registry with [A]; but they enter it as they are
    written, and [is_array] looks for the lower-case spelling of its
    argument: [is_array("C")] is false. The same holds for the objects
    parsed from the source of the chain. For names written in lower case
    [RegistryFacts.chain_lower_case] gives the answer the claim expects. *)
Theorem C6_chain_in_upper_case_is_missed :
  exists reg,
    register_array_types 2 chain_objects (new_extractor []) = Returns reg /\
    extract_components SkipChar 2 chain_text (new_extractor [])
      = Returns ([], reg) /\
    In (PyStr "C") reg /\ In (PyStr "B") reg /\ In (PyStr "A") reg /\
    is_array reg "C" = false /\ is_array reg "B" = false /\
    is_array reg "c" = false.
Proof.
  eexists. split; [vm_compute; reflexivity|].
  split; [vm_compute; reflexivity|].
  repeat split; simpl; auto 10.
Qed.

Example chain_lower_case_found :
  exists reg,
    extract_components SkipChar 2 chain_text_lower (new_extractor [])
      = Returns ([], reg) /\
    is_array reg "c" = true /\ is_array reg "C" = true /\
    is_array reg "b" = true.
Proof. eexists. split; [vm_compute; reflexivity|]. repeat split. Qed.

(** C7: [is_array] turns its argument to lower case, but the names of the
    registry are stored as written, whether they come from the
    constructor, from a loaded file or from parsed objects: a name with an
    upper-case letter in the registry is found under no spelling, its own
    included. The test is blind to the case of the query only
    ([RegistryFacts.is_array_casing]). *)
Theorem C7_mixed_case_name_is_never_found :
  (exists reg,
     register_array_types 1
       [VhdlType (P := list pelem) (Some "MyArr") a_array_type []]
       (new_extractor []) = Returns reg /\
     In (PyStr "MyArr") reg /\
     is_array reg "MyArr" = false /\ is_array reg "myarr" = false /\
     is_array reg "MYARR" = false)
  /\ (exists reg,
        load_array_types literal_eval_sample "{'arrays': ['My_Vec']}"
          (new_extractor []) = Ok reg /\
        add_array_types (PyDict [(PyStr "arrays", PyList [PyStr "My_Vec"])])
          (new_extractor []) = Ok reg /\
        In (PyStr "My_Vec") reg /\
        is_array reg "My_Vec" = false /\ is_array reg "my_vec" = false)
  /\ (In (PyStr "Word") (new_extractor [PyStr "Word"]) /\
      is_array (new_extractor [PyStr "Word"]) "Word" = false /\
      is_array (new_extractor [PyStr "Word"]) "word" = false).
Proof.
  split; [|split].
  - eexists. split; [vm_compute; reflexivity|]. repeat split; simpl; auto 10.
  - eexists. split; [vm_compute; reflexivity|].
    split; [vm_compute; reflexivity|]. repeat split; simpl; auto 10.
  - repeat split; simpl; auto 10.
Qed.

(** C9, as the claim states it, fails: a content that is an expression
    but no literal makes [ast.literal_eval] raise [ValueError], which
    [except SyntaxError] lets through; a literal that is no mapping makes
    [add_array_types] raise [TypeError]. *)
Lemma C9_other_errors_propagate :
  load_array_types literal_eval_sample "foo" (new_extractor [])
    = Raise ValueError
  /\ load_array_types literal_eval_sample "5" (new_extractor [])
    = Raise TypeError.
Proof. split; reflexivity. Qed.

(** C9, amended. (1) When [ast.literal_eval] raises [SyntaxError] on the
    content, the load goes on with the empty mapping: nothing is raised to
    the caller and the registry is as it was. (2) Any other exception of
    [ast.literal_eval] reaches the caller. (3) A literal that is no
    mapping never changes the registry: the load returns, the registry as
    it was, for a string, a list or a tuple in which ['arrays'] does not
    occur, and raises [TypeError] for one in which it occurs and for
    [None], a boolean or a number. *)
Theorem C9_what_the_loader_absorbs
  (literal_eval : string -> res pylit) (content : string) (reg : registry) :
  (literal_eval content = Raise SyntaxError ->
   add_array_types (PyDict []) reg = Ok reg /\
   load_array_types literal_eval content reg = Ok reg)
  /\
  (forall e, literal_eval content = Raise e -> e <> SyntaxError ->
     load_array_types literal_eval content reg = Raise e)
  /\
  (forall v, literal_eval content = Ok v -> is_mapping v = false ->
     load_array_types literal_eval content reg
     = match v with
       | PyStr s =>
           if str_contains "arrays" s then Raise TypeError else Ok reg
       | PyList l | PyTuple l =>
           if existsb (is_str "arrays") l then Raise TypeError else Ok reg
       | _ => Raise TypeError
       end).
Proof.
  unfold load_array_types. split; [|split].
  - intros H. split; [reflexivity|]. now rewrite H.
  - intros e H Hne. rewrite H. destruct e; try reflexivity.
    now elim Hne.
  - intros v H Hm. rewrite H. unfold add_array_types.
    destruct v as [| b | z | s | l | l | kv]; try discriminate Hm;
      try reflexivity; cbn [has_arrays bind];
      match goal with
      | |- context [if ?b then _ else _] => destruct b; reflexivity
      end.
Qed.

Lemma C9_witness :
  (add_array_types (PyDict []) (new_extractor []) = Ok (new_extractor []) /\
   load_array_types literal_eval_sample "{'arrays': [" (new_extractor [])
   = Ok (new_extractor []))
  /\ load_array_types literal_eval_sample "foo" (new_extractor [])
     = Raise ValueError
  /\ load_array_types (fun _ => Ok (PyList [PyStr "x"])) "['x']"
       (new_extractor [])
     = Ok (new_extractor [])
  /\ load_array_types (fun _ => Ok (PyStr "my arrays")) "'my arrays'"
       (new_extractor [])
     = Raise TypeError.
Proof.
  split; [|split; [|split]].
  - apply (proj1 (@C9_what_the_loader_absorbs literal_eval_sample
                    "{'arrays': [" (new_extractor []))).
    reflexivity.
  - apply (proj1 (proj2 (@C9_what_the_loader_absorbs literal_eval_sample
                           "foo" (new_extractor []))));
      [reflexivity | discriminate].
  - apply (proj2 (proj2 (@C9_what_the_loader_absorbs
                           (fun _ => Ok (PyList [PyStr "x"])) "['x']"
                           (new_extractor []))) (PyList [PyStr "x"]));
      reflexivity.
  - apply (proj2 (proj2 (@C9_what_the_loader_absorbs
                           (fun _ => Ok (PyStr "my arrays")) "'my arrays'"
                           (new_extractor []))) (PyStr "my arrays"));
      reflexivity.
Defined.

(* ------------------------------------------------------------------ *)
(** ** Termination of the registration *)

Module ChainFacts.
Import RegistryFacts.

Section Chain.
Variable d : sdict.

Lemma reaches_snoc k v w :
  reaches d k v -> sdict_get v d = Some w -> reaches d k w.
Proof.
  induction 1 as [k v H|k v u H _ IH]; intros Hw.
  - eapply reach_more; [exact H|]. now apply reach_one.
  - eapply reach_more; [exact H|]. now apply IH.
Qed.

Lemma sdict_get_key k v : sdict_get k d = Some v -> In k (map fst d).
Proof.
  intros H. apply sdict_get_in in H. now apply (in_map fst) in H.
Qed.

(** With no cycle, the keys already visited are all different, so the loop
    leaves before it has made more rounds than there are keys. *)
Lemma follow_acyclic : acyclic d -> forall fuel seen v,
  NoDup seen ->
  (forall x, In x seen -> In x (map fst d) /\ reaches d x v) ->
  List.length (map fst d) <= List.length seen + fuel ->
  follow d fuel v <> None.
Proof.
  intros Hac. induction fuel as [|fuel IH]; intros seen v Hnd Hseen Hlen;
    simpl; destruct (sdict_get v d) as [v'|] eqn:E; try discriminate.
  - exfalso.
    assert (Hnew : ~ In v seen).
    { intros Hin. apply (Hac v). now apply Hseen. }
    assert (Hnd' : NoDup (v :: seen)) by now constructor.
    assert (Hincl : incl (v :: seen) (map fst d)).
    { intros x [<-|Hx]; [eapply sdict_get_key; eauto | now apply Hseen]. }
    pose proof (NoDup_incl_length Hnd' Hincl) as Hle. simpl in Hle. lia.
  - assert (Hnew : ~ In v seen).
    { intros Hin. apply (Hac v). now apply Hseen. }
    apply (IH (v :: seen)).
    + now constructor.
    + intros x [<-|Hx].
      * split; [eapply sdict_get_key; eauto | now apply reach_one].
      * destruct (Hseen x Hx) as [Hk Hr]. split; [assumption|].
        eapply reaches_snoc; eauto.
    + simpl. lia.
Qed.

Lemma follow_terminates : acyclic d -> forall v,
  exists r, follow d (List.length d) v = Some r.
Proof.
  intros Hac v.
  destruct (follow d (List.length d) v) as [r|] eqn:E; [eauto|].
  exfalso. revert E. apply (follow_acyclic Hac) with (seen := []).
  - constructor.
  - intros x [].
  - rewrite length_map. simpl. lia.
Qed.

Lemma register_subtypes_terminates : acyclic d -> forall todo reg,
  exists reg', register_subtypes d (List.length d) todo reg = Returns reg'.
Proof.
  intros Hac. induction todo as [|[k v] todo IH]; intros reg; simpl.
  - eauto.
  - destruct (follow_terminates Hac v) as (r & ->). apply IH.
Qed.

End Chain.

Lemma follow_cycle : forall fuel,
  follow cycle_dict fuel (Some "a") = None /\
  follow cycle_dict fuel (Some "b") = None.
Proof.
  induction fuel as [|fuel [IHa IHb]]; split; simpl; auto.
Qed.

Lemma cycle_reaches : reaches cycle_dict (Some "a") (Some "a").
Proof.
  eapply reach_more with (v := Some "b"); [reflexivity|].
  now apply reach_one.
Qed.

End ChainFacts.

(** C10: when no subtype is, through its base types, a subtype of itself,
    every [while] loop of [register_array_types] leaves within as many
    rounds as there are subtypes and the call returns a registry. For
    [subtype a is b] with [subtype b is a] the condition of the loop holds
    after any number of rounds: the call never returns, and neither does
    [extract_components] on a source with these two declarations. *)
Theorem C10_registration_ends_without_cycle :
  (forall (objs : list (VhdlObject (list pelem))) (reg : registry),
     acyclic (subtypes_of objs) ->
     exists reg',
       register_array_types (List.length (subtypes_of objs)) objs reg
       = Returns reg')
  /\ ~ acyclic (subtypes_of cycle_objects)
  /\ (forall fuel reg,
        register_array_types fuel cycle_objects reg = Timeout)
  /\ (forall policy fuel reg,
        extract_components policy fuel cycle_text reg = Timeout).
Proof.
  split; [|split; [|split]].
  - intros objs reg Hac. unfold register_array_types.
    now apply ChainFacts.register_subtypes_terminates.
  - intros Hac. exact (Hac _ ChainFacts.cycle_reaches).
  - intros fuel reg. unfold register_array_types.
    change (subtypes_of cycle_objects) with cycle_dict.
    cbn [register_subtypes cycle_dict].
    now rewrite (proj2 (ChainFacts.follow_cycle fuel)).
  - intros policy fuel reg. unfold extract_components.
    assert (Hp : parse_vhdl policy cycle_text
                 = Returns (VhdlPackage (Some "p") :: cycle_objects))
      by (destruct policy; vm_compute; reflexivity).
    rewrite Hp. unfold register_array_types.
    change (subtypes_of (VhdlPackage (Some "p") :: cycle_objects))
      with cycle_dict.
    cbn [register_subtypes cycle_dict].
    now rewrite (proj2 (ChainFacts.follow_cycle fuel)).
Qed.

Lemma chain_objects_acyclic : acyclic (subtypes_of chain_objects).
Proof.
  assert (H : forall k w, reaches (subtypes_of chain_objects) k w ->
                (k = Some "B" /\ w = Some "A") \/
                (k = Some "C" /\ (w = Some "B" \/ w = Some "A"))).
  { induction 1 as [k v H|k v w H _ IH];
      change (subtypes_of chain_objects)
        with [(Some "B", Some "A"); (Some "C", Some "B")] in H;
      simpl in H;
      destruct (name_eqb k (Some "B")) eqn:EB;
      try (apply RegistryFacts.name_eqb_eq in EB; subst k);
      try (destruct (name_eqb k (Some "C")) eqn:EC;
           [apply RegistryFacts.name_eqb_eq in EC; subst k|discriminate]);
      inversion H; subst; auto.
    - destruct IH as [[E _]|[E _]]; discriminate.
    - destruct IH as [[_ ->]|[E _]]; [auto | discriminate]. }
  intros k Hk. apply H in Hk.
  destruct Hk as [[-> E]|[-> [E|E]]]; discriminate.
Qed.

Lemma C10_witness :
  exists reg',
    register_array_types (List.length (subtypes_of chain_objects))
      chain_objects (new_extractor []) = Returns reg'.
Proof.
  apply (proj1 C10_registration_ends_without_cycle chain_objects
           (new_extractor [])).
  exact chain_objects_acyclic.
Defined.

(* ------------------------------------------------------------------ *)
(** ** The interpreter, tag by tag *)

Module InterpFacts.

(** Splits a successful step of the interpreter into its cases. *)
Ltac interp_inv H e :=
  unfold interp in H; destruct (ev_action e) eqn:Ea;
  unfold add_params, emitted, bind, bound, str_add, last_addr in H;
  repeat match goal with
         | Hx : context [match ?x with _ => _ end] |- _ =>
             destruct x eqn:?; try discriminate Hx
         | Hx : context [let (_, _) := ?x in _] |- _ => destruct x eqn:?
         end;
  try discriminate H;
  repeat match goal with
         | Hx : Ok _ = Ok _ |- _ => inversion Hx; subst; clear Hx
         end.

Lemma group_ok i g v : group i g = Ok v -> nth_error g i = Some v.
Proof.
  unfold group. destruct (nth_error g i); intros H; inversion H; auto.
Qed.

Lemma interp_all_app text : forall evs1 evs2 s,
  interp_all text s (evs1 ++ evs2)
  = bind (interp_all text s evs1) (fun s' => interp_all text s' evs2).
Proof.
  induction evs1 as [|e evs1 IH]; intros evs2 s; simpl; [reflexivity|].
  destruct (interp text s e); simpl; [apply IH | reflexivity].
Qed.

(** What a token does to the sections and to the count of port names. *)
Lemma interp_sections text s e s' :
  interp text s e = Ok s' ->
  match ev_action e with
  | a_component => sections s' = [] /\ port_param_index s' = 0
  | a_port_param =>
      sections s' = sections s /\
      port_param_index s' = S (port_param_index s)
  | a_section_meta =>
      exists label,
        nth_error (ev_groups e) 0 = Some label /\
        sections s' = sections s ++ [(port_param_index s, label)] /\
        port_param_index s' = port_param_index s
  | _ => sections s' = sections s /\ port_param_index s' = port_param_index s
  end.
Proof.
  intros H. interp_inv H e;
    try (eexists; split; [apply group_ok; eassumption|]); simpl; auto.
Qed.

(** What a token does to [objects]: nothing, or one more object; a
    component comes from [end_component], with the sections read so far. *)
Lemma interp_objects text s e s' :
  interp text s e = Ok s' ->
  objects s' = objects s \/
  exists o, objects s' = objects s ++ [o] /\
    forall n ps gs secs d, o = VhdlComponent n ps gs secs d ->
      ev_action e = a_end_component /\ secs = dict (sections s).
Proof.
  intros H. interp_inv H e; simpl; auto;
    right; eexists; (split; [reflexivity|]);
    intros n ps gs secs d Ho; inversion Ho; auto.
Qed.

End InterpFacts.

(* ------------------------------------------------------------------ *)
(** ** Sections *)

Module SectionFacts.
Import InterpFacts.

Lemma after_last_snoc evs e :
  after_last_component (evs ++ [e])
  = if is_component e then [] else after_last_component evs ++ [e].
Proof. unfold after_last_component. now rewrite fold_left_app. Qed.

Lemma declared_snoc evs e :
  declared_ports (evs ++ [e])
  = if is_component e then 0
    else if is_port_param e then S (declared_ports evs)
    else declared_ports evs.
Proof.
  unfold declared_ports. rewrite after_last_snoc.
  destruct (is_component e); [reflexivity|].
  rewrite filter_app, length_app. simpl.
  destruct (is_port_param e); simpl; lia.
Qed.



Lemma marker_seen_snoc evs e k label :
  marker_seen evs k label -> is_component e = false ->
  marker_seen (evs ++ [e]) k label.
Proof.
  intros (evs1 & m & evs2 & -> & Ha & Hg & -> & Hn) He.
  exists evs1, m, (evs2 ++ [e]). repeat split; auto.
  - now rewrite <- app_assoc.
  - rewrite forallb_app, Hn. simpl. now rewrite He.
Qed.

Lemma dict_get_set {V} k k' (v : V) d :
  dict_get k (dict_set k' v d)
  = if k =? k' then Some v else dict_get k d.
Proof.
  induction d as [|[k0 v0] d IH]; simpl.
  - reflexivity.
  - destruct (k' =? k0) eqn:E0; simpl.
    + apply Nat.eqb_eq in E0; subst k0.
      destruct (k =? k'); reflexivity.
    + rewrite IH. destruct (k =? k0) eqn:E1; [|reflexivity].
      apply Nat.eqb_eq in E1; subst k0.
      destruct (k =? k') eqn:E2; [|reflexivity].
      apply Nat.eqb_eq in E2; subst k'. rewrite Nat.eqb_refl in E0.
      discriminate.
Qed.

(** An entry of [dict(pairs)] is one of the pairs. *)
Lemma dict_get_in {V} k (v : V) : forall pairs d0,
  dict_get k (fold_left (fun d kv => dict_set (fst kv) (snd kv) d) pairs d0)
  = Some v ->
  In (k, v) pairs \/ dict_get k d0 = Some v.
Proof.
  induction pairs as [|[k1 v1] pairs IH]; intros d0 H; simpl in *; auto.
  apply IH in H. destruct H as [H|H]; [auto|].
  rewrite dict_get_set in H. destruct (k =? k1) eqn:E; [|auto].
  apply Nat.eqb_eq in E; subst. inversion H. auto.
Qed.

Lemma sections_sound_step text evs s e s' :
  sections_sound evs s -> interp text s e = Ok s' ->
  sections_sound (evs ++ [e]) s'.
Proof.
  intros (Hi & Hs & Ho) H.
  pose proof (interp_sections _ _ _ H) as Hsec.
  pose proof (interp_objects _ _ _ H) as Hobj.
  assert (Hold : forall n ps gs secs d,
             In (VhdlComponent n ps gs secs d) (objects s) ->
             exists evs_a e_end evs_b,
               evs ++ [e] = evs_a ++ e_end :: evs_b /\
               ev_action e_end = a_end_component /\
               forall k l, dict_get k secs = Some l -> marker_seen evs_a k l).
  { intros n ps gs secs d Hin.
    destruct (Ho _ _ _ _ _ Hin) as (ea & ee & eb & -> & Hee & Hk).
    exists ea, ee, (eb ++ [e]). split; [|auto].
    now rewrite <- app_assoc. }
  assert (Hobjs : forall n ps gs secs d,
             In (VhdlComponent n ps gs secs d) (objects s') ->
             exists evs_a e_end evs_b,
               evs ++ [e] = evs_a ++ e_end :: evs_b /\
               ev_action e_end = a_end_component /\
               forall k l, dict_get k secs = Some l -> marker_seen evs_a k l).
  { intros n ps gs secs d Hin.
    destruct Hobj as [Heq|(o & Heq & Hc)]; rewrite Heq in Hin; [eauto|].
    apply in_app_or in Hin. destruct Hin as [Hin|[Heq'|[]]]; [eauto|].
    destruct (Hc _ _ _ _ _ Heq') as [Hend ->].
    exists evs, e, []. repeat split; auto.
    intros k l Hd. unfold dict in Hd. apply dict_get_in in Hd.
    destruct Hd as [Hd|Hd]; [auto | discriminate]. }
  unfold sections_sound. rewrite declared_snoc.
  unfold is_component, is_port_param.
  destruct (ev_action e) eqn:Ea;
    try (destruct Hsec as [Hs' Hi']; rewrite Hs', Hi';
         repeat split; auto;
         intros k l Hin; apply marker_seen_snoc; auto;
         unfold is_component; now rewrite Ea).
  - (* component *) destruct Hsec as [Hs' Hi'].
    split; [exact Hi'|]. split; [|exact Hobjs].
    rewrite Hs'. intros k l [].
  - (* section_meta *)
    destruct Hsec as (label & Hg & Hs' & Hi').
    split; [now rewrite Hi'|]. split; [|exact Hobjs].
    rewrite Hs'.
    intros k l Hin. apply in_app_or in Hin. destruct Hin as [Hin|[Heq|[]]].
    + apply marker_seen_snoc; auto. unfold is_component. now rewrite Ea.
    + inversion Heq; subst k l.
      exists evs, e, []. repeat split; auto.
Qed.

Lemma sections_sound_all text : forall evs s,
  interp_all text init_state evs = Ok s -> sections_sound evs s.
Proof.
  induction evs as [|e evs IH] using rev_ind; intros s H.
  - inversion H; subst. repeat split; simpl; auto; try contradiction.
  - rewrite interp_all_app in H.
    destruct (interp_all text init_state evs) as [s0|] eqn:E0;
      [|discriminate].
    simpl in H. destruct (interp text s0 e) as [s1|] eqn:E1; [|discriminate].
    inversion H; subst. eapply sections_sound_step; eauto.
Qed.

End SectionFacts.




(* ------------------------------------------------------------------ *)
(** ** Metacomments *)

Module CommentFacts.
Import InterpFacts StoreFacts.

Lemma interp_metacomment_buffered text s e g0 :
  ev_action e = a_metacomment -> last_item s = None ->
  group 0 (ev_groups e) = Ok g0 ->
  interp text s e = Ok (set_metacomments (metacomments s ++ [g0]) s).
Proof. intros Ha Hl Hg. unfold interp. now rewrite Ha, Hg, Hl. Qed.

Lemma interp_metacomment_target text s e a g0 :
  ev_action e = a_metacomment -> last_item s = Some a ->
  group 0 (ev_groups e) = Ok g0 ->
  interp text s e = Ok (set_heap (update_nth a (with_desc g0) (heap s)) s).
Proof. intros Ha Hl Hg. unfold interp. now rewrite Ha, Hg, Hl. Qed.

(** A token that creates no object leaves [objects] as it is and the
    buffer of metacomments with at least what it held. *)
Lemma interp_keeps_buffer text s e s' :
  creates (ev_action e) = false -> interp text s e = Ok s' ->
  objects s' = objects s /\
  exists more, metacomments s' = metacomments s ++ more.
Proof.
  intros Hc H. interp_inv H e; try discriminate Hc; simpl; split; auto;
    try (exists []; now rewrite app_nil_r); eauto.
Qed.

Lemma interp_all_keeps_buffer text : forall evs s s',
  (forall x, In x evs -> creates (ev_action x) = false) ->
  interp_all text s evs = Ok s' ->
  objects s' = objects s /\
  exists more, metacomments s' = metacomments s ++ more.
Proof.
  induction evs as [|e evs IH]; intros s s' Hall H; simpl in H.
  - inversion H; subst. split; [reflexivity|].
    exists []. now rewrite app_nil_r.
  - destruct (interp text s e) as [s1|] eqn:E; [|discriminate]. simpl in H.
    destruct (interp_keeps_buffer _ _ _ (Hall e (or_introl eq_refl)) E)
      as (Ho1 & m1 & Hm1).
    destruct (IH _ _ (fun x Hx => Hall x (or_intror Hx)) H)
      as (Ho2 & m2 & Hm2).
    split; [congruence|]. exists (m1 ++ m2).
    now rewrite Hm2, Hm1, app_assoc.
Qed.

(** A token that creates an object: a package has no description and
    leaves the buffer; any other object takes the buffer as its
    description and leaves it empty. *)
Lemma interp_creates text s e s' :
  creates (ev_action e) = true -> interp text s e = Ok s' ->
  exists o, objects s' = objects s ++ [o] /\
    match ev_action e with
    | a_package => description o = None /\ metacomments s' = metacomments s
    | _ => description o = Some (metacomments s) /\ metacomments s' = []
    end.
Proof.
  intros Hc H. interp_inv H e; try discriminate Hc; simpl;
    eexists; split; try reflexivity; simpl; auto.
Qed.

(** Only four tags assign [last_item]. *)
Lemma interp_keeps_target text s e s' :
  retargets (ev_action e) = false -> interp text s e = Ok s' ->
  last_item s' = last_item s.
Proof.
  intros Hc H. interp_inv H e; try discriminate Hc; simpl; congruence.
Qed.

Lemma interp_all_keeps_target text : forall evs s s',
  (forall x, In x evs -> retargets (ev_action x) = false) ->
  interp_all text s evs = Ok s' ->
  last_item s' = last_item s.
Proof.
  induction evs as [|e evs IH]; intros s s' Hall H; simpl in H.
  - now inversion H.
  - destruct (interp text s e) as [s1|] eqn:E; [|discriminate]. simpl in H.
    rewrite (IH _ _ (fun x Hx => Hall x (or_intror Hx)) H).
    eapply interp_keeps_target; eauto. apply Hall. now left.
Qed.

Lemma set_attrs_length f : forall items h h',
  set_attrs f items h = Ok h' -> List.length h' = List.length h.
Proof.
  induction items as [|[x|a] items IH]; intros h h' H; simpl in H.
  - now inversion H.
  - discriminate.
  - apply IH in H. now rewrite H, update_nth_length.
Qed.

Lemma alloc_params_length names m t h :
  List.length (fst (alloc_params names m t h))
  = List.length h + List.length names.
Proof.
  rewrite alloc_params_spec. simpl. now rewrite length_app, length_map.
Qed.

(** The store of parameters never shrinks. *)
Lemma interp_heap_grows text s e s' :
  interp text s e = Ok s' -> List.length (heap s) <= List.length (heap s').
Proof.
  intros H. interp_inv H e; simpl; auto;
    repeat match goal with
           | Hx : set_attrs _ _ _ = Ok _ |- _ =>
               apply set_attrs_length in Hx; rewrite Hx
           | Hx : alloc_params ?n ?m ?t ?h = (_, _) |- _ =>
               let L := fresh in
               pose proof (alloc_params_length n m t h) as L;
               rewrite Hx in L; simpl in L; clear Hx
           end;
    rewrite ?update_nth_length, ?length_app; simpl; try lia.
Qed.

Lemma interp_all_heap_grows text : forall evs s s',
  interp_all text s evs = Ok s' ->
  List.length (heap s) <= List.length (heap s').
Proof.
  induction evs as [|e evs IH]; intros s s' H; simpl in H.
  - inversion H; subst; lia.
  - destruct (interp text s e) as [s1|] eqn:E; [|discriminate]. simpl in H.
    apply interp_heap_grows in E. apply IH in H. lia.
Qed.

End CommentFacts.

Module TargetFacts.
Import InterpFacts StoreFacts CommentFacts.

Lemma nth_error_update {A} (f : A -> A) : forall a h p,
  nth_error h a = Some p -> nth_error (update_nth a f h) a = Some (f p).
Proof.
  induction a as [|a IH]; destruct h as [|x h]; simpl; intros p H;
    try discriminate.
  - now inversion H.
  - now apply IH.
Qed.

(** How a token changes the store of lists: not at all, by two new empty
    lists, or by new parameters at the end of one list. *)
Lemma interp_lists text s e s' :
  interp text s e = Ok s' ->
  lists s' = lists s \/
  lists s' = lists s ++ [[]; []] \/
  exists id n,
    lists s' = list_extend id (seq (List.length (heap s)) n) (lists s) /\
    List.length (heap s') = List.length (heap s) + n.
Proof.
  intros H. interp_inv H e; simpl; auto; right; right;
    try match goal with
        | Hx : alloc_params ?n ?m ?t ?h = (_, _) |- _ =>
            rewrite alloc_params_spec in Hx; inversion Hx; subst; clear Hx
        end;
    first [ eexists _, _; split;
            [reflexivity | now rewrite length_app, length_map]
          | eexists _, 0; split;
            [reflexivity | rewrite length_app; simpl; lia]
          | eexists _, (S _); split;
            [reflexivity
            | rewrite length_app; simpl; rewrite length_map; lia] ].
Qed.

Lemma interp_lists_valid text s e s' :
  lists_valid s -> interp text s e = Ok s' -> lists_valid s'.
Proof.
  intros Hv H id a Hin.
  pose proof (interp_heap_grows _ _ _ H) as Hg.
  destruct (interp_lists _ _ _ H) as [Hl|[Hl|(id0 & n & Hl & Hh)]];
    rewrite Hl in Hin.
  - specialize (Hv _ _ Hin). lia.
  - destruct (Nat.lt_ge_cases id (List.length (lists s))) as [Hlt|Hge].
    + rewrite app_nth1 in Hin by assumption. specialize (Hv _ _ Hin). lia.
    + rewrite app_nth2 in Hin by assumption.
      destruct (id - List.length (lists s)) as [|[|[|k]]]; simpl in Hin;
        contradiction.
  - unfold list_extend in Hin.
    destruct (Nat.eq_dec id0 id) as [->|Hne].
    + destruct (Nat.lt_ge_cases id (List.length (lists s))) as [Hlt|Hge].
      * rewrite update_nth_same in Hin by assumption.
        apply in_app_or in Hin. destruct Hin as [Hin|Hin].
        -- specialize (Hv _ _ Hin). lia.
        -- apply in_seq in Hin. lia.
      * rewrite update_nth_beyond in Hin by assumption.
        specialize (Hv _ _ Hin). lia.
    + rewrite update_nth_other in Hin by assumption.
      specialize (Hv _ _ Hin). lia.
Qed.

Lemma lists_valid_all text : forall evs s,
  interp_all text init_state evs = Ok s -> lists_valid s.
Proof.
  induction evs as [|e evs IH] using rev_ind; intros s H.
  - inversion H; subst. intros [|[|id]] a Hin; simpl in Hin;
      try contradiction. destruct id; contradiction.
  - rewrite interp_all_app in H.
    destruct (interp_all text init_state evs) as [s0|] eqn:E0;
      [|discriminate].
    simpl in H. destruct (interp text s0 e) as [s1|] eqn:E1; [|discriminate].
    inversion H; subst. eapply interp_lists_valid; eauto.
Qed.

(** After the type of a generic or of a port, the target of metacomments
    is the last parameter of the list of generics, or of ports. *)
Lemma interp_sets_target text s e s' :
  interp text s e = Ok s' ->
  match ev_action e with
  | a_generic_param_type =>
      generics_list s' <> [] /\
      last_item s' = Some (last (generics_list s') 0)
  | a_port_param_type | a_array_range_end =>
      ports_list s' <> [] /\ last_item s' = Some (last (ports_list s') 0)
  | _ => True
  end.
Proof.
  intros H. interp_inv H e; auto;
    unfold generics_list, ports_list; simpl in *;
    match goal with
    | Hx : list_get ?i ?l = _ :: _ |- _ => rewrite Hx
    end; (split; [discriminate | reflexivity]).
Qed.

End TargetFacts.

(** C4, as the claim states it, fails twice. A metacomment buffered in
    one package is not the description of the next object created when
    this object is a Package: it goes to the function after it. A
    metacomment line after a parameter of a subprogram is read as a plain
    comment: neither the parameter nor the function gets it. *)
Lemma C4_package_and_subprogram_parameter :
  parse_vhdl FailLoudly package_comment_text
    = Returns [VhdlPackage (Some "a"); VhdlPackage (Some "b");
               VhdlFunction (Some "f") [] (Some "x")
                 [Some " about what follows"]]
  /\ parse_vhdl SkipChar package_comment_text
     = parse_vhdl FailLoudly package_comment_text
  /\ description (VhdlPackage (P := list pelem) (Some "b")) = None
  /\ parse_vhdl FailLoudly param_comment_text
     = Returns [VhdlFunction (Some "f")
                  [Param (mkParameter (IStr (Some "a")) None (Some "integer")
                            None None)]
                  (Some "integer") []]
  /\ parse_vhdl SkipChar param_comment_text
     = parse_vhdl FailLoudly param_comment_text.
Proof.
  split; [vm_compute; reflexivity|].
  split; [vm_compute; reflexivity|].
  split; [reflexivity|].
  split; vm_compute; reflexivity.
Qed.

(** C4, amended. (1) A metacomment token that arrives when there is no
    target is buffered, and the next object created takes the buffer as
    its description unless it is a Package: a Package has no description
    and leaves the buffer to the object after it. (2) After the type of a
    generic or of a port, the last parameter of the list of generics (of
    ports) is the target until another such token or [end_component]: a
    metacomment sets its description and touches neither the buffer nor
    the objects. (3) The tokens of a subprogram parameter never set the
    target. *)
Theorem C4_metacomment_attachment :
  (forall text s e g0 s1 evs s2 e2 s3,
     ev_action e = a_metacomment -> last_item s = None ->
     group 0 (ev_groups e) = Ok g0 -> interp text s e = Ok s1 ->
     (forall x, In x evs -> creates (ev_action x) = false) ->
     interp_all text s1 evs = Ok s2 ->
     creates (ev_action e2) = true -> interp text s2 e2 = Ok s3 ->
     exists o, objects s3 = objects s ++ [o] /\
       match ev_action e2 with
       | a_package => description o = None /\ In g0 (metacomments s3)
       | _ => exists d, description o = Some d /\ In g0 d
       end)
  /\
  (forall text evs0 s0 e1 s1 evs s2 e g0,
     interp_all text init_state evs0 = Ok s0 ->
     interp text s0 e1 = Ok s1 ->
     ev_action e1 = a_generic_param_type \/
     ev_action e1 = a_port_param_type \/
     ev_action e1 = a_array_range_end ->
     (forall x, In x evs -> retargets (ev_action x) = false) ->
     interp_all text s1 evs = Ok s2 ->
     ev_action e = a_metacomment -> group 0 (ev_groups e) = Ok g0 ->
     exists a p s3,
       a = last (target_list (ev_action e1) s1) 0 /\
       In a (target_list (ev_action e1) s1) /\
       nth_error (heap s2) a = Some p /\
       interp text s2 e = Ok s3 /\
       nth_error (heap s3) a = Some (with_desc g0 p) /\
       metacomments s3 = metacomments s2 /\ objects s3 = objects s2)
  /\
  (forall text s e s',
     ev_action e = a_param \/ ev_action e = a_param_type \/
     ev_action e = a_param_default ->
     interp text s e = Ok s' -> last_item s' = last_item s).
Proof.
  split; [|split].
  - intros text s e g0 s1 evs s2 e2 s3 Ha Hl Hg H1 Hevs H2 Hc H3.
    rewrite (CommentFacts.interp_metacomment_buffered text s e Ha Hl Hg)
      in H1.
    inversion H1; subst s1; clear H1.
    pose proof H2 as Hb.
    apply CommentFacts.interp_all_keeps_buffer in Hb; [|exact Hevs].
    destruct Hb as (Ho & more & Hm). simpl in Ho, Hm.
    pose proof H3 as Hcr.
    apply CommentFacts.interp_creates in Hcr; [|exact Hc].
    destruct Hcr as (o & Hobj & Hd).
    exists o. split; [congruence|].
    assert (Hin : In g0 (metacomments s2)).
    { rewrite Hm. apply in_or_app. left. apply in_or_app. right. now left. }
    destruct (ev_action e2); try discriminate Hc;
      cbv beta iota in Hd; destruct Hd as [Hd Hk];
      first [ split; [assumption | now rewrite Hk] | eauto ].
  - intros text evs0 s0 e1 s1 evs s2 e g0 H0 H1 Hk Hevs H2 Ha Hg.
    assert (Hv1 : lists_valid s1).
    { eapply TargetFacts.interp_lists_valid; eauto.
      eapply TargetFacts.lists_valid_all; eauto. }
    pose proof H1 as Ht. apply TargetFacts.interp_sets_target in Ht.
    assert (Ht' : target_list (ev_action e1) s1 <> [] /\
                  last_item s1
                  = Some (last (target_list (ev_action e1) s1) 0)).
    { destruct Hk as [Hk|[Hk|Hk]]; rewrite Hk in Ht |- *; exact Ht. }
    clear Ht. destruct Ht' as [Hne Hlast].
    set (a := last (target_list (ev_action e1) s1) 0) in *.
    assert (Hin : In a (target_list (ev_action e1) s1)).
    { unfold a. destruct (exists_last Hne) as (l' & x & ->).
      rewrite last_last. apply in_or_app. right. now left. }
    assert (Ha1 : a < List.length (heap s1)).
    { unfold target_list, generics_list, ports_list, list_get in Hin.
      destruct (ev_action e1); eapply Hv1; exact Hin. }
    pose proof H2 as Hgrow.
    apply CommentFacts.interp_all_heap_grows in Hgrow.
    destruct (nth_error (heap s2) a) as [p|] eqn:Ep.
    2:{ apply nth_error_None in Ep. lia. }
    assert (Hl2 : last_item s2 = Some a).
    { rewrite <- Hlast.
      eapply CommentFacts.interp_all_keeps_target; eauto. }
    exists a, p, (set_heap (update_nth a (with_desc g0) (heap s2)) s2).
    repeat split; auto.
    + now apply CommentFacts.interp_metacomment_target.
    + simpl. now apply TargetFacts.nth_error_update.
  - intros text s e s' Hk H.
    eapply CommentFacts.interp_keeps_target; [|exact H].
    destruct Hk as [Hk|[Hk|Hk]]; now rewrite Hk.
Qed.

Lemma C4_witness :
  exists s3 o,
    objects s3 = objects init_state ++ [o] /\
    exists d, description o = Some d /\ In (Some " adds two numbers") d.
Proof.
  eexists.
  eapply (proj1 C4_metacomment_attachment EmptyString init_state
            (Event 0 20 a_metacomment [Some " adds two numbers"])
            (Some " adds two numbers") _
            [Event 21 30 a_function [Some "add"]] _
            (Event 31 50 a_end_subprogram [Some "integer"]) _).
  - reflexivity.
  - reflexivity.
  - reflexivity.
  - reflexivity.
  - intros x [<-|[]]. reflexivity.
  - reflexivity.
  - reflexivity.
  - reflexivity.
Defined.

(* ------------------------------------------------------------------ *)
(** ** Generics and ports are created once *)

Module KeepFacts.
Import InterpFacts StoreFacts CommentFacts TargetFacts.

Lemma same_but_desc_refl p : same_but_desc p p.
Proof. repeat split. Qed.

Lemma same_but_desc_trans p q r :
  same_but_desc p q -> same_but_desc q r -> same_but_desc p r.
Proof.
  intros (A1 & A2 & A3 & A4) (B1 & B2 & B3 & B4).
  repeat split; congruence.
Qed.

Lemma nth_error_update_other {A} (f : A -> A) : forall a b h,
  a <> b -> nth_error (update_nth a f h) b = nth_error h b.
Proof.
  induction a as [|a IH]; destruct b as [|b]; destruct h as [|x h]; simpl;
    intros Hne; try congruence; auto.
Qed.

(** [set_attrs] touches the objects of its items only. *)
Lemma set_attrs_other f : forall items h h' b,
  set_attrs f items h = Ok h' -> ~ In (IObj b) items ->
  nth_error h' b = nth_error h b.
Proof.
  induction items as [|[x|a] items IH]; intros h h' b H Hn; simpl in H.
  - now inversion H.
  - discriminate.
  - rewrite (IH _ _ _ H) by (intros Hin; apply Hn; now right).
    apply nth_error_update_other. intros ->. apply Hn. now left.
Qed.

(** How a token changes the store of parameters, seen from an address
    [b] that is none of the pending subprogram parameters: the object is
    the same, but for its description. *)
Lemma interp_heap_kept text s e s' b p :
  interp text s e = Ok s' ->
  ~ In (IObj b) (param_items s) ->
  nth_error (heap s) b = Some p ->
  exists p', nth_error (heap s') b = Some p' /\ same_but_desc p p'.
Proof.
  intros H Hn Hp.
  assert (Happ : forall new,
             nth_error (heap s ++ new) b = Some p).
  { intros new. rewrite nth_error_app1; [assumption|].
    apply nth_error_Some. congruence. }
  interp_inv H e; simpl;
    try (exists p; split; [solve [auto] | apply same_but_desc_refl]);
    try match goal with
        | Hx : alloc_params _ _ _ _ = (_, _) |- _ =>
            rewrite alloc_params_spec in Hx; simpl in Hx;
            inversion Hx; subst; clear Hx;
            exists p; split; [solve [auto] | apply same_but_desc_refl]
        | Hx : set_attrs _ _ _ = Ok _ |- _ =>
            exists p; split; [|apply same_but_desc_refl];
            erewrite set_attrs_other; eauto
        end.
  (* metacomment with a target *)
  match goal with
  | |- context [update_nth ?a _ _] =>
      destruct (Nat.eq_dec a b) as [->|Hne]
  end.
  - eexists. split; [apply nth_error_update; eassumption|]. repeat split.
  - exists p. split; [|apply same_but_desc_refl].
    now rewrite nth_error_update_other.
Qed.

End KeepFacts.

Module KeepAll.
Import InterpFacts StoreFacts CommentFacts TargetFacts KeepFacts.

(** The lists of generics and ports only grow. *)
Lemma interp_lists_grow text s e s' id a :
  interp text s e = Ok s' ->
  In a (nth id (lists s) []) -> In a (nth id (lists s') []).
Proof.
  intros H Hin.
  assert (Hid : id < List.length (lists s)).
  { destruct (Nat.lt_ge_cases id (List.length (lists s))) as [Hlt|Hge];
      [assumption|]. rewrite nth_overflow in Hin by assumption.
    contradiction. }
  destruct (interp_lists _ _ _ H) as [Hl|[Hl|(id0 & n & Hl & _)]];
    rewrite Hl.
  - assumption.
  - now rewrite app_nth1.
  - unfold list_extend. destruct (Nat.eq_dec id0 id) as [->|Hne].
    + rewrite update_nth_same by assumption. apply in_or_app. now left.
    + now rewrite update_nth_other.
Qed.

Lemma interp_items_apart text s e s' :
  lists_valid s -> items_apart s -> interp text s e = Ok s' ->
  items_apart s'.
Proof.
  intros Hv Hia H.
  pose proof (interp_heap_grows _ _ _ H) as Hg.
  pose proof (interp_lists _ _ _ H) as Hl.
  assert (Hsame : param_items s' = [] \/
                  (param_items s' = [IObj (List.length (heap s))] /\
                   lists s' = lists s /\
                   List.length (heap s) < List.length (heap s')) \/
                  ((param_items s' = param_items s \/
                    exists g, param_items s' = param_items s ++ [IStr g]) /\
                   lists s' = lists s)).
  { clear Hg Hl. interp_inv H e; simpl; auto;
      try (right; right; split; [right; eexists; reflexivity | reflexivity]);
      try (right; right; split; [left; reflexivity | reflexivity]).
    right; left. repeat split. rewrite length_app. simpl. lia. }
  intros a Hin.
  destruct Hsame as [Hs|[(Hs & Hls & Hlen)|(Hs & Hls)]].
  - rewrite Hs in Hin. contradiction.
  - rewrite Hs in Hin. destruct Hin as [Heq|[]]. inversion Heq; subst a.
    split; [assumption|]. intros id Hid. rewrite Hls in Hid.
    specialize (Hv _ _ Hid). lia.
  - assert (Hin0 : In (IObj a) (param_items s)).
    { destruct Hs as [Hs|(g & Hs)]; rewrite Hs in Hin; [assumption|].
      apply in_app_or in Hin. destruct Hin as [Hin|[Heq|[]]];
        [assumption | discriminate]. }
    destruct (Hia _ Hin0) as [Ha Hno]. split; [lia|].
    intros id. rewrite Hls. apply Hno.
Qed.

Lemma interp_ports_kept text s e s' :
  items_apart s -> interp text s e = Ok s' -> ports_kept s s'.
Proof.
  intros Hia H id a p Hin Hp. split.
  - eapply interp_lists_grow; eauto.
  - eapply interp_heap_kept; eauto.
    intros Hi. destruct (Hia _ Hi) as [_ Hno]. exact (Hno _ Hin).
Qed.

Lemma interp_all_ports_kept text : forall evs s s',
  lists_valid s -> items_apart s ->
  interp_all text s evs = Ok s' -> ports_kept s s'.
Proof.
  induction evs as [|e evs IH]; intros s s' Hv Hia H; simpl in H.
  - inversion H; subst. intros id a p Hin Hp. split; [assumption|].
    exists p. split; [assumption | apply same_but_desc_refl].
  - destruct (interp text s e) as [s1|] eqn:E; [|discriminate]. simpl in H.
    assert (K1 : ports_kept s s1) by (eapply interp_ports_kept; eauto).
    assert (K2 : ports_kept s1 s').
    { apply IH; [| |exact H].
      - eapply interp_lists_valid; eauto.
      - eapply interp_items_apart; eauto. }
    intros id a p Hin Hp.
    destruct (K1 _ _ _ Hin Hp) as (Hin1 & p1 & Hp1 & S1).
    destruct (K2 _ _ _ Hin1 Hp1) as (Hin2 & p2 & Hp2 & S2).
    split; [assumption|]. exists p2. split; [assumption|].
    eapply same_but_desc_trans; eauto.
Qed.

Lemma items_apart_all text : forall evs s,
  interp_all text init_state evs = Ok s -> items_apart s.
Proof.
  induction evs as [|e evs IH] using rev_ind; intros s H.
  - inversion H; subst. intros a [].
  - rewrite interp_all_app in H.
    destruct (interp_all text init_state evs) as [s0|] eqn:E0;
      [|discriminate].
    simpl in H. destruct (interp text s0 e) as [s1|] eqn:E1; [|discriminate].
    inversion H; subst.
    eapply interp_items_apart; eauto using lists_valid_all.
Qed.

(** The state of a configuration comes from the initial state by the
    tokens of the matches. *)
Lemma scan_reachable policy text stack pos s pst :
  scan policy text stack pos s pst ->
  exists evs, interp_all text init_state evs = Ok pst.
Proof.
  induction 1 as [|top stack pos s pst r s' g pst' _ IH Hs E Hm Hd
                  |top stack pos c s pst Hp _ IH E].
  - exists []. reflexivity.
  - destruct IH as (evs & Hevs). unfold on_match in Hm.
    destruct (r_action r) as [a|].
    + eexists (evs ++ [_]). rewrite interp_all_app, Hevs. simpl.
      rewrite Hm. reflexivity.
    + inversion Hm; subst. eauto.
  - assumption.
Qed.

(** From a configuration of a parse that returns, the tokens still to
    come lead to the final state. *)
Lemma scan_to_the_end policy text stack pos s pst sf :
  scan policy text stack pos s pst ->
  parse_from policy text [root] 0 text init_state = Returns sf ->
  ports_kept pst sf.
Proof.
  intros Hscan Hret.
  rewrite <- (ParseFacts.scan_parse_from Hscan) in Hret.
  unfold parse_from, finish in Hret.
  destruct (interp_all text pst (fst (lex policy stack pos s)))
    as [s1|] eqn:E; [|discriminate].
  assert (s1 = sf).
  { destruct (snd (lex policy stack pos s)); inversion Hret; auto. }
  subst s1.
  destruct (scan_reachable Hscan) as (evs & Hevs).
  eapply interp_all_ports_kept; eauto using lists_valid_all, items_apart_all.
Qed.

End KeepAll.
(* ------------------------------------------------------------------ *)
(** ** Objects are only appended *)

Module CountFacts.
Import InterpFacts CommentFacts.

Lemma interp_all_objects text : forall evs s s',
  interp_all text s evs = Ok s' ->
  exists more,
    objects s' = objects s ++ more /\
    List.length more
    = List.length (filter (fun e => creates (ev_action e)) evs).
Proof.
  induction evs as [|e evs IH]; intros s s' H; simpl in H.
  - inversion H; subst. exists []. now rewrite app_nil_r.
  - destruct (interp text s e) as [s1|] eqn:E; [|discriminate]. simpl in H.
    destruct (IH _ _ H) as (more & Hm & Hl). simpl.
    destruct (creates (ev_action e)) eqn:Ec.
    + destruct (interp_creates _ _ _ Ec E) as (o & Ho & _).
      exists (o :: more). rewrite Hm, Ho, <- app_assoc. simpl.
      now rewrite Hl.
    + destruct (interp_keeps_buffer _ _ _ Ec E) as (Ho & _).
      exists more. now rewrite Hm, Ho.
Qed.

End CountFacts.

(* ------------------------------------------------------------------ *)
(** ** Array ranges, from the source to the returned objects *)

(** From a configuration where the rule of a port with a range matches
    and the text of the range has balanced parentheses: either the engine
    fails loudly inside the range, or the parse comes to the closing
    parenthesis, where [add_params] either creates the ports or raises
    what [parse_vhdl] then raises. *)
Lemma array_range_cases
  policy text st pos s pst r body rest m t :
  scan policy text (port_param_type :: st) pos s pst ->
  MiniLexer.first_match (vhdl_tokens port_param_type) s
    = Some (r, String.append body (String ")" rest), [m; Some t]) ->
  r_action r = Some a_port_array_param_type ->
  balanced body ->
  let range := String "(" (String.append body ")") in
  exists before,
    text = String.append before (String.append range rest) /\
    let pst1 := range_opened (String.length before) m (Some t) pst in
    ((policy = FailLoudly /\
      exists off state,
        parse_vhdl policy text = Raises (LexicalError off state))
     \/
     match add_params true m (Some (String.append t range)) pst1 with
     | Ok pst' =>
         scan policy text (port_param_type :: st)
           (String.length before + String.length range) rest pst' /\
         exists addrs,
           ports_list pst' = ports_list pst ++ addrs /\
           deref pst' addrs
           = map (fun n => Some (mkParameter n m
                                   (Some (String.append t range)) None None))
               (param_items pst) /\
           forall sf a,
             parse_from policy text [root] 0 text init_state = Returns sf ->
             In a addrs ->
             In a (nth (ports pst) (lists sf) []) /\
             exists p, nth_error (heap sf) a = Some p /\
                       mode p = m /\
                       data_type p = Some (String.append t range)
     | Raise e => parse_vhdl policy text = Raises e
     end).
Proof.
  intros Hscan E Ha Hbal range.
  destruct (LexFacts.first_match_rule _ _ E) as [Hin Hm].
  destruct (C5Facts.port_array_rule Hin Ha) as [Hnext Hlast].
  unfold match_at in Hm.
  destruct (RangeFacts.rmatch_last_lit _ _ _ _ Hlast Hm)
    as (pre1 & s1 & g1 & Hs & Hk).
  inversion Hk; subst s1 g1; clear Hk.
  destruct (RangeFacts.scan_text Hscan) as (pre & Ht & Hl).
  exists (String.append pre pre1).
  assert (Htext : text = String.append (String.append pre pre1)
                           (String.append range rest)).
  { rewrite Ht, Hs, ReFacts.append_assoc. unfold range. simpl.
    now rewrite ReFacts.append_assoc. }
  split; [exact Htext|]. intros pst1.
  set (s' := String.append body (String ")" rest)) in *.
  assert (He : pos + (String.length s - String.length s')
               = S (String.length (String.append pre pre1))).
  { rewrite Hs, !ReFacts.length_append. simpl. lia. }
  assert (Hscan1 : scan policy text (array_range :: port_param_type :: st)
                     (S (String.length (String.append pre pre1))) s' pst1).
  { rewrite <- He.
    change (array_range :: port_param_type :: st)
      with (MiniLexer.apply_directive (Push array_range)
              (port_param_type :: st)).
    rewrite <- Hnext.
    eapply scan_match;
      [exact Hscan | | exact E | | rewrite Hnext; discriminate].
    - rewrite Hs. destruct pre1; discriminate.
    - unfold on_match. rewrite Ha, He. simpl.
      now rewrite Nat.sub_0_r. }
  destruct (@RangeFacts.scan_range policy text (port_param_type :: st)
              body 0 _ (String ")" rest) pst1 Hscan1 Hbal)
    as [Hscan2|Hfail]; [|left; exact Hfail].
  right.
  set (close := S (String.length (String.append pre pre1))
                + String.length body) in *.
  assert (Hint : on_match text pst1 close
                   (close + (String.length (String ")" rest)
                             - String.length rest))
                   (Rule (Lit ")") 0 (Some a_array_range_end) (Pop 1)) []
                 = add_params true m (Some (String.append t range)) pst1).
  { unfold on_match. cbn [r_action]. rewrite RangeFacts.length_tail.
    apply C5Facts.interp_array_range_end.
    rewrite Htext. apply StoreFacts.slice_middle; [reflexivity|].
    unfold close, range. simpl. rewrite !ReFacts.length_append. simpl.
    lia. }
  destruct (add_params true m (Some (String.append t range)) pst1)
    as [pst'|e] eqn:Eadd.
  - split.
    + replace (String.length (String.append pre pre1) + String.length range)
        with (close + (String.length (String ")" rest) - String.length rest)).
      * change (port_param_type :: st)
          with (MiniLexer.apply_directive (Pop 1)
                  (array_range :: port_param_type :: st)).
        eapply scan_match
          with (r := Rule (Lit ")") 0 (Some a_array_range_end) (Pop 1))
               (g := []);
          [exact Hscan2 | discriminate | apply RangeFacts.fm_close_range
          | exact Hint | discriminate].
      * rewrite RangeFacts.length_tail. unfold close, range. simpl.
        rewrite !ReFacts.length_append. simpl. lia.
    + destruct (StoreFacts.add_params_ports _ _ _ Eadd)
        as (addrs & Hp & Hd & _).
      exists addrs. split; [exact Hp|]. split; [exact Hd|].
      intros sf a Hret Hina.
      assert (Hscan3 : scan policy text (port_param_type :: st)
                         (close + (String.length (String ")" rest)
                                   - String.length rest)) rest pst').
      { change (port_param_type :: st)
          with (MiniLexer.apply_directive (Pop 1)
                  (array_range :: port_param_type :: st)).
        eapply scan_match
          with (r := Rule (Lit ")") 0 (Some a_array_range_end) (Pop 1))
               (g := []);
          [exact Hscan2 | discriminate | apply RangeFacts.fm_close_range
          | exact Hint | discriminate]. }
      pose proof Hd as Hd'.
      eapply StoreFacts.deref_new in Hd'; [|exact Hina].
      destruct Hd' as (n & Hn).
      assert (Hin' : In a (nth (ports pst') (lists pst') [])).
      { change (In a (ports_list pst')). rewrite Hp.
        apply in_or_app. now right. }
      destruct (KeepAll.scan_to_the_end Hscan3 Hret _ _ Hin' Hn)
        as (Hf & p & Hpf & _ & Hm' & Hty & _).
      assert (Hid : ports pst' = ports pst).
      { clear - Eadd. unfold add_params in Eadd.
        destruct (alloc_params _ _ _ _) as [h addrs].
        destruct (last_addr _); inversion Eadd; reflexivity. }
      rewrite Hid in Hf. split; [exact Hf|].
      exists p. repeat split; assumption.
  - rewrite ParseFacts.parse_vhdl_from.
    rewrite <- (ParseFacts.scan_parse_from Hscan2).
    assert (Hne : String ")" rest <> EmptyString) by discriminate.
    assert (Hst : MiniLexer.apply_directive (Pop 1)
                    (array_range :: port_param_type :: st) <> [])
      by discriminate.
    rewrite (ParseFacts.parse_from_match policy text array_range
               (port_param_type :: st) close pst1
               Hne (RangeFacts.fm_close_range rest) Hst).
    now rewrite Hint.
Qed.

Lemma step_scan policy text stack pos s pst stack' pos' s' pst' :
  scan policy text stack pos s pst ->
  step policy text (stack, pos, s, pst) = Some (stack', pos', s', pst') ->
  scan policy text stack' pos' s' pst'.
Proof.
  intros Hscan. unfold step.
  destruct s as [|c s1]; [discriminate|].
  destruct stack as [|top stack]; [discriminate|].
  destruct (MiniLexer.first_match (vhdl_tokens top) (String c s1))
    as [[[r s2] g]|] eqn:E.
  - destruct (on_match text pst pos _ r g) as [pst2|] eqn:Em; [|discriminate].
    destruct (MiniLexer.apply_directive (r_next r) (top :: stack))
      as [|t st] eqn:Ed; [discriminate|].
    intros H. injection H as <- <- <- <-. rewrite <- Ed.
    change (scan policy text
              (MiniLexer.apply_directive (r_next r) (top :: stack))
              (pos + (String.length (String c s1) - String.length s2))
              s2 pst2).
    eapply scan_match; eauto; [discriminate | rewrite Ed; discriminate].
  - destruct policy; [discriminate|].
    intros H. injection H as <- <- <- <-. now apply scan_skip with (c := c).
Qed.

(** What [steps] computes is a configuration of the parse. *)
Lemma steps_scan policy text : forall n stack pos s pst stack' pos' s' pst',
  scan policy text stack pos s pst ->
  steps policy text n (stack, pos, s, pst) = Some (stack', pos', s', pst') ->
  scan policy text stack' pos' s' pst'.
Proof.
  induction n as [|n IH]; intros stack pos s pst stack' pos' s' pst' Hscan;
    cbn [steps].
  - intros H. injection H as <- <- <- <-. assumption.
  - destruct (step policy text (stack, pos, s, pst))
      as [[[[stack1 pos1] s1] pst1]|] eqn:E; [|discriminate].
    apply IH. eapply step_scan; eauto.
Qed.

(** What the run after the range keeps. *)
Module ReturnFacts.
Import InterpFacts StoreFacts.

(** Only the token [component] binds [ports] to another list. *)
Lemma interp_keeps_ports text s e s' :
  is_component e = false -> interp text s e = Ok s' -> ports s' = ports s.
Proof.
  unfold is_component. intros Hc H.
  interp_inv H e; try discriminate Hc; reflexivity.
Qed.

Lemma interp_all_keeps_ports text : forall evs s s',
  forallb (fun x => negb (is_component x)) evs = true ->
  interp_all text s evs = Ok s' -> ports s' = ports s.
Proof.
  induction evs as [|e evs IH]; intros s s' Hall H; simpl in H.
  - now inversion H.
  - destruct (interp text s e) as [s1|] eqn:E; [|discriminate]. simpl in H.
    simpl in Hall. apply andb_prop in Hall. destruct Hall as [Hc Hall].
    rewrite (IH _ _ Hall H).
    apply (@interp_keeps_ports text s e s1); [|exact E].
    now destruct (is_component e).
Qed.

(** A list of the store only grows at its end. *)
Lemma interp_list_prefix text s e s' id :
  interp text s e = Ok s' ->
  exists more, nth id (lists s') [] = nth id (lists s) [] ++ more.
Proof.
  intros H. destruct (TargetFacts.interp_lists _ _ _ H)
    as [E|[E|(id' & n & E & _)]]; rewrite E.
  - exists []. now rewrite app_nil_r.
  - exists []. rewrite app_nil_r.
    destruct (Nat.lt_ge_cases id (List.length (lists s))) as [Hl|Hl].
    + now rewrite app_nth1.
    + rewrite (nth_overflow (lists s)) by assumption.
      rewrite app_nth2 by assumption.
      destruct (id - List.length (lists s)) as [|[|[|k]]]; reflexivity.
  - unfold list_extend.
    destruct (Nat.eq_dec id' id) as [->|Hne].
    + destruct (Nat.lt_ge_cases id (List.length (lists s))) as [Hl|Hl].
      * rewrite update_nth_same by assumption. eauto.
      * rewrite update_nth_beyond by assumption.
        exists []. now rewrite app_nil_r.
    + rewrite update_nth_other by assumption.
      exists []. now rewrite app_nil_r.
Qed.

Lemma interp_all_list_prefix text id : forall evs s s',
  interp_all text s evs = Ok s' ->
  exists more, nth id (lists s') [] = nth id (lists s) [] ++ more.
Proof.
  induction evs as [|e evs IH]; intros s s' H; simpl in H.
  - inversion H; subst. exists []. now rewrite app_nil_r.
  - destruct (interp text s e) as [s1|] eqn:E; [|discriminate]. simpl in H.
    destruct (@interp_list_prefix text s e s1 id E) as (m1 & H1).
    destruct (IH _ _ H) as (m2 & H2).
    exists (m1 ++ m2). now rewrite H2, H1, app_assoc.
Qed.

(** The new parameters as the caller sees them later: the description
    apart, they are as they were made. *)
Lemma view_new_ports (h hf : list VhdlParameter) m t :
  forall names addrs,
  map (nth_error h) addrs
  = map (fun n => Some (mkParameter n m t None None)) names ->
  (forall a p, In a addrs -> nth_error h a = Some p ->
     exists p', nth_error hf a = Some p' /\ same_but_desc p p') ->
  Forall2 (fun n q => exists d, q = Param (mkParameter n m t None d))
    names (map (fun a => view_item hf (IObj a)) addrs).
Proof.
  induction names as [|n names IH]; intros [|a addrs] Hd Hk;
    simpl in Hd; try discriminate; [constructor|].
  inversion Hd as [[Ha Hrest]].
  destruct (Hk a _ (or_introl eq_refl) Ha) as (p' & Hp' & Hn & Hm & Ht & Hv).
  simpl. constructor.
  - rewrite Hp'. exists (desc p'). destruct p'; simpl in *. congruence.
  - apply IH; [exact Hrest|]. intros b p Hb. apply Hk. now right.
Qed.

End ReturnFacts.

(** [generics] and [ports] stay bound to lists of the store, so the
    names pending always find their list. *)
Module IdFacts.
Import InterpFacts StoreFacts.

Lemma interp_ids_valid text s e s' :
  ids_valid s -> interp text s e = Ok s' -> ids_valid s'.
Proof.
  unfold ids_valid. intros [Hg Hp] H.
  interp_inv H e; simpl; unfold list_extend;
    rewrite ?update_nth_length, ?length_app; simpl; try lia; auto.
Qed.

Lemma ids_valid_all text : forall evs s s',
  ids_valid s -> interp_all text s evs = Ok s' -> ids_valid s'.
Proof.
  induction evs as [|e evs IH]; intros s s' Hv H; simpl in H.
  - now inversion H; subst.
  - destruct (interp text s e) as [s1|] eqn:E; [|discriminate]. simpl in H.
    eapply IH; [|exact H]. eapply interp_ids_valid; eauto.
Qed.

Lemma add_params_ok b m t s :
  ids_valid s -> param_items s <> [] ->
  exists s', add_params b m t s = Ok s'.
Proof.
  intros [Hg Hp] Hne. unfold add_params.
  rewrite alloc_params_spec.
  set (id := if b then ports s else generics s).
  assert (Hid : id < List.length (lists s)) by (subst id; destruct b; lia).
  unfold list_get, list_extend.
  rewrite update_nth_same by assumption.
  destruct (param_items s) as [|i items]; [now elim Hne|].
  unfold last_addr.
  destruct (nth id (lists s) [] ++ _) eqn:E.
  - apply app_eq_nil in E. destruct E as [_ E]. discriminate.
  - eexists. reflexivity.
Qed.

End IdFacts.

(** C5: a port declared with a mode, a type name [t] and a range whose
    text [body] has balanced parentheses (of any depth, 3 included). When
    the parse returns and the component is closed by an [end_component]
    with no other [component] before it, the object returned for this
    [end_component] (the one at the index given by the closing tokens
    before it) is a component whose ports are the ports it had before the
    range, then one port for each name pending, in order, then the ports
    declared later; each of these ports has the name, the mode, the data
    type [t] followed by the source text from the opening parenthesis to
    the one that closes it, both included, no default and whatever
    description came later.
    The ports are created at the closing parenthesis, where [add_params]
    returns, and the parse goes on after it. *)
Theorem C5_array_range_is_kept_verbatim
  policy text st pos s pst r body rest m t objs evs1 e_end evs2 :
  scan policy text (port_param_type :: st) pos s pst ->
  MiniLexer.first_match (vhdl_tokens port_param_type) s
    = Some (r, String.append body (String ")" rest), [m; Some t]) ->
  r_action r = Some a_port_array_param_type ->
  balanced body ->
  parse_vhdl policy text = Returns objs ->
  fst (lex policy (port_param_type :: st)
         (pos + (String.length s - String.length rest)) rest)
    = evs1 ++ e_end :: evs2 ->
  forallb (fun x => negb (is_component x)) evs1 = true ->
  ev_action e_end = a_end_component ->
  let range := String "(" (String.append body ")") in
  exists before pst' addrs,
    text = String.append before (String.append range rest) /\
    add_params true m (Some (String.append t range))
      (range_opened (String.length before) m (Some t) pst) = Ok pst' /\
    scan policy text (port_param_type :: st)
      (pos + (String.length s - String.length rest)) rest pst' /\
    ports_list pst' = ports_list pst ++ addrs /\
    deref pst' addrs
    = map (fun n => Some (mkParameter n m (Some (String.append t range))
                            None None))
        (param_items pst) /\
    exists n old new later gs secs d,
      nth_error objs
        (List.length (objects pst)
         + List.length (filter (fun e => creates (ev_action e)) evs1))
      = Some (VhdlComponent n (old ++ new ++ later) gs secs d) /\
      List.length old = List.length (ports_list pst) /\
      Forall2 (fun i q => exists dsc,
                 q = Param (mkParameter i m (Some (String.append t range))
                              None dsc))
        (param_items pst) new.
Proof.
  intros Hscan E Ha Hbal Hret Hlex Hnc Hend range.
  destruct (@array_range_cases policy text st pos s pst r
              body rest m t Hscan E Ha Hbal)
    as (before & Htext & Hcases).
  cbv zeta in Hcases. fold range in Hcases, Htext.
  (* the cursor after the range *)
  assert (Hpos : String.length before + String.length range
                 = pos + (String.length s - String.length rest)).
  { destruct (RangeFacts.scan_text Hscan) as (pre & Ht & Hl).
    destruct (LexFacts.first_match_length _ _ E) as (pre1 & Hs & _).
    assert (L : String.length (String.append before (String.append range rest))
                = String.length (String.append pre s)).
    { now rewrite <- Htext, <- Ht. }
    rewrite Hs in L |- *. unfold range in L |- *.
    repeat (rewrite ?ReFacts.length_append in L;
            cbn [String.length] in L).
    repeat (rewrite ?ReFacts.length_append; cbn [String.length]).
    lia. }
  destruct Hcases as [(_ & off & state & Hraise)|Hcases];
    [rewrite Hraise in Hret; discriminate|].
  destruct (add_params true m (Some (String.append t range))
              (range_opened (String.length before) m (Some t) pst))
    as [pst'|e] eqn:Eadd;
    [|rewrite Hcases in Hret; discriminate].
  destruct Hcases as (Hscan3 & addrs & Hp & Hd & _).
  rewrite Hpos in Hscan3.
  exists before, pst', addrs.
  split; [exact Htext|]. split; [exact Eadd|]. split; [exact Hscan3|].
  split; [exact Hp|]. split; [exact Hd|].
  (* the run to the end *)
  rewrite ParseFacts.parse_vhdl_from in Hret.
  rewrite <- (ParseFacts.scan_parse_from Hscan3) in Hret.
  unfold parse_from, finish in Hret. rewrite Hlex in Hret.
  destruct (interp_all text pst' (evs1 ++ e_end :: evs2)) as [sf|] eqn:Ei;
    [|discriminate].
  assert (Hobjs : objs = view sf).
  { destruct (snd (lex policy (port_param_type :: st)
                     (pos + (String.length s - String.length rest)) rest));
      simpl in Hret; inversion Hret; reflexivity. }
  clear Hret.
  rewrite InterpFacts.interp_all_app in Ei.
  destruct (interp_all text pst' evs1) as [sa|] eqn:E1; [|discriminate].
  cbn [bind interp_all] in Ei.
  destruct (interp text sa e_end) as [sb|] eqn:E2; [|discriminate].
  cbn [bind] in Ei.
  assert (Hsb : objects sb
                = objects sa ++ [VhdlComponent (cur_name sa)
                                   (ListRef (ports sa))
                                   (ListRef (generics sa))
                                   (dict (sections sa)) (metacomments sa)]).
  { unfold interp in E2. rewrite Hend in E2. inversion E2. reflexivity. }
  destruct (CountFacts.interp_all_objects _ _ _ Ei) as (more & Hmore & _).
  assert (Hid : ports sa = ports pst).
  { rewrite (@ReturnFacts.interp_all_keeps_ports text evs1 pst' sa Hnc E1).
    clear - Eadd. unfold add_params in Eadd.
    destruct (alloc_params _ _ _ _) as [h a].
    destruct (last_addr _); inversion Eadd; reflexivity. }
  (* the list of ports at the end *)
  assert (Hall : interp_all text pst' (evs1 ++ e_end :: evs2) = Ok sf).
  { rewrite InterpFacts.interp_all_app, E1. cbn [bind interp_all].
    rewrite E2. exact Ei. }
  destruct (@ReturnFacts.interp_all_list_prefix text (ports pst) (evs1 ++ e_end :: evs2) pst' sf Hall)
    as (later & Hlater).
  assert (Hpl : nth (ports pst) (lists pst') [] = ports_list pst ++ addrs).
  { rewrite <- Hp. unfold ports_list, list_get.
    replace (ports pst') with (ports pst); [reflexivity|].
    clear - Eadd. unfold add_params in Eadd.
    destruct (alloc_params _ _ _ _) as [h a].
    destruct (last_addr _); inversion Eadd; reflexivity. }
  rewrite Hpl in Hlater.
  destruct (KeepAll.scan_reachable Hscan3) as (evs0 & Hevs0).
  assert (Hkept : ports_kept pst' sf).
  { eapply KeepAll.interp_all_ports_kept;
      [eapply TargetFacts.lists_valid_all; exact Hevs0
      |eapply KeepAll.items_apart_all; exact Hevs0 | exact Hall]. }
  exists (cur_name sa),
    (map (fun a => view_item (heap sf) (IObj a)) (ports_list pst)),
    (map (fun a => view_item (heap sf) (IObj a)) addrs),
    (map (fun a => view_item (heap sf) (IObj a)) later),
    (view_plist sf (ListRef (generics sa))),
    (dict (sections sa)), (metacomments sa).
  split; [|split].
  - destruct (CountFacts.interp_all_objects _ _ _ E1) as (got & Hgot & Hn).
    destruct (StoreFacts.add_params_ports _ _ _ Eadd) as (_ & _ & _ & _ & Ho).
    change (objects (range_opened (String.length before) m (Some t) pst))
      with (objects pst) in Ho.
    rewrite <- Hn, <- length_app, <- Ho, <- Hgot.
    rewrite Hobjs. unfold view. rewrite nth_error_map, Hmore, Hsb.
    rewrite <- app_assoc, nth_error_app2 by lia.
    rewrite Nat.sub_diag.
    cbn [app nth_error option_map view_object view_plist].
    unfold list_get.
    rewrite Hid, Hlater, !map_app, <- app_assoc. reflexivity.
  - now rewrite length_map.
  - apply ReturnFacts.view_new_ports with (h := heap pst'); [exact Hd|].
    intros a p Hin Hnth.
    assert (Hin' : In a (nth (ports pst) (lists pst') [])).
    { rewrite Hpl. apply in_or_app. now right. }
    destruct (Hkept _ _ _ Hin' Hnth) as (_ & p' & Hp' & Hs).
    exists p'. split; assumption.
Qed.

Lemma C5_witness :
  exists before pst' addrs,
    range_text
    = String.append before
        (String.append "(f(g(1)) downto (0))" " ); end component;") /\
    add_params true (Some "in")
      (Some (String.append "bus" "(f(g(1)) downto (0))"))
      (range_opened (String.length before) (Some "in") (Some "bus")
         range_state)
    = Ok pst' /\
    scan SkipChar range_text [port_param_type; port_list; component; root]
      52 " ); end component;" pst' /\
    ports_list pst' = addrs /\
    deref pst' addrs
    = [Some (mkParameter (IStr (Some "d")) (Some "in")
               (Some "bus(f(g(1)) downto (0))") None None)] /\
    exists n old new later gs secs d,
      nth_error
        [VhdlComponent (Some "c")
           [port "d" "in" "bus(f(g(1)) downto (0))"] [] [] []] 0
      = Some (VhdlComponent n (old ++ new ++ later) gs secs d) /\
      List.length old = 0 /\
      Forall2 (fun i q => exists dsc,
                 q = Param (mkParameter i (Some "in")
                              (Some "bus(f(g(1)) downto (0))") None dsc))
        [IStr (Some "d")] new.
Proof.
  apply (@C5_array_range_is_kept_verbatim SkipChar range_text
           [port_list; component; root] 26
           "in bus(f(g(1)) downto (0)) ); end component;" range_state
           (Rule (seqs [ws0; Grp 0 re_mode; ws1; Grp 1 word; ws0; Lit "("])
              2 (Some a_port_array_param_type) (Push array_range))
           "f(g(1)) downto (0)" " ); end component;" (Some "in") "bus"
           [VhdlComponent (Some "c")
              [port "d" "in" "bus(f(g(1)) downto (0))"] [] [] []]
           [Event 53 54 a_end_port []]
           (Event 56 69 a_end_component []) []).
  - apply (@steps_scan SkipChar range_text 5 [root] 0 range_text init_state).
    + apply scan_start.
    + vm_compute. reflexivity.
  - vm_compute. reflexivity.
  - reflexivity.
  - reflexivity.
  - vm_compute. reflexivity.
  - vm_compute. reflexivity.
  - reflexivity.
  - reflexivity.
Defined.

(** With an engine that passes over what no rule matches, the names
    pending at a range with balanced parentheses always become ports. *)
Lemma array_range_creates_the_ports
  text st pos s pst r body rest m t :
  scan SkipChar text (port_param_type :: st) pos s pst ->
  MiniLexer.first_match (vhdl_tokens port_param_type) s
    = Some (r, String.append body (String ")" rest), [m; Some t]) ->
  r_action r = Some a_port_array_param_type ->
  balanced body ->
  param_items pst <> [] ->
  let range := String "(" (String.append body ")") in
  exists before pst' addrs,
    text = String.append before (String.append range rest) /\
    add_params true m (Some (String.append t range))
      (range_opened (String.length before) m (Some t) pst) = Ok pst' /\
    scan SkipChar text (port_param_type :: st)
      (String.length before + String.length range) rest pst' /\
    ports_list pst' = ports_list pst ++ addrs /\
    addrs <> [] /\
    deref pst' addrs
    = map (fun n => Some (mkParameter n m (Some (String.append t range))
                            None None))
        (param_items pst).
Proof.
  intros Hscan E Ha Hbal Hne range.
  destruct (@array_range_cases SkipChar text st pos s pst r
              body rest m t Hscan E Ha Hbal)
    as (before & Htext & Hcases).
  cbv zeta in Hcases. fold range in Hcases, Htext.
  destruct Hcases as [(Hpol & _)|Hcases]; [discriminate Hpol|].
  destruct (KeepAll.scan_reachable Hscan) as (evs0 & Hevs0).
  assert (Hv : ids_valid pst).
  { eapply IdFacts.ids_valid_all; [|exact Hevs0]. split; simpl; lia. }
  destruct (@IdFacts.add_params_ok true m (Some (String.append t range))
              (range_opened (String.length before) m (Some t) pst) Hv Hne)
    as (pst' & Eadd).
  rewrite Eadd in Hcases. destruct Hcases as (Hscan3 & addrs & Hp & Hd & _).
  exists before, pst', addrs. repeat split; auto.
  intros ->. simpl in Hd. destruct (param_items pst); [now elim Hne|].
  discriminate.
Qed.

(** The same source, parsed to the end. *)
Example range_text_parsed :
  parse_vhdl SkipChar range_text
  = Returns [VhdlComponent (Some "c")
               [port "d" "in" "bus(f(g(1)) downto (0))"] [] [] []].
Proof. vm_compute. reflexivity. Qed.

Example paren_text_parsed :
  parse_vhdl FailLoudly paren_text
  = Returns [VhdlComponent (Some "c") [port "d" "in" "bus(())"] [] [] []].
Proof. vm_compute. reflexivity. Qed.

(* ------------------------------------------------------------------ *)
(** * Further properties *)

(** ** The registry after a registration *)

Module RegisterFacts.
Import RegistryFacts.

Lemma lit_of_name_inj a b : lit_of_name a = lit_of_name b -> a = b.
Proof.
  destruct a, b; simpl; intros H; inversion H; reflexivity.
Qed.

Lemma existsb_is_name r reg :
  existsb (is_name r) reg = true <-> In (lit_of_name r) reg.
Proof.
  rewrite existsb_exists. split.
  - intros (x & Hin & Hx). apply is_name_iff in Hx. now subst.
  - intros H. exists (lit_of_name r). split; [assumption|].
    now apply is_name_iff.
Qed.

Lemma sdict_in_key k v (d : sdict) : In (k, v) d -> sdict_get k d <> None.
Proof.
  induction d as [|[k' v'] d IH]; simpl; [contradiction|].
  intros [H|H].
  - inversion H; subst.
    rewrite (proj2 (name_eqb_eq k k) eq_refl). discriminate.
  - destruct (name_eqb k k'); [discriminate | now apply IH].
Qed.

Section Chains.
Variable d : sdict.

(** What ends a chain is no subtype. *)
Lemma follow_root : forall fuel v r,
  follow d fuel v = Some r -> sdict_get r d = None.
Proof.
  induction fuel as [|fuel IH]; intros v r; simpl;
    destruct (sdict_get v d) as [v'|] eqn:E; try discriminate.
  - intros H; inversion H; subst; assumption.
  - apply IH.
  - intros H; inversion H; subst; assumption.
Qed.

(** The names of the registry after the loop over [todo]: those it had,
    and the subtypes whose chain ends in one of those. *)
Lemma register_subtypes_char fuel : forall todo reg reg',
  (forall k v, In (k, v) todo -> sdict_get k d <> None) ->
  register_subtypes d fuel todo reg = Returns reg' ->
  forall x,
    In x reg' <->
    In x reg \/
    exists k v r, In (k, v) todo /\ follow d fuel v = Some r /\
                  In (lit_of_name r) reg /\ x = lit_of_name k.
Proof.
  induction todo as [|[k0 v0] todo IH]; intros reg reg' Hkeys H x;
    cbn [register_subtypes] in H.
  - inversion H; subst. split; [auto|].
    intros [Hx|(k & v & r & [] & _)]. assumption.
  - destruct (follow d fuel v0) as [r0|] eqn:E0; [|discriminate].
    assert (Hroot : forall r v, follow d fuel v = Some r ->
              forall reg0, In (lit_of_name r) (reg0 ++ [lit_of_name k0]) <->
                           In (lit_of_name r) reg0).
    { intros r v Hf reg0. split; [|intros Hr; apply in_or_app; now left].
      intros Hr. apply in_app_or in Hr. destruct Hr as [Hr|[Hr|[]]];
        [assumption|].
      apply lit_of_name_inj in Hr. subst r.
      apply follow_root in Hf.
      destruct (Hkeys k0 v0 (or_introl eq_refl) Hf). }
    rewrite (IH _ _ (fun k v Hin => Hkeys k v (or_intror Hin)) H x).
    destruct (existsb (is_name r0) reg) eqn:Ex.
    + apply existsb_is_name in Ex. split.
      * intros [Hx|(k & v & r & Hin & Hf & Hr & ->)].
        -- apply in_app_or in Hx. destruct Hx as [Hx|[<-|[]]]; [now left|].
           right. exists k0, v0, r0. repeat split; auto. now left.
        -- right. exists k, v, r. repeat split; auto; [now right|].
           now apply (Hroot r v Hf reg).
      * intros [Hx|(k & v & r & [Heq|Hin] & Hf & Hr & ->)].
        -- left. apply in_or_app. now left.
        -- inversion Heq; subst. left. apply in_or_app. right. now left.
        -- right. exists k, v, r. repeat split; auto.
           now apply (Hroot r v Hf reg).
    + split.
      * intros [Hx|(k & v & r & Hin & Hf & Hr & ->)]; [now left|].
        right. exists k, v, r. repeat split; auto. now right.
      * intros [Hx|(k & v & r & [Heq|Hin] & Hf & Hr & ->)]; [now left| |].
        -- inversion Heq; subst. rewrite E0 in Hf. inversion Hf; subst.
           apply existsb_is_name in Hr. congruence.
        -- right. exists k, v, r. repeat split; auto.
Qed.

(** The loop returns whenever every chain of [todo] ends. *)
Lemma register_subtypes_returns fuel : forall todo reg,
  (forall k v, In (k, v) todo -> follow d fuel v <> None) ->
  exists reg', register_subtypes d fuel todo reg = Returns reg'.
Proof.
  induction todo as [|[k v] todo IH]; intros reg Hall;
    cbn [register_subtypes]; [eauto|].
  destruct (follow d fuel v) as [r|] eqn:E.
  - apply IH. intros k' v' Hin. apply (Hall k' v'). now right.
  - destruct (Hall k v (or_introl eq_refl) E).
Qed.

Lemma register_subtypes_follows fuel : forall todo reg reg',
  register_subtypes d fuel todo reg = Returns reg' ->
  forall k v, In (k, v) todo -> follow d fuel v <> None.
Proof.
  induction todo as [|[k0 v0] todo IH]; intros reg reg' H k v Hin;
    cbn [register_subtypes] in H; [contradiction|].
  destruct (follow d fuel v0) as [r0|] eqn:E0; [|discriminate].
  destruct Hin as [Heq|Hin].
  - inversion Heq; subst. congruence.
  - eapply IH; eauto.
Qed.

End Chains.
End RegisterFacts.

Module RegisterMore.

(** The names of the registry after [register_array_types]. *)
Lemma registered_names_char (objs : list (VhdlObject (list pelem)))
  fuel reg reg' :
  register_array_types fuel objs reg = Returns reg' ->
  forall x,
    In x reg' <->
    In x reg \/ In x (array_type_names objs) \/
    exists k, x = lit_of_name k /\
      chain_ends_in (subtypes_of objs) fuel (reg ++ array_type_names objs) k.
Proof.
  unfold register_array_types. intros H x.
  eapply RegisterFacts.register_subtypes_char with (x := x) in H;
    [|intros k v Hin; eapply RegisterFacts.sdict_in_key; exact Hin].
  rewrite H, in_app_iff. clear H. unfold chain_ends_in. split.
  - intros [[Hx|Hx]|(k & v & r & Hin & Hf & Hr & ->)]; auto.
    right; right. exists k. split; [reflexivity|]. eauto.
  - intros [Hx|[Hx|(k & -> & v & r & Hin & Hf & Hr)]]; auto.
    right. exists k, v, r. auto.
Qed.

End RegisterMore.

(** X1: after [register_array_types] has returned, the registry holds
    what it held, the names of the array types of the objects, and the
    subtypes whose chain of base types ends in one of these; nothing
    else. *)
Theorem X1_registered_names (objs : list (VhdlObject (list pelem)))
  fuel reg reg' :
  register_array_types fuel objs reg = Returns reg' ->
  forall x,
    In x reg' <->
    In x reg \/ In x (array_type_names objs) \/
    exists k, x = lit_of_name k /\
      chain_ends_in (subtypes_of objs) fuel (reg ++ array_type_names objs) k.
Proof. apply RegisterMore.registered_names_char. Qed.

Lemma X1_witness :
  In (PyStr "C") (new_extractor [] ++ [PyStr "A"; PyStr "B"; PyStr "C"]) <->
  In (PyStr "C") (new_extractor []) \/
  In (PyStr "C") (array_type_names chain_objects) \/
  exists k, PyStr "C" = lit_of_name k /\
    chain_ends_in (subtypes_of chain_objects) 2
      (new_extractor [] ++ array_type_names chain_objects) k.
Proof.
  apply (@X1_registered_names chain_objects 2 (new_extractor [])
           (new_extractor [] ++ [PyStr "A"; PyStr "B"; PyStr "C"])).
  vm_compute. reflexivity.
Defined.

(** X2: the outcome does not depend on the order in which the items of
    the dictionary [subtypes] are visited: in any order the loop returns
    when it returns in one, with the same names in the registry. *)
Theorem X2_registration_order (objs : list (VhdlObject (list pelem)))
  fuel reg reg' todo :
  register_array_types fuel objs reg = Returns reg' ->
  same_items todo (subtypes_of objs) ->
  exists reg2,
    register_subtypes (subtypes_of objs) fuel todo
      (reg ++ array_type_names objs) = Returns reg2 /\
    forall x, In x reg2 <-> In x reg'.
Proof.
  unfold register_array_types. intros H Hsame.
  destruct (@RegisterFacts.register_subtypes_returns (subtypes_of objs) fuel
              todo (reg ++ array_type_names objs)) as (reg2 & H2).
  { intros k v Hin. apply Hsame in Hin.
    eapply RegisterFacts.register_subtypes_follows; eauto. }
  exists reg2. split; [exact H2|]. intros x.
  eapply RegisterFacts.register_subtypes_char with (x := x) in H;
    [|intros k v Hin; eapply RegisterFacts.sdict_in_key; exact Hin].
  eapply RegisterFacts.register_subtypes_char with (x := x) in H2;
    [|intros k v Hin; apply Hsame in Hin;
      eapply RegisterFacts.sdict_in_key; exact Hin].
  rewrite H, H2. split;
    (intros [Hx|(k & v & r & Hin & Hrest)]; [now left|];
     right; exists k, v, r; split; [now apply Hsame | exact Hrest]).
Qed.

Lemma X2_witness :
  exists reg2,
    register_subtypes (subtypes_of chain_objects) 2
      [(Some "C", Some "B"); (Some "B", Some "A")]
      (new_extractor [] ++ array_type_names chain_objects) = Returns reg2 /\
    forall x,
      In x reg2 <->
      In x (new_extractor [] ++ [PyStr "A"; PyStr "B"; PyStr "C"]).
Proof.
  apply (@X2_registration_order chain_objects 2 (new_extractor [])).
  - vm_compute. reflexivity.
  - intros e. simpl. tauto.
Defined.

(** X3: registering the same objects a second time, as
    [register_files_array_types] does for a file it has just parsed,
    returns as well and changes the answer of [is_array] for no name. *)
Theorem X3_registration_twice (objs : list (VhdlObject (list pelem)))
  fuel reg reg' :
  register_array_types fuel objs reg = Returns reg' ->
  exists reg'',
    register_array_types fuel objs reg' = Returns reg'' /\
    (forall x, In x reg'' <-> In x reg') /\
    forall s, is_array reg'' s = is_array reg' s.
Proof.
  intros H.
  assert (Hret : exists reg'',
             register_array_types fuel objs reg' = Returns reg'').
  { unfold register_array_types in *.
    apply RegisterFacts.register_subtypes_returns.
    eapply RegisterFacts.register_subtypes_follows; eauto. }
  destruct Hret as (reg'' & H2). exists reg''. split; [exact H2|].
  assert (Hmem : forall x, In x reg'' <-> In x reg').
  { intros x.
    pose proof (@RegisterMore.registered_names_char objs fuel reg reg' H) as C1.
    pose proof (@RegisterMore.registered_names_char objs fuel reg' reg'' H2) as C2.
    rewrite (C2 x). split.
    - intros [Hx|[Hx|(k & -> & v & r & Hin & Hf & Hr)]]; [assumption| |].
      + apply C1. auto.
      + apply C1. right; right. exists k. split; [reflexivity|].
        exists v, r. repeat split; auto.
        apply in_app_or in Hr. destruct Hr as [Hr|Hr];
          [|apply in_or_app; now right].
        apply C1 in Hr.
        destruct Hr as [Hr|[Hr|(k' & Hk' & v' & r' & Hin' & _)]];
          [apply in_or_app; now left | apply in_or_app; now right|].
        apply RegisterFacts.lit_of_name_inj in Hk'. subst k'.
        apply RegisterFacts.follow_root in Hf.
        destruct (RegisterFacts.sdict_in_key _ _ _ Hin' Hf).
    - intros Hx. now left. }
  split; [exact Hmem|]. intros s.
  destruct (is_array reg' s) eqn:E.
  - apply RegistryFacts.is_array_iff. apply Hmem.
    now apply RegistryFacts.is_array_iff.
  - destruct (is_array reg'' s) eqn:E2; [|reflexivity].
    apply RegistryFacts.is_array_iff in E2. apply Hmem in E2.
    apply RegistryFacts.is_array_iff in E2. congruence.
Qed.

Lemma X3_witness :
  exists reg'',
    register_array_types 2 chain_objects
      (new_extractor [] ++ [PyStr "A"; PyStr "B"; PyStr "C"])
    = Returns reg'' /\
    (forall x, In x reg'' <->
               In x (new_extractor [] ++ [PyStr "A"; PyStr "B"; PyStr "C"])) /\
    forall s,
      is_array reg'' s
      = is_array (new_extractor [] ++ [PyStr "A"; PyStr "B"; PyStr "C"]) s.
Proof.
  apply (@X3_registration_twice chain_objects 2 (new_extractor [])).
  vm_compute. reflexivity.
Defined.

Module GrowFacts.
Import RegistryFacts.

Lemma add_array_types_grows v reg reg' :
  add_array_types v reg = Ok reg' -> incl reg reg'.
Proof.
  unfold add_array_types, bind.
  destruct (has_arrays v) as [[|]|]; try discriminate.
  - destruct (get_arrays v) as [x|]; try discriminate.
    destruct (to_set x) as [new|]; try discriminate.
    intros H; inversion H; subst. apply incl_appl, incl_refl.
  - intros H; inversion H; subst. apply incl_refl.
Qed.

Lemma load_array_types_grows literal_eval content reg reg' :
  load_array_types literal_eval content reg = Ok reg' -> incl reg reg'.
Proof.
  unfold load_array_types.
  destruct (literal_eval content) as [v|[]]; try discriminate;
    apply add_array_types_grows.
Qed.

Lemma register_array_types_grows P (objs : list (VhdlObject P))
  fuel reg reg' :
  register_array_types fuel objs reg = Returns reg' -> incl reg reg'.
Proof.
  unfold register_array_types. intros H x Hx.
  eapply register_subtypes_grows; [exact H|].
  apply in_or_app. now left.
Qed.

Lemma is_array_incl reg reg' s :
  incl reg reg' -> is_array reg s = true -> is_array reg' s = true.
Proof.
  intros Hi H. apply is_array_iff. apply Hi. now apply is_array_iff.
Qed.

End GrowFacts.

(** X4: the five standard vector types are recognised by a new
    extractor under any spelling of their letters in upper or lower case,
    and no operation of the extractor forgets a name: what [is_array]
    recognises is still recognised after [register_array_types],
    [add_array_types] or [load_array_types] have returned. *)
Theorem X4_registry_only_grows :
  (forall array_types s,
     In (PyStr (lower s)) seed_types ->
     is_array (new_extractor array_types) s = true)
  /\ (forall (objs : list (VhdlObject (list pelem))) fuel reg reg' s,
        register_array_types fuel objs reg = Returns reg' ->
        is_array reg s = true -> is_array reg' s = true)
  /\ (forall type_defs reg reg' s,
        add_array_types type_defs reg = Ok reg' ->
        is_array reg s = true -> is_array reg' s = true)
  /\ (forall literal_eval content reg reg' s,
        load_array_types literal_eval content reg = Ok reg' ->
        is_array reg s = true -> is_array reg' s = true).
Proof.
  split; [|split; [|split]].
  - intros A s Hin. apply RegistryFacts.is_array_iff.
    unfold new_extractor. apply in_or_app. now left.
  - intros objs fuel reg reg' s H. apply GrowFacts.is_array_incl.
    eapply GrowFacts.register_array_types_grows; eauto.
  - intros v reg reg' s H. apply GrowFacts.is_array_incl.
    eapply GrowFacts.add_array_types_grows; eauto.
  - intros le c reg reg' s H. apply GrowFacts.is_array_incl.
    eapply GrowFacts.load_array_types_grows; eauto.
Qed.

Lemma X4_witness :
  is_array (new_extractor []) "Std_Logic_Vector" = true /\
  is_array (new_extractor [] ++ [PyStr "A"; PyStr "B"; PyStr "C"])
    "STD_LOGIC_VECTOR" = true.
Proof.
  split.
  - apply (proj1 X4_registry_only_grows []). simpl. auto.
  - apply (proj1 (proj2 X4_registry_only_grows) chain_objects 2
             (new_extractor [])).
    + vm_compute. reflexivity.
    + reflexivity.
Defined.

Module LoadFacts.

Lemma hashable_strings names : forallb hashable (map PyStr names) = true.
Proof. induction names as [|n names IH]; simpl; auto. Qed.

Lemma last_snoc_cons {A} (l : list A) (x d : A) :
  match l ++ [x] with
  | [] => d
  | e :: es => last es e
  end = x.
Proof.
  destruct l as [|e l]; simpl; [reflexivity | apply last_last].
Qed.

(** The last entry for the key ['arrays'] is the one that counts. *)
Lemma get_arrays_last other v :
  get_arrays (PyDict (other ++ [(PyStr "arrays", v)])) = Ok v.
Proof.
  unfold get_arrays. rewrite filter_app. simpl.
  set (fo := filter _ other).
  pose proof (@last_snoc_cons _ fo (PyStr "arrays", v) (PyStr "arrays", v))
    as H.
  destruct (fo ++ [(PyStr "arrays", v)]) as [|e es] eqn:E.
  - destruct fo; discriminate.
  - now rewrite H.
Qed.

Lemma add_array_types_names other names reg :
  add_array_types
    (PyDict (other ++ [(PyStr "arrays", PyList (map PyStr names))])) reg
  = Ok (reg ++ map PyStr names).
Proof.
  assert (Hh : has_arrays
                 (PyDict (other ++ [(PyStr "arrays",
                                     PyList (map PyStr names))]))
               = Ok true).
  { unfold has_arrays. rewrite existsb_app. simpl.
    now rewrite orb_true_r. }
  unfold add_array_types, bind. rewrite Hh, get_arrays_last.
  unfold to_set. now rewrite hashable_strings.
Qed.

End LoadFacts.

(** X5: loading a mapping whose last entry for ['arrays'] is a list of
    names adds exactly these names to the registry, and every one of them
    that is written in lower case is then recognised by [is_array] under
    any spelling of its letters in upper or lower case. *)
Theorem X5_loaded_names_are_recognised
  (literal_eval : string -> res pylit) content other names reg :
  literal_eval content
    = Ok (PyDict (other ++ [(PyStr "arrays", PyList (map PyStr names))])) ->
  load_array_types literal_eval content reg = Ok (reg ++ map PyStr names) /\
  forall s, In (lower s) names ->
    is_array (reg ++ map PyStr names) s = true.
Proof.
  intros H. split.
  - unfold load_array_types. rewrite H.
    apply LoadFacts.add_array_types_names.
  - intros s Hin. apply RegistryFacts.is_array_iff.
    apply in_or_app. right. now apply in_map.
Qed.

Lemma X5_witness :
  load_array_types (fun _ => Ok (PyDict [(PyStr "arrays",
                                          PyList [PyStr "my_vec"])]))
    "{'arrays': ['my_vec']}" (new_extractor [])
  = Ok (new_extractor [] ++ [PyStr "my_vec"]) /\
  forall s, In (lower s) ["my_vec"] ->
    is_array (new_extractor [] ++ [PyStr "my_vec"]) s = true.
Proof.
  apply (@X5_loaded_names_are_recognised
           (fun _ => Ok (PyDict [(PyStr "arrays", PyList [PyStr "my_vec"])]))
           "{'arrays': ['my_vec']}" [] ["my_vec"] (new_extractor [])).
  reflexivity.
Defined.

(* ------------------------------------------------------------------ *)
(** ** The cache of parsed files *)

Module CacheFacts.

Lemma cache_get_snoc f g objs o cache :
  cache_get f cache = Some objs ->
  cache_get f (cache ++ [(g, o)]) = Some objs.
Proof.
  induction cache as [|[h p] cache IH]; simpl; [discriminate|].
  destruct (String.eqb f h); auto.
Qed.

Lemma cache_get_new f objs cache :
  cache_get f cache = None ->
  cache_get f (cache ++ [(f, objs)]) = Some objs.
Proof.
  induction cache as [|[h p] cache IH]; simpl.
  - now rewrite String.eqb_refl.
  - destruct (String.eqb f h); [discriminate | auto].
Qed.

Lemma register_subtypes_no_raise d fuel : forall todo reg e,
  register_subtypes d fuel todo reg <> Raises e.
Proof.
  induction todo as [|[k v] todo IH]; intros reg e; simpl; [discriminate|].
  destruct (follow d fuel v); [apply IH | discriminate].
Qed.

(** A call keeps the entries of the cache. *)
Lemma extract_keeps_cache policy fuel fs g x f objs :
  cache_get f (object_cache x) = Some objs ->
  cache_get f
    (object_cache (snd (extract_file_objects policy fuel fs g x)))
  = Some objs.
Proof.
  intros H. unfold extract_file_objects.
  destruct (cache_get g (object_cache x)); [exact H|].
  destruct (fs g) as [text|]; [|exact H].
  destruct (parse_vhdl policy text) as [o|e|]; try exact H.
  destruct (register_array_types fuel o (array_types x)); simpl;
    now apply cache_get_snoc.
Qed.

Lemma extract_many_keeps_cache policy fuel f objs : forall calls x,
  cache_get f (object_cache x) = Some objs ->
  cache_get f (object_cache (extract_many policy fuel calls x)) = Some objs.
Proof.
  induction calls as [|[fs g] calls IH]; intros x H; simpl; [exact H|].
  apply IH. now apply extract_keeps_cache.
Qed.

(** A call that returns objects has them in the cache. *)
Lemma extract_done_cached policy fuel fs f x objs x1 :
  extract_file_objects policy fuel fs f x = (Done objs, x1) ->
  cache_get f (object_cache x1) = Some objs.
Proof.
  unfold extract_file_objects.
  destruct (cache_get f (object_cache x)) as [o|] eqn:E.
  - intros H; inversion H; subst; exact E.
  - destruct (fs f) as [text|]; [|discriminate].
    destruct (parse_vhdl policy text) as [o|e|]; try discriminate.
    destruct (register_array_types fuel o (array_types x));
      try discriminate.
    intros H; inversion H; subst. simpl. now apply cache_get_new.
Qed.

End CacheFacts.

(** X6: a file is parsed at most once by an extractor. Once
    [extract_file_objects] has returned the objects of a path, every later
    call for this path returns the same objects and leaves the extractor
    as it is, whatever calls were made in between and whatever the file
    holds by then (changed, or removed). *)
Theorem X6_file_is_parsed_once policy fuel fs f x objs x1 calls fs' :
  extract_file_objects policy fuel fs f x = (Done objs, x1) ->
  extract_file_objects policy fuel fs' f (extract_many policy fuel calls x1)
  = (Done objs, extract_many policy fuel calls x1).
Proof.
  intros H. apply CacheFacts.extract_done_cached in H.
  eapply CacheFacts.extract_many_keeps_cache with (calls := calls) in H.
  unfold extract_file_objects. now rewrite H.
Qed.

Lemma X6_witness :
  extract_file_objects SkipChar 2 (fun _ => None) "a.vhd"
    (extract_many SkipChar 2 [(fun _ => Some chain_text_lower, "b.vhd")]
       (mkExtractor (new_extractor [] ++ [PyStr "A"; PyStr "B"; PyStr "C"])
          [("a.vhd", VhdlPackage (Some "p") :: chain_objects)]))
  = (Done (VhdlPackage (Some "p") :: chain_objects),
     extract_many SkipChar 2 [(fun _ => Some chain_text_lower, "b.vhd")]
       (mkExtractor (new_extractor [] ++ [PyStr "A"; PyStr "B"; PyStr "C"])
          [("a.vhd", VhdlPackage (Some "p") :: chain_objects)])).
Proof.
  apply (@X6_file_is_parsed_once SkipChar 2 (fun _ => Some chain_text)
           "a.vhd" (new_VhdlExtractor [])).
  vm_compute. reflexivity.
Defined.

(** X7: a call of [extract_file_objects] that raises leaves the extractor
    as it was, cache and registry: the path was not in the cache, and
    either there is no such file or [parse_vhdl] raised on its text. The
    next call for the path reads the file again. *)
Theorem X7_failed_extraction_changes_nothing policy fuel fs f x r x' :
  extract_file_objects policy fuel fs f x = (r, x') ->
  (r = IOError \/ exists e, r = Fails e) ->
  x' = x /\ cache_get f (object_cache x) = None /\
  match r with
  | IOError => fs f = None
  | Fails e => exists text, fs f = Some text /\
                            parse_vhdl policy text = Raises e
  | _ => False
  end.
Proof.
  unfold extract_file_objects.
  destruct (cache_get f (object_cache x)) as [o|] eqn:E.
  { intros H [->|(e & ->)]; discriminate. }
  destruct (fs f) as [text|] eqn:Ef.
  2:{ intros H [->|(e & ->)]; inversion H; subst; auto. }
  destruct (parse_vhdl policy text) as [o|e0|] eqn:Ep.
  - unfold register_array_types.
    destruct (register_subtypes _ _ _ _) as [reg'|e1|] eqn:Er;
      intros H [->|(e & ->)]; try discriminate.
    exfalso. eapply CacheFacts.register_subtypes_no_raise; eauto.
  - intros H [->|(e & ->)]; inversion H; subst; eauto.
  - intros H [->|(e & ->)]; discriminate.
Qed.

Lemma X7_witness :
  new_VhdlExtractor [] = new_VhdlExtractor [] /\
  cache_get "a.vhd" (object_cache (new_VhdlExtractor [])) = None /\
  exists text,
    (fun _ : string => Some adder_text) "a.vhd" = Some text /\
    parse_vhdl FailLoudly text = Raises (LexicalError 18 component).
Proof.
  apply (@X7_failed_extraction_changes_nothing FailLoudly 2
           (fun _ => Some adder_text) "a.vhd" (new_VhdlExtractor [])
           (Fails (LexicalError 18 component)) (new_VhdlExtractor [])).
  - vm_compute. reflexivity.
  - right. eexists. reflexivity.
Defined.

Module SaveFacts.

Lemma save_many_files writable : forall calls fs f,
  snd (save_many writable calls fs) f
  = if existsb (fun c => String.eqb f (fst c) && writable (fst c)) calls
    then Some EmptyString else fs f.
Proof.
  induction calls as [|[fname x] calls IH]; intros fs f; simpl;
    [reflexivity|].
  rewrite IH. unfold save_array_types.
  destruct (existsb _ calls).
  - now rewrite orb_true_r.
  - rewrite orb_false_r.
    destruct (writable fname); simpl.
    + unfold write_file. now destruct (String.eqb f fname).
    + now rewrite andb_false_r.
Qed.

Lemma save_many_outcomes writable : forall calls fs,
  Forall (fun r => r = IOError \/ r = Fails TypeError)
    (fst (save_many writable calls fs)).
Proof.
  induction calls as [|[fname x] calls IH]; intros fs; simpl;
    constructor; [|apply IH].
  unfold save_array_types. destruct (writable fname); auto.
Qed.

End SaveFacts.

(** X8: the registry cannot be saved. Whatever extractors call
    [save_array_types], on whatever paths and in whatever order, no call
    returns: each raises [IOError] (the path cannot be written) or
    [TypeError]. Afterwards a file is empty if it was the writable target
    of one of the calls and as it was otherwise, so [load_array_types]
    from any file either does what it did before the calls or adds
    nothing to the extractor ([ast.literal_eval] raises [SyntaxError] on
    the empty text). *)
Theorem X8_save_stores_nothing
  (literal_eval : string -> res pylit) writable calls fs :
  literal_eval EmptyString = Raise SyntaxError ->
  Forall (fun r => r = IOError \/ r = Fails TypeError)
    (fst (save_many writable calls fs)) /\
  (forall f,
     snd (save_many writable calls fs) f
     = if existsb (fun c => String.eqb f (fst c) && writable (fst c)) calls
       then Some EmptyString else fs f) /\
  forall f y,
    load_array_types_file literal_eval (snd (save_many writable calls fs))
      f y
    = load_array_types_file literal_eval fs f y \/
    load_array_types_file literal_eval (snd (save_many writable calls fs))
      f y
    = (Done tt, y).
Proof.
  intros Hle. split; [apply SaveFacts.save_many_outcomes|]. split.
  - apply SaveFacts.save_many_files.
  - intros f y. unfold load_array_types_file.
    rewrite SaveFacts.save_many_files.
    destruct (existsb _ calls); [right|now left].
    unfold load_array_types. rewrite Hle. simpl. now destruct y.
Qed.

Lemma X8_witness :
  Forall (fun r => r = IOError \/ r = Fails (A := unit) TypeError)
    [Fails TypeError; IOError] /\
  snd (save_many (fun f => String.eqb f "types.txt")
         [("types.txt", new_VhdlExtractor [PyStr "my_vec"]);
          ("/types.txt", new_VhdlExtractor [])]
         (fun f => if String.eqb f "types.txt"
                   then Some "{'arrays': ['My_Vec']}" else None))
    "types.txt"
  = Some EmptyString /\
  snd (save_many (fun f => String.eqb f "types.txt")
         [("types.txt", new_VhdlExtractor [PyStr "my_vec"]);
          ("/types.txt", new_VhdlExtractor [])]
         (fun f => if String.eqb f "types.txt"
                   then Some "{'arrays': ['My_Vec']}" else None))
    "/types.txt"
  = None.
Proof.
  destruct (@X8_save_stores_nothing literal_eval_sample
              (fun f => String.eqb f "types.txt")
              [("types.txt", new_VhdlExtractor [PyStr "my_vec"]);
               ("/types.txt", new_VhdlExtractor [])]
              (fun f => if String.eqb f "types.txt"
                        then Some "{'arrays': ['My_Vec']}" else None)
              eq_refl)
    as (H1 & H2 & _).
  split; [exact H1|].
  split; [exact (H2 "types.txt") | exact (H2 "/types.txt")].
Defined.

(* ------------------------------------------------------------------ *)
(** ** One object per closing token *)

(** X9: the objects come out in the order of the tokens that close them
    and are never removed: whatever tokens follow, [objects] keeps what it
    held and gains exactly one object for each token that closes a
    declaration ([end_subprogram], [end_component], [package], a kind of
    type, [subtype], [constant]). So a parse that returns gives as many
    objects as the lexer emitted such tokens. *)
Theorem X9_one_object_per_closing_token :
  (forall text evs s s',
     interp_all text s evs = Ok s' ->
     exists more,
       objects s' = objects s ++ more /\
       List.length more
       = List.length (filter (fun e => creates (ev_action e)) evs))
  /\
  (forall policy text objs,
     parse_vhdl policy text = Returns objs ->
     List.length objs
     = List.length (filter (fun e => creates (ev_action e))
                      (fst (VhdlLexer policy text)))).
Proof.
  split; [apply CountFacts.interp_all_objects|].
  intros policy text objs Hp. unfold parse_vhdl, finish in Hp.
  destruct (interp_all text init_state (fst (VhdlLexer policy text)))
    as [s|] eqn:Ei; [|discriminate].
  destruct (snd (VhdlLexer policy text)); try discriminate.
  simpl in Hp. inversion Hp; subst objs.
  destruct (CountFacts.interp_all_objects _ _ _ Ei) as (more & Hm & Hl).
  unfold view. rewrite length_map, Hm. simpl. exact Hl.
Qed.

Lemma X9_witness :
  List.length [VhdlPackage (P := list pelem) (Some "a");
               VhdlPackage (Some "b");
               VhdlFunction (Some "f") [] (Some "x")
                 [Some " about what follows"]]
  = List.length (filter (fun e => creates (ev_action e))
                   (fst (VhdlLexer FailLoudly package_comment_text))).
Proof.
  apply (proj2 X9_one_object_per_closing_token FailLoudly
           package_comment_text).
  vm_compute. reflexivity.
Defined.

(* ------------------------------------------------------------------ *)
(** ** Groups of names, markers, comments and signatures *)

Module GroupFacts.
Import InterpFacts StoreFacts.

Lemma nth_error_snoc {A} (l : list A) x :
  nth_error (l ++ [x]) (List.length l) = Some x.
Proof. rewrite nth_error_app2 by lia. now rewrite Nat.sub_diag. Qed.

Lemma update_nth_snoc {A} (f : A -> A) (l : list A) x :
  update_nth (List.length l) f (l ++ [x]) = l ++ [f x].
Proof. induction l as [|y l IH]; simpl; [reflexivity | now rewrite IH]. Qed.

(** One token [param]: the parameter before it goes into [parameters] as
    it is, and a new one with only a name takes its place. *)
Lemma interp_param text s e k x :
  token a_param [k; x] e ->
  interp text s e
  = Ok (set_param_items [IObj (List.length (heap s))]
          (set_heap (heap s ++ [new_parameter (IStr x)])
             (set_parameters (parameters s ++ param_items s) s))).
Proof. intros [Ha Hg]. unfold interp. rewrite Ha, Hg. reflexivity. Qed.

(** The tokens [param] of the names [xs] and then of [y], one after the
    other. *)
Lemma interp_params text : forall evs xs y e s,
  param_tokens evs xs -> (exists k, token a_param [k; y] e) ->
  exists s',
    interp_all text s (evs ++ [e]) = Ok s' /\
    heap s' = heap s ++ map (fun x => new_parameter (IStr x)) (xs ++ [y]) /\
    parameters s'
    = parameters s ++ param_items s
      ++ map IObj (seq (List.length (heap s)) (List.length xs)) /\
    param_items s' = [IObj (List.length (heap s) + List.length xs)] /\
    objects s' = objects s /\ lists s' = lists s /\
    metacomments s' = metacomments s /\ cur_kind s' = cur_kind s /\
    cur_name s' = cur_name s.
Proof.
  induction evs as [|e0 evs IH]; intros xs y e s Hevs (k & Hk).
  - inversion Hevs; subst. eexists. split.
    + simpl. rewrite (interp_param text s Hk). reflexivity.
    + simpl. rewrite Nat.add_0_r, app_nil_r. repeat split.
  - inversion Hevs as [|e1 x evs1 xs1 (k0 & Hk0) Hrest]; subst.
    destruct (IH xs1 y e
                (set_param_items [IObj (List.length (heap s))]
                   (set_heap (heap s ++ [new_parameter (IStr x)])
                      (set_parameters (parameters s ++ param_items s) s)))
                Hrest (ex_intro _ k Hk))
      as (s' & Hs' & Hh & Hp & Hi & Ho & Hl & Hm & Hkd & Hn).
    exists s'. split.
    + cbn [app interp_all]. rewrite (interp_param text s Hk0).
      exact Hs'.
    + simpl in Hh, Hp, Hi, Ho, Hl, Hm, Hkd, Hn.
      rewrite Hh, Hp, Hi. rewrite length_app. simpl.
      repeat split; auto.
      * now rewrite <- app_assoc.
      * rewrite <- !app_assoc. do 2 f_equal. simpl. f_equal.
        now rewrite Nat.add_1_r.
      * do 2 f_equal. lia.
Qed.

(** The token [param_type] sets mode and type of the one parameter that
    is pending. *)
Lemma interp_param_type text s e m t a :
  token a_param_type [m; t] e -> param_items s = [IObj a] ->
  interp text s e
  = Ok (set_heap (update_nth a (with_mode_type (mode_strip m) t) (heap s))
          (set_cur_ptype (Some t) (set_cur_mode (Some (mode_strip m)) s))).
Proof.
  intros [Ha Hg] Hi. unfold interp. rewrite Ha, Hg. simpl. now rewrite Hi.
Qed.

(** The objects put last into the store, seen through their addresses. *)
Lemma view_new h new :
  map (view_item (h ++ new))
    (map IObj (seq (List.length h) (List.length new)))
  = map Param new.
Proof.
  rewrite map_map.
  transitivity (map (fun o => match o with Some p => Param p
                                         | None => Dangling end)
                  (map (nth_error (h ++ new))
                     (seq (List.length h) (List.length new)))).
  - now rewrite map_map.
  - rewrite StoreFacts.nth_error_new. now rewrite map_map.
Qed.

(** A group of names and the type after it: the state it leaves. *)
Lemma interp_group text s evs xs e y et m t :
  param_tokens evs xs -> (exists k, token a_param [k; y] e) ->
  token a_param_type [m; t] et ->
  exists s',
    interp_all text s (evs ++ [e; et]) = Ok s' /\
    heap s' = heap s ++ map (fun x => new_parameter (IStr x)) xs
              ++ [mkParameter (IStr y) (mode_strip m) t None None] /\
    parameters s'
    = parameters s ++ param_items s
      ++ map IObj (seq (List.length (heap s)) (List.length xs)) /\
    param_items s' = [IObj (List.length (heap s) + List.length xs)] /\
    objects s' = objects s /\ metacomments s' = metacomments s /\
    cur_kind s' = cur_kind s /\ cur_name s' = cur_name s.
Proof.
  intros Hevs He Het.
  destruct (interp_params text s Hevs He)
    as (s1 & Hs1 & Hh & Hp & Hi & Ho & _ & Hm & Hk & Hn).
  set (a := List.length (heap s) + List.length xs) in *.
  set (s2 := set_heap
               (update_nth a (with_mode_type (mode_strip m) t) (heap s1))
               (set_cur_ptype (Some t)
                  (set_cur_mode (Some (mode_strip m)) s1))).
  assert (Hh2 : heap s2
                = heap s ++ map (fun x => new_parameter (IStr x)) xs
                  ++ [mkParameter (IStr y) (mode_strip m) t None None]).
  { change (heap s2)
      with (update_nth a (with_mode_type (mode_strip m) t) (heap s1)).
    rewrite Hh, map_app. cbn [map].
    replace a
      with (List.length (heap s ++ map (fun x => new_parameter (IStr x)) xs))
      by (unfold a; now rewrite length_app, length_map).
    now rewrite app_assoc, update_nth_snoc, <- app_assoc. }
  exists s2. split; [|split; [exact Hh2|]].
  - change (evs ++ [e; et]) with (evs ++ [e] ++ [et]).
    rewrite app_assoc, InterpFacts.interp_all_app, Hs1.
    cbn [bind interp_all].
    rewrite (interp_param_type text s1 Het Hi). reflexivity.
  - repeat split; assumption.
Qed.

(** The names of a group of ports or of generics are kept as strings
    until the type comes; only a port name is counted. *)
Lemma interp_name_tokens text (a : action) :
  a = a_port_param \/ a = a_generic_param ->
  forall evs xs s, tokens_of a evs xs ->
  exists s',
    interp_all text s evs = Ok s' /\
    param_items s' = param_items s ++ map IStr xs /\
    port_param_index s'
    = (match a with a_port_param => List.length xs | _ => 0 end)
      + port_param_index s /\
    heap s' = heap s /\ lists s' = lists s /\ ports s' = ports s /\
    generics s' = generics s /\ objects s' = objects s /\
    last_item s' = last_item s /\ sections s' = sections s.
Proof.
  intros Hact. induction evs as [|e evs IH]; intros xs s Hevs.
  - inversion Hevs; subst. exists s. simpl. rewrite app_nil_r.
    destruct Hact as [-> | ->]; repeat split.
  - inversion Hevs as [|e1 x evs1 xs1 [Ha Hg] Hrest]; subst evs1 e1 xs.
    assert (Hstep : exists s1,
               interp text s e = Ok s1 /\
               param_items s1 = param_items s ++ [IStr x] /\
               port_param_index s1
               = (match a with a_port_param => 1 | _ => 0 end)
                 + port_param_index s /\
               heap s1 = heap s /\ lists s1 = lists s /\
               ports s1 = ports s /\ generics s1 = generics s /\
               objects s1 = objects s /\ last_item s1 = last_item s /\
               sections s1 = sections s).
    { unfold interp. rewrite Ha, Hg.
      destruct Hact as [-> | ->]; eexists; (split; [reflexivity|]);
        repeat split. }
    destruct Hstep as (s1 & H1 & Hi1 & Hp1 & Hh1 & Hl1 & Hq1 & Hg1 & Ho1
                       & Hla1 & Hs1).
    destruct (IH xs1 s1 Hrest)
      as (s' & H' & Hi & Hp & Hh & Hl & Hq & Hgg & Ho & Hla & Hs).
    exists s'. cbn [interp_all]. rewrite H1. cbn [bind].
    split; [exact H'|].
    rewrite Hi, Hp, Hh, Hl, Hq, Hgg, Ho, Hla, Hs.
    rewrite Hi1, Hp1, Hh1, Hl1, Hq1, Hg1, Ho1, Hla1, Hs1.
    cbn [map List.length]. rewrite <- app_assoc.
    repeat split; auto. destruct Hact as [-> | ->]; lia.
Qed.

(** What [add_params] does when it does not raise, for ports and for
    generics. *)
Lemma add_params_spec (b : bool) m t pst pst' :
  add_params b m t pst = Ok pst' ->
  let l := fun s => if b then ports_list s else generics_list s in
  exists addrs,
    l pst' = l pst ++ addrs /\
    deref pst' addrs
    = map (fun n => Some (mkParameter n m t None None)) (param_items pst) /\
    param_items pst' = [] /\ objects pst' = objects pst /\
    port_param_index pst' = port_param_index pst /\
    l pst' <> [] /\ last_item pst' = Some (last (l pst') 0).
Proof.
  unfold add_params. rewrite StoreFacts.alloc_params_spec.
  set (new := map _ (param_items pst)).
  set (addrs := seq _ _). set (id := if b then ports pst else generics pst).
  set (ls := list_extend _ _ _).
  unfold last_addr.
  destruct (list_get id ls) as [|x0 l0] eqn:E; simpl; [discriminate|].
  intros H; inversion H; subst pst'; clear H.
  exists addrs. unfold ports_list, generics_list, deref. simpl.
  assert (Hget : list_get id ls = list_get id (lists pst) ++ addrs).
  { destruct (Nat.lt_ge_cases id (List.length (lists pst))) as [Hv|Hv].
    - subst ls. unfold list_get, list_extend.
      now rewrite StoreFacts.update_nth_same.
    - exfalso. subst ls. unfold list_extend in E.
      rewrite StoreFacts.update_nth_beyond in E by assumption.
      unfold list_get in E. rewrite nth_overflow in E by assumption.
      discriminate. }
  assert (Hl : (if b then list_get (ports pst) ls
                else list_get (generics pst) ls) = x0 :: l0).
  { subst id. destruct b; exact E. }
  assert (Hl2 : (if b then list_get (ports pst) ls
                 else list_get (generics pst) ls)
                = (if b then list_get (ports pst) (lists pst)
                   else list_get (generics pst) (lists pst)) ++ addrs).
  { subst id. destruct b; exact Hget. }
  repeat split.
  - exact Hl2.
  - subst addrs new. rewrite <- (length_map
        (fun n => mkParameter n m t None None) (param_items pst)).
    rewrite StoreFacts.nth_error_new. now rewrite map_map.
  - rewrite Hl. discriminate.
  - now rewrite Hl.
Qed.

(** Section markers with no port name between them all take the same
    key. *)
Lemma interp_markers text : forall evs ls s,
  tokens_of a_section_meta evs ls ->
  exists s',
    interp_all text s evs = Ok s' /\
    sections s' = sections s ++ map (pair (port_param_index s)) ls /\
    port_param_index s' = port_param_index s /\
    cur_name s' = cur_name s /\ ports s' = ports s /\
    generics s' = generics s /\ metacomments s' = metacomments s /\
    objects s' = objects s.
Proof.
  induction evs as [|e evs IH]; intros ls s Hevs.
  - inversion Hevs; subst. exists s. simpl. rewrite app_nil_r.
    repeat split.
  - inversion Hevs as [|e1 l evs1 ls1 [Ha Hg] Hrest]; subst evs1 e1 ls.
    set (s1 := set_sections (sections s ++ [(port_param_index s, l)]) s).
    assert (H1 : interp text s e = Ok s1).
    { unfold interp. now rewrite Ha, Hg. }
    destruct (IH ls1 s1 Hrest)
      as (s' & H' & Hs & Hp & Hn & Hq & Hgg & Hm & Ho).
    exists s'. cbn [interp_all]. rewrite H1. cbn [bind].
    split; [exact H'|].
    rewrite Hs, Hp, Hn, Hq, Hgg, Hm, Ho. subst s1. cbn [map].
    simpl. rewrite <- app_assoc. repeat split.
Qed.

(** After a run of pairs with one and the same key, [dict] holds the last
    of their values there, and what it held before elsewhere. *)
Lemma dict_same_key {V} k0 (l : V) : forall ls d0 k,
  dict_get k
    (fold_left (fun d kv => dict_set (fst kv) (snd kv) d)
       (map (pair k0) (ls ++ [l])) d0)
  = if k =? k0 then Some l else dict_get k d0.
Proof.
  induction ls as [|l1 ls IH]; intros d0 k; simpl.
  - apply SectionFacts.dict_get_set.
  - rewrite IH, SectionFacts.dict_get_set. now destruct (k =? k0).
Qed.

Lemma update_nth_twice {A} (f g : A -> A) : forall a l,
  update_nth a f (update_nth a g l) = update_nth a (fun x => f (g x)) l.
Proof.
  induction a as [|a IH]; intros [|x l]; simpl; auto. now rewrite IH.
Qed.

(** Metacomments that find a target each overwrite its description. *)
Lemma interp_comments_target text a : forall evs gs g s,
  tokens_of a_metacomment evs (gs ++ [g]) -> last_item s = Some a ->
  exists s',
    interp_all text s evs = Ok s' /\
    heap s' = update_nth a (with_desc g) (heap s) /\
    metacomments s' = metacomments s /\ objects s' = objects s /\
    lists s' = lists s /\ last_item s' = Some a.
Proof.
  induction evs as [|e evs IH]; intros gs g s Hevs Hl.
  - inversion Hevs as [E|]. destruct gs; discriminate.
  - inversion Hevs as [|e1 g1 evs1 gs1 [Ha Hg] Hrest E1 E2]; subst evs1 e1.
    set (s1 := set_heap (update_nth a (with_desc g1) (heap s)) s).
    assert (H1 : interp text s e = Ok s1).
    { unfold interp. now rewrite Ha, Hg, Hl. }
    cbn [interp_all]. rewrite H1. cbn [bind].
    destruct gs as [|g0 gs].
    + simpl in E2. inversion E2; subst g1 gs1. inversion Hrest; subst.
      exists s1. simpl. repeat split; auto.
    + simpl in E2. inversion E2; subst g1 gs1.
      destruct (IH gs g s1 Hrest Hl) as (s' & H' & Hh & Hm & Ho & Hli & Hl').
      exists s'. split; [exact H'|]. rewrite Hh, Hm, Ho, Hli. subst s1.
      simpl. rewrite update_nth_twice. repeat split; auto.
Qed.




Lemma data_types_params : forall ps,
  data_types (map Param ps) = Ok (map data_type ps).
Proof.
  induction ps as [|p ps IH]; simpl; [reflexivity|]. now rewrite IH.
Qed.

End GroupFacts.

(** X10: in the parameter list of a subprogram, names separated by commas
    do not share the type that follows them. Each token [param] puts the
    parameter before it into [parameters] as it stands, so of the names
    [xs], [y] and the type after them only [y] gets mode (stripped) and
    type; every name of [xs] stays a parameter with a name and nothing
    else. *)
Theorem X10_only_the_last_name_is_typed text s evs xs e y et m t :
  param_tokens evs xs -> (exists k, token a_param [k; y] e) ->
  token a_param_type [m; t] et ->
  exists s',
    interp_all text s (evs ++ [e; et]) = Ok s' /\
    parameters s'
    = parameters s ++ param_items s
      ++ map IObj (seq (List.length (heap s)) (List.length xs)) /\
    param_items s' = [IObj (List.length (heap s) + List.length xs)] /\
    map (view_item (heap s'))
      (map IObj (seq (List.length (heap s)) (S (List.length xs))))
    = map (fun x => Param (new_parameter (IStr x))) xs
      ++ [Param (mkParameter (IStr y) (mode_strip m) t None None)].
Proof.
  intros Hevs He Het.
  destruct (@GroupFacts.interp_group text s evs xs e y et m t Hevs He Het)
    as (s' & H & Hh & Hp & Hi & _).
  exists s'. split; [exact H|]. split; [exact Hp|]. split; [exact Hi|].
  rewrite Hh.
  pose proof (GroupFacts.view_new (heap s)
                (map (fun x => new_parameter (IStr x)) xs
                 ++ [mkParameter (IStr y) (mode_strip m) t None None]))
    as V.
  rewrite length_app, length_map in V. cbn [List.length] in V.
  rewrite Nat.add_1_r in V. rewrite V, map_app, map_map. reflexivity.
Qed.

Lemma X10_witness :
  exists s',
    interp_all EmptyString init_state
      ([Event 11 11 a_param [None; Some "a"]]
       ++ [Event 14 15 a_param [None; Some "b"];
           Event 18 27 a_param_type [Some "in "; Some "integer"]])
    = Ok s' /\
    parameters s' = [IObj 0] /\
    param_items s' = [IObj 1] /\
    map (view_item (heap s')) [IObj 0; IObj 1]
    = [Param (new_parameter (IStr (Some "a")));
       Param (mkParameter (IStr (Some "b")) (Some "in") (Some "integer")
                None None)].
Proof.
  apply (@X10_only_the_last_name_is_typed EmptyString init_state
           [Event 11 11 a_param [None; Some "a"]] [Some "a"]
           (Event 14 15 a_param [None; Some "b"]) (Some "b")
           (Event 18 27 a_param_type [Some "in "; Some "integer"])
           (Some "in ") (Some "integer")).
  - constructor; [|constructor]. exists None. split; reflexivity.
  - exists None. split; reflexivity.
  - split; reflexivity.
Defined.

(** X11: in a port clause, names separated by commas do share what
    follows them. When the token [port_param_type] is handled without an
    error, every name pending since the last type becomes a new parameter
    at the end of [ports], in order, each with the mode and the type of
    the token and neither default nor description; the count of port
    names went up by the number of names; nothing is left pending; and
    the last of the ports is the target of the metacomments that
    follow. *)
Theorem X11_every_name_of_a_port_group_is_typed
  text s evs xs et m t s' :
  tokens_of a_port_param evs xs ->
  token a_port_param_type [m; t] et ->
  interp_all text s (evs ++ [et]) = Ok s' ->
  exists addrs,
    ports_list s' = ports_list s ++ addrs /\
    deref s' addrs
    = map (fun n => Some (mkParameter n m t None None))
        (param_items s ++ map IStr xs) /\
    port_param_index s' = List.length xs + port_param_index s /\
    param_items s' = [] /\
    last_item s' = Some (last (ports_list s') 0).
Proof.
  intros Hevs [Ha Hg] H.
  destruct (@GroupFacts.interp_name_tokens text a_port_param
              (or_introl eq_refl) evs xs s Hevs)
    as (s1 & H1 & Hi & Hp & Hh & Hl & Hq & _ & _ & _ & _).
  rewrite InterpFacts.interp_all_app, H1 in H. cbn [bind interp_all] in H.
  destruct (interp text s1 et) as [s2|] eqn:E; [|discriminate].
  cbn [bind] in H. inversion H; subst s2; clear H.
  unfold interp in E. rewrite Ha, Hg in E. cbn [unpack2 bind fst snd] in E.
  apply GroupFacts.add_params_spec in E. cbv zeta in E.
  destruct E as (addrs & El & Ed & Ei & _ & Ep & _ & Ela).
  exists addrs.
  assert (Hpl : ports_list
                  (set_cur_ptype (Some t) (set_cur_mode (Some m) s1))
                = ports_list s).
  { unfold ports_list. simpl. now rewrite Hl, Hq. }
  rewrite Hpl in El. simpl in Ed, Ep. rewrite Hi in Ed. rewrite Hp in Ep.
  repeat split; assumption.
Qed.

Lemma X11_witness :
  exists s' addrs,
    ports_list s' = ports_list init_state ++ addrs /\
    deref s' addrs
    = [Some (mkParameter (IStr (Some "a")) (Some "in") (Some "bit")
               None None);
       Some (mkParameter (IStr (Some "b")) (Some "in") (Some "bit")
               None None)] /\
    port_param_index s' = 2 /\
    param_items s' = [] /\
    last_item s' = Some (last (ports_list s') 0).
Proof.
  eexists.
  eapply (@X11_every_name_of_a_port_group_is_typed EmptyString init_state
            [Event 7 8 a_port_param [Some "a"];
             Event 10 11 a_port_param [Some "b"]]
            [Some "a"; Some "b"]
            (Event 14 20 a_port_param_type [Some "in"; Some "bit"])
            (Some "in") (Some "bit") _).
  - constructor; [split; reflexivity|].
    constructor; [split; reflexivity|]. constructor.
  - split; reflexivity.
  - reflexivity.
Defined.

(** X12: the same for generics, whose mode is always [in]: every name
    pending becomes a new parameter at the end of [generics] with mode
    [in] and the type of the token [generic_param_type]; the count of port
    names is not touched. *)
Theorem X12_every_name_of_a_generic_group_is_typed
  text s evs xs et t s' :
  tokens_of a_generic_param evs xs ->
  token a_generic_param_type [t] et ->
  interp_all text s (evs ++ [et]) = Ok s' ->
  exists addrs,
    generics_list s' = generics_list s ++ addrs /\
    deref s' addrs
    = map (fun n => Some (mkParameter n (Some "in") t None None))
        (param_items s ++ map IStr xs) /\
    port_param_index s' = port_param_index s /\
    param_items s' = [] /\
    last_item s' = Some (last (generics_list s') 0).
Proof.
  intros Hevs [Ha Hg] H.
  destruct (@GroupFacts.interp_name_tokens text a_generic_param
              (or_intror eq_refl) evs xs s Hevs)
    as (s1 & H1 & Hi & Hp & Hh & Hl & _ & Hq & _ & _ & _).
  rewrite InterpFacts.interp_all_app, H1 in H. cbn [bind interp_all] in H.
  destruct (interp text s1 et) as [s2|] eqn:E; [|discriminate].
  cbn [bind] in H. inversion H; subst s2; clear H.
  unfold interp in E. rewrite Ha, Hg in E.
  cbn [group nth_error bind] in E.
  apply GroupFacts.add_params_spec in E. cbv zeta in E.
  destruct E as (addrs & El & Ed & Ei & _ & Ep & _ & Ela).
  exists addrs.
  assert (Hpl : generics_list (set_cur_ptype (Some t) s1)
                = generics_list s).
  { unfold generics_list. simpl. now rewrite Hl, Hq. }
  rewrite Hpl in El. simpl in Ed, Ep. rewrite Hi in Ed. rewrite Hp in Ep.
  repeat split; assumption.
Qed.

Lemma X12_witness :
  exists s' addrs,
    generics_list s' = generics_list init_state ++ addrs /\
    deref s' addrs
    = [Some (mkParameter (IStr (Some "n")) (Some "in") (Some "natural")
               None None);
       Some (mkParameter (IStr (Some "m")) (Some "in") (Some "natural")
               None None)] /\
    port_param_index s' = 0 /\
    param_items s' = [] /\
    last_item s' = Some (last (generics_list s') 0).
Proof.
  eexists.
  eapply (@X12_every_name_of_a_generic_group_is_typed EmptyString
            init_state
            [Event 10 11 a_generic_param [Some "n"];
             Event 13 14 a_generic_param [Some "m"]]
            [Some "n"; Some "m"]
            (Event 17 24 a_generic_param_type [Some "natural"])
            (Some "natural") _).
  - constructor; [split; reflexivity|].
    constructor; [split; reflexivity|]. constructor.
  - split; reflexivity.
  - reflexivity.
Defined.

Module MarkerFacts.
Import InterpFacts.

(** Once a port name has been counted, or up to the next one when no
    marker comes before it, the markers take other keys than [k0]. *)
Lemma sections_later text k0 : forall rest s s',
  forallb (fun x => negb (is_component x)) rest = true ->
  k0 < port_param_index s \/
  (port_param_index s = k0 /\ markers_after_a_port rest = true) ->
  interp_all text s rest = Ok s' ->
  exists later,
    sections s' = sections s ++ later /\
    forall k l, In (k, l) later -> k <> k0.
Proof.
  induction rest as [|e rest IH]; intros s s' Hnc Hk H; simpl in H.
  - inversion H; subst. exists []. rewrite app_nil_r. split; [reflexivity|].
    intros k l [].
  - destruct (interp text s e) as [s1|] eqn:E; [|discriminate]. simpl in H.
    simpl in Hnc. apply andb_prop in Hnc. destruct Hnc as [Hc Hnc].
    pose proof (interp_sections _ _ _ E) as Hs.
    unfold is_component in Hc.
    cbn [markers_after_a_port] in Hk.
    unfold is_port_param, is_section_meta in Hk.
    destruct (ev_action e) eqn:Ea; try discriminate Hc;
      try (destruct Hs as [Hs1 Hs2];
           destruct (IH s1 s' Hnc) as (later & Hl & Hkeys);
           [ rewrite Hs2; destruct Hk as [Hk|[Hk1 Hk2]]; auto; lia
           | exact H
           | exists later; rewrite Hl, Hs1; split; [reflexivity|exact Hkeys] ]).
    destruct Hs as (label & _ & Hs1 & Hs2).
    destruct Hk as [Hk|[_ Hk]]; [|discriminate Hk].
    destruct (IH s1 s' Hnc) as (later & Hl & Hkeys);
      [left; now rewrite Hs2 | exact H |].
    exists ((port_param_index s, label) :: later).
    rewrite Hl, Hs1, <- app_assoc. split; [reflexivity|].
    intros k l [Hin|Hin]; [inversion Hin; lia | eauto].
Qed.

Lemma dict_get_later {V} k0 : forall (later d0 : list (nat * V)),
  (forall k l, In (k, l) later -> k <> k0) ->
  dict_get k0 (fold_left (fun d kv => dict_set (fst kv) (snd kv) d) later d0)
  = dict_get k0 d0.
Proof.
  induction later as [|[k l] later IH]; intros d0 Hk; simpl; [reflexivity|].
  rewrite IH by (intros k' l' Hin; apply (Hk k' l'); now right).
  rewrite SectionFacts.dict_get_set.
  destruct (k0 =? k) eqn:E; [|reflexivity].
  apply Nat.eqb_eq in E. subst k. now elim (Hk k0 l (or_introl eq_refl)).
Qed.

End MarkerFacts.

(** X13: of several section markers with no port name between them only
    the last is kept. When the parse returns, and the markers are
    followed, with no other marker before the next port name and no
    [component], by the [end_component] that closes the component, the
    component returned for this [end_component] (the object at the index
    given by the closing tokens before it) has, under the number of port
    names declared when the markers were read, the label of the last of
    them. *)
Theorem X13_last_marker_wins policy text objs evs_a evs ls l rest ee evs_b :
  parse_vhdl policy text = Returns objs ->
  fst (VhdlLexer policy text) = evs_a ++ evs ++ rest ++ ee :: evs_b ->
  tokens_of a_section_meta evs (ls ++ [l]) ->
  forallb (fun x => negb (is_component x)) rest = true ->
  markers_after_a_port rest = true ->
  ev_action ee = a_end_component ->
  exists n ps gs secs d,
    nth_error objs
      (List.length (filter (fun e => creates (ev_action e))
                      (evs_a ++ evs ++ rest)))
    = Some (VhdlComponent n ps gs secs d) /\
    dict_get (declared_ports evs_a) secs = Some l.
Proof.
  intros Hp Hlex Hevs Hnc Hma Hend. unfold parse_vhdl, finish in Hp.
  rewrite Hlex in Hp.
  destruct (interp_all text init_state
              (evs_a ++ evs ++ rest ++ ee :: evs_b)) as [sf|] eqn:Ei;
    [|discriminate].
  assert (Hobjs : objs = view sf).
  { destruct (snd (VhdlLexer policy text)); simpl in Hp; inversion Hp;
      reflexivity. }
  clear Hp.
  rewrite InterpFacts.interp_all_app in Ei.
  destruct (interp_all text init_state evs_a) as [s0|] eqn:E0;
    [|discriminate].
  cbn [bind] in Ei. rewrite InterpFacts.interp_all_app in Ei.
  destruct (@GroupFacts.interp_markers text evs (ls ++ [l]) s0 Hevs)
    as (s1 & E1 & Hs1 & Hp1 & _).
  rewrite E1 in Ei. cbn [bind] in Ei.
  rewrite InterpFacts.interp_all_app in Ei.
  destruct (interp_all text s1 rest) as [s2|] eqn:E2; [|discriminate].
  cbn [bind interp_all] in Ei.
  destruct (interp text s2 ee) as [s3|] eqn:E3; [|discriminate].
  cbn [bind] in Ei.
  destruct (@MarkerFacts.sections_later text (port_param_index s0)
              rest s1 s2 Hnc (or_intror (conj Hp1 Hma)) E2)
    as (later & Hl & Hkeys).
  assert (Hs3 : objects s3
                = objects s2 ++ [VhdlComponent (cur_name s2)
                                   (ListRef (ports s2))
                                   (ListRef (generics s2))
                                   (dict (sections s2)) (metacomments s2)]).
  { unfold interp in E3. rewrite Hend in E3. inversion E3. reflexivity. }
  destruct (CountFacts.interp_all_objects _ _ _ Ei) as (more & Hmore & _).
  assert (Hpre : interp_all text init_state (evs_a ++ evs ++ rest) = Ok s2).
  { rewrite InterpFacts.interp_all_app, E0. cbn [bind].
    rewrite InterpFacts.interp_all_app, E1. cbn [bind]. exact E2. }
  destruct (CountFacts.interp_all_objects _ _ _ Hpre) as (got & Hgot & Hlen).
  simpl in Hgot. rewrite <- Hlen, <- Hgot.
  exists (cur_name s2), (view_plist sf (ListRef (ports s2))),
    (view_plist sf (ListRef (generics s2))), (dict (sections s2)),
    (metacomments s2).
  split.
  - rewrite Hobjs. unfold view. rewrite nth_error_map, Hmore, Hs3.
    rewrite <- app_assoc, nth_error_app2 by lia.
    rewrite Nat.sub_diag. reflexivity.
  - destruct (SectionFacts.sections_sound_all _ _ E0) as (Hidx & _).
    rewrite <- Hidx, Hl, Hs1. unfold dict.
    rewrite !fold_left_app, MarkerFacts.dict_get_later by exact Hkeys.
    rewrite GroupFacts.dict_same_key. now rewrite Nat.eqb_refl.
Qed.

Lemma X13_witness :
  exists n ps gs secs d,
    nth_error [VhdlComponent (Some "c") [port "d" "in" "bit"] []
                 [(0, Some "b")] []] 0
    = Some (VhdlComponent n ps gs secs d) /\
    dict_get 0 secs = Some (Some "b").
Proof.
  apply (@X13_last_marker_wins FailLoudly marker_text
           [VhdlComponent (Some "c") [port "d" "in" "bit"] []
              [(0, Some "b")] []]
           [Event 0 13 a_component [Some "c"]]
           [Event 23 32 a_section_meta [Some "a"];
            Event 33 42 a_section_meta [Some "b"]]
           [Some "a"] (Some "b")
           [Event 43 45 a_port_param [Some "d"];
            Event 48 54 a_port_param_type [Some "in"; Some "bit"];
            Event 55 56 a_end_port []]
           (Event 57 70 a_end_component []) []).
  - vm_compute. reflexivity.
  - vm_compute. reflexivity.
  - constructor; [split; reflexivity|].
    constructor; [split; reflexivity|]. constructor.
  - reflexivity.
  - reflexivity.
  - reflexivity.
Defined.

(** X14: a generic or a port keeps one line of description. Of several
    metacomments that follow one another while a parameter is the target,
    each replaces the description the one before had set: the parameter
    ends with the last, no other parameter is touched, and none of the
    lines reaches the buffer or an object. *)
Theorem X14_a_later_comment_replaces_the_description
  text a evs gs g s p :
  tokens_of a_metacomment evs (gs ++ [g]) ->
  last_item s = Some a -> nth_error (heap s) a = Some p ->
  exists s',
    interp_all text s evs = Ok s' /\
    nth_error (heap s') a = Some (with_desc g p) /\
    (forall b, b <> a -> nth_error (heap s') b = nth_error (heap s) b) /\
    metacomments s' = metacomments s /\ objects s' = objects s.
Proof.
  intros Hevs Hl Hp.
  destruct (@GroupFacts.interp_comments_target text a evs gs g s Hevs Hl)
    as (s' & H & Hh & Hm & Ho & _ & _).
  exists s'. split; [exact H|]. rewrite Hh.
  assert (Hlt : a < List.length (heap s)).
  { apply nth_error_Some. congruence. }
  split; [|split; [|split; assumption]].
  - rewrite (nth_error_nth' _ p) by now rewrite StoreFacts.update_nth_length.
    rewrite StoreFacts.update_nth_same by assumption.
    now rewrite (nth_error_nth _ _ p Hp).
  - intros b Hb.
    destruct (Nat.lt_ge_cases b (List.length (heap s))) as [Hv|Hv].
    + rewrite (nth_error_nth' _ p)
        by now rewrite StoreFacts.update_nth_length.
      rewrite StoreFacts.update_nth_other by auto.
      now rewrite <- (nth_error_nth' _ p).
    + assert (E1 : nth_error (heap s) b = None) by now apply nth_error_None.
      rewrite E1. apply nth_error_None.
      now rewrite StoreFacts.update_nth_length.
Qed.

Lemma X14_witness :
  exists s',
    interp_all EmptyString
      (set_last_item (Some 0)
         (set_heap [new_parameter (IStr (Some "a"))] init_state))
      [Event 0 9 a_metacomment [Some " first"];
       Event 10 20 a_metacomment [Some " second"]]
    = Ok s' /\
    nth_error (heap s') 0
    = Some (mkParameter (IStr (Some "a")) None None None
              (Some " second")) /\
    (forall b, b <> 0 ->
       nth_error (heap s') b
       = nth_error [new_parameter (IStr (Some "a"))] b) /\
    metacomments s' = [] /\ objects s' = [].
Proof.
  apply (@X14_a_later_comment_replaces_the_description EmptyString 0
           [Event 0 9 a_metacomment [Some " first"];
            Event 10 20 a_metacomment [Some " second"]]
           [Some " first"] (Some " second")
           (set_last_item (Some 0)
              (set_heap [new_parameter (IStr (Some "a"))] init_state))
           (new_parameter (IStr (Some "a")))).
  - constructor; [split; reflexivity|].
    constructor; [split; reflexivity|]. constructor.
  - reflexivity.
  - reflexivity.
Defined.



(** X16: [subprogram_signature] fails on a function declared with names
    separated by commas. The tokens of such a declaration are handled
    without an error and give a [VhdlFunction] whose parameters are the
    names before the last, each without a type, and the last with the
    type; on this object [subprogram_signature] raises [TypeError], since
    it joins the types and the first of them is [None]. *)
Theorem X16_signature_of_a_comma_group_raises
  text s ef n evs x xs e y et m t ee r :
  token a_function [n] ef ->
  param_tokens evs (x :: xs) -> (exists k, token a_param [k; y] e) ->
  token a_param_type [m; t] et ->
  token a_end_subprogram [r] ee ->
  exists s' older vo,
    interp_all text s (ef :: evs ++ [e; et; ee]) = Ok s' /\
    view s' = older ++ [vo] /\
    vo = VhdlFunction n
           (map (fun x => Param (new_parameter (IStr x))) (x :: xs)
            ++ [Param (mkParameter (IStr y) (mode_strip m) t None None)])
           r (metacomments s) /\
    subprogram_signature vo None = Raise TypeError.
Proof.
  intros [Haf Hgf] Hevs He Het [Hae Hge].
  set (s0 := set_parameters [] (set_param_items []
               (set_cur_name n (set_cur_kind (Some k_function) s)))).
  assert (H0 : interp text s ef = Ok s0).
  { unfold interp. now rewrite Haf, Hgf. }
  destruct (@GroupFacts.interp_group text s0 evs (x :: xs) e y et m t
              Hevs He Het)
    as (s1 & H1 & Hh & Hp & Hi & Ho & Hm & Hk & Hn).
  change (parameters s0) with (@nil item) in Hp.
  change (param_items s0) with (@nil item) in Hp.
  change (heap s0) with (heap s) in Hh, Hp, Hi.
  change (objects s0) with (objects s) in Ho.
  change (metacomments s0) with (metacomments s) in Hm.
  change (cur_kind s0) with (Some k_function) in Hk.
  change (cur_name s0) with n in Hn.
  cbn [app] in Hp.
  set (ps := parameters s1 ++ param_items s1).
  set (o := VhdlFunction (cur_name s1) (Items ps) r (metacomments s1)).
  set (s2 := set_param_items [] (set_parameters [] (emitted o s1))).
  assert (H2 : interp text s1 ee = Ok s2).
  { unfold interp. rewrite Hae, Hge, Hk. reflexivity. }
  pose proof (GroupFacts.view_new (heap s)
                (map (fun x => new_parameter (IStr x)) (x :: xs)
                 ++ [mkParameter (IStr y) (mode_strip m) t None None]))
    as V.
  rewrite length_app, length_map in V. cbn [List.length] in V.
  rewrite Nat.add_1_r in V.
  assert (Hps : map (view_item (heap s1)) ps
                = map Param
                    (map (fun x => new_parameter (IStr x)) (x :: xs)
                     ++ [mkParameter (IStr y) (mode_strip m) t None None])).
  { unfold ps. rewrite Hp, Hi, Hh, <- V. f_equal.
    rewrite (seq_S (S (List.length xs))), map_app. reflexivity. }
  exists s2, (map (view_object s2) (objects s)), (view_object s2 o).
  split; [|split; [|split]].
  - cbn [interp_all]. rewrite H0. cbn [bind].
    change (evs ++ [e; et; ee]) with (evs ++ [e; et] ++ [ee]).
    rewrite app_assoc, InterpFacts.interp_all_app, H1.
    cbn [bind interp_all]. rewrite H2. reflexivity.
  - unfold view. change (objects s2) with (objects s1 ++ [o]).
    now rewrite Ho, map_app.
  - unfold o. cbn [view_object view_plist]. rewrite Hn, Hm.
    change (heap s2) with (heap s1). rewrite Hps, map_app, map_map.
    reflexivity.
  - unfold o. cbn [view_object view_plist subprogram_signature].
    change (heap s2) with (heap s1).
    rewrite Hps, GroupFacts.data_types_params. reflexivity.
Qed.

Lemma X16_witness :
  exists s' older vo,
    interp_all EmptyString init_state
      (Event 0 10 a_function [Some "f"]
       :: [Event 11 11 a_param [None; Some "a"]]
       ++ [Event 14 15 a_param [None; Some "b"];
           Event 18 27 a_param_type [Some "in "; Some "integer"];
           Event 28 44 a_end_subprogram [Some "integer"]])
    = Ok s' /\
    view s' = older ++ [vo] /\
    vo = VhdlFunction (Some "f")
           [Param (new_parameter (IStr (Some "a")));
            Param (mkParameter (IStr (Some "b")) (Some "in")
                     (Some "integer") None None)]
           (Some "integer") [] /\
    subprogram_signature vo None = Raise TypeError.
Proof.
  apply (@X16_signature_of_a_comma_group_raises EmptyString init_state
           (Event 0 10 a_function [Some "f"]) (Some "f")
           [Event 11 11 a_param [None; Some "a"]] (Some "a") []
           (Event 14 15 a_param [None; Some "b"]) (Some "b")
           (Event 18 27 a_param_type [Some "in "; Some "integer"])
           (Some "in ") (Some "integer")
           (Event 28 44 a_end_subprogram [Some "integer"])
           (Some "integer")).
  - split; reflexivity.
  - constructor; [|constructor]. exists None. split; reflexivity.
  - exists None. split; reflexivity.
  - split; reflexivity.
  - split; reflexivity.
Defined.
